(** * Remmitt batch transfer: the settlement contract and its client library

    A shallow embedding of
    - [contracts/src/BatchTransfer.sol] (the [BatchTransfer] contract and the
      [IERC20] interface it calls), and
    - [web/lib/batch-contract.ts] (validator, calldata encoder, gas estimator
      and the dispatch function [executeBatchTransfer]),
    together with the properties of the batch settlement specification. *)

From stdpp Require Import base numbers list strings gmap pretty.
From Stdlib Require Import ZArith Lia Ascii.
From Corelib Require Import PrimFloat SpecFloat FloatOps.

Local Open Scope string_scope.
Local Open Scope list_scope.
Local Open Scope Z_scope.

(** ** Machine integers and bytes *)

Definition address := Z.
Definition bytes := list Z.
Definition bytes32 := list Z.

Definition MAX_UINT256 : Z := 2 ^ 256 - 1.

(** Big-endian rendering of [v] on [n] bytes, as [abi.encodePacked] and the
    ABI head/tail encoding write integers and addresses. *)
Fixpoint be_bytes (n : nat) (v : Z) : bytes :=
  match n with
  | O => []
  | S k => be_bytes k (Z.shiftr v 8) ++ [Z.land v 255]
  end.

(** Little-endian rendering, the lane order of Keccak. *)
Fixpoint le_bytes (n : nat) (v : Z) : bytes :=
  match n with
  | O => []
  | S k => Z.land v 255 :: le_bytes k (Z.shiftr v 8)
  end.

Fixpoint le_value (bs : bytes) : Z :=
  match bs with
  | [] => 0
  | b :: r => Z.lor b (Z.shiftl (le_value r) 8)
  end.

Definition bytes_of_string (s : string) : bytes :=
  map (fun c => Z.of_nat (nat_of_ascii c)) (String.list_ascii_of_string s).

(** ** Keccak-256

    The hash behind [keccak256] in the contract and behind function
    selectors in the client: the permutation Keccak-f[1600] in a sponge of
    rate 136 bytes with the padding byte [0x01]. *)
Module Keccak.

Definition mask64 : Z := 2 ^ 64 - 1.

Definition rotl64 (w n : Z) : Z :=
  Z.lor (Z.land (Z.shiftl w n) mask64) (Z.shiftr w (64 - n)).

Definition lane (s : list Z) (x y : nat) : Z :=
  nth (x mod 5 + 5 * (y mod 5))%nat s 0.

Definition build (f : nat -> nat -> Z) : list Z :=
  map (fun i => f (i mod 5)%nat (i / 5)%nat) (seq 0 25).

Definition round_constants : list Z :=
  [ 0x0000000000000001; 0x0000000000008082; 0x800000000000808A;
    0x8000000080008000; 0x000000000000808B; 0x0000000080000001;
    0x8000000080008081; 0x8000000000008009; 0x000000000000008A;
    0x0000000000000088; 0x0000000080008009; 0x000000008000000A;
    0x000000008000808B; 0x800000000000008B; 0x8000000000008089;
    0x8000000000008003; 0x8000000000008002; 0x8000000000000080;
    0x000000000000800A; 0x800000008000000A; 0x8000000080008081;
    0x8000000000008080; 0x0000000080000001; 0x8000000080008008 ].

(** Rotation offsets, indexed like the lanes: position [x + 5 * y]. *)
Definition rotation_offsets : list Z :=
  [  0;  1; 62; 28; 27;
    36; 44;  6; 55; 20;
     3; 10; 43; 25; 39;
    41; 45; 15; 21;  8;
    18;  2; 61; 56; 14 ].

Definition theta (s : list Z) : list Z :=
  let c := map (fun x => fold_right Z.lxor 0 (map (lane s x) (seq 0 5))) (seq 0 5) in
  let d := map (fun x => Z.lxor (nth ((x + 4) mod 5)%nat c 0)
                                (rotl64 (nth ((x + 1) mod 5)%nat c 0) 1)) (seq 0 5) in
  build (fun x y => Z.lxor (lane s x y) (nth x d 0)).

Definition rho_pi (s : list Z) : list Z :=
  build (fun x y =>
    let x0 := ((x + 3 * y) mod 5)%nat in
    rotl64 (lane s x0 x) (lane rotation_offsets x0 x)).

Definition chi (s : list Z) : list Z :=
  build (fun x y =>
    Z.lxor (lane s x y)
           (Z.land (Z.lxor (lane s (x + 1) y) mask64) (lane s (x + 2) y))).

Definition iota (rc : Z) (s : list Z) : list Z :=
  match s with
  | [] => []
  | a :: r => Z.lxor a rc :: r
  end.

Definition round (s : list Z) (rc : Z) : list Z :=
  iota rc (chi (rho_pi (theta s))).

Definition keccak_f (s : list Z) : list Z :=
  fold_left round round_constants s.

Definition rate : nat := 136.

(** The [pad10*1] rule with Keccak's domain byte [0x01]. *)
Definition pad (msg : bytes) : bytes :=
  let q := (rate - length msg mod rate)%nat in
  if (q =? 1)%nat then msg ++ [0x81]
  else msg ++ [0x01] ++ repeat 0 (q - 2) ++ [0x80].

Fixpoint lanes_of (n : nat) (bs : bytes) : list Z :=
  match n with
  | O => []
  | S k => le_value (firstn 8 bs) :: lanes_of k (skipn 8 bs)
  end.

Fixpoint xor_lanes (s blk : list Z) : list Z :=
  match s, blk with
  | a :: s', b :: blk' => Z.lxor a b :: xor_lanes s' blk'
  | _, _ => s
  end.

Fixpoint absorb (nblocks : nat) (bs : bytes) (s : list Z) : list Z :=
  match nblocks with
  | O => s
  | S k =>
      absorb k (skipn rate bs) (keccak_f (xor_lanes s (lanes_of 17 (firstn rate bs))))
  end.

(** Modelled from the spec: the standard hash of section 6, of which a
    selector is the first four bytes; neither viem nor the EVM, which
    compute it, is part of the repository. *)
Definition keccak256 (msg : bytes) : bytes32 :=
  let p := pad msg in
  let s := absorb (length p / rate) p (repeat 0 25) in
  flat_map (le_bytes 8) (firstn 4 s).

End Keccak.

Definition hex_digit (d : Z) : ascii :=
  if d <? 10 then ascii_of_nat (Z.to_nat (48 + d)) else ascii_of_nat (Z.to_nat (87 + d)).

Fixpoint hex_of_bytes (bs : bytes) : string :=
  match bs with
  | [] => EmptyString
  | b :: r => String (hex_digit (Z.shiftr b 4)) (String (hex_digit (Z.land b 15)) (hex_of_bytes r))
  end.

(** ** Transactions: working state, revert and rollback *)

(** The custom errors declared by [BatchTransfer], the arithmetic panic of
    checked [uint256] arithmetic, and the two ways an external call can fail
    before it returns a value. *)
Inductive sol_error :=
  | ArraysLengthMismatch
  | ZeroAddress
  | ZeroAmount
  | TransferFailed
  | InsufficientAllowance
  | NotOwner
  | Panic (code : Z)
  | CalleeReverted
  | NoCode.

Inductive outcome (A : Type) :=
  | Success (a : A)
  | Reverted (e : sol_error).
Arguments Success {A} a.
Arguments Reverted {A} e.

Definition is_success {A} (o : outcome A) : bool :=
  match o with Success _ => true | Reverted _ => false end.

(** A contract body threads the working state; when it reverts, the state it
    had reached is still returned, so that the rollback of [transact] is an
    operation of its own. *)
Definition M (S A : Type) : Type := S -> outcome A * S.

Definition ret {S A} (a : A) : M S A := fun s => (Success a, s).
Definition revert {S A} (e : sol_error) : M S A := fun s => (Reverted e, s).
Definition bind {S A B} (m : M S A) (k : A -> M S B) : M S B :=
  fun s => match m s with
           | (Success a, s') => k a s'
           | (Reverted e, s') => (Reverted e, s')
           end.
Definition lift {S A} (o : outcome A) : M S A := fun s => (o, s).

Notation "'let!' x ':=' m 'in' k" := (bind m (fun x => k))
  (at level 10, x name, m at level 100, k at level 200).

(** One transaction: the body runs on the state; a revert discards every
    change the body made. *)
Definition transact {S A} (m : M S A) : M S A :=
  fun s => match m s with
           | (Success a, s') => (Success a, s')
           | (Reverted e, _) => (Reverted e, s)
           end.

(** ** The [IERC20] interface

    Each method takes the caller ([msg.sender] of the token call) first and
    runs on the token's own storage; [None] is a call that reverted. *)
Class IERC20 (L : Type) := {
  transfer : address -> address -> Z -> L -> option (bool * L);
  transferFrom : address -> address -> address -> Z -> L -> option (bool * L);
  balanceOf : address -> L -> option Z;
  allowance : address -> address -> L -> option Z;
}.

Inductive event :=
  | BatchTransferIndexed (batchId : bytes32) (token sender : address)
                         (totalAmount recipientCount : Z)
  | TransferIndexed (batchId : bytes32) (recipient : address) (amount : Z).

Record block := { timestamp : Z; number : Z }.

(** The contract instance: its address and the [immutable] owner. No
    function of the contract receives it as mutable state. *)
Record engine := { this : address; owner : address }.

Definition constructor (msg_sender self : address) : engine :=
  {| this := self; owner := msg_sender |}.

Section BatchTransfer.
Context {L : Type} `{Token : IERC20 L}.

(** The part of the chain the contract can touch: the storage of the token
    contracts, by address, and the event log. *)
Record chain := { tokens : gmap address L; logs : list event }.

Definition with_token (c : chain) (token : address) (l : L) : chain :=
  {| tokens := <[token := l]> (tokens c); logs := logs c |}.

Definition with_logs (c : chain) (evs : list event) : chain :=
  {| tokens := tokens c; logs := logs c ++ evs |}.

(** A call into the token at [token]: an address without code makes the
    call revert, a revert of the callee is passed on, and otherwise the
    callee's storage is replaced by the one it left. *)
Definition external_call {A} (token : address) (f : L -> option (A * L)) : M chain A :=
  fun c =>
    match tokens c !! token with
    | None => (Reverted NoCode, c)
    | Some l =>
        match f l with
        | None => (Reverted CalleeReverted, c)
        | Some (a, l') => (Success a, with_token c token l')
        end
    end.

Definition view {A} (f : L -> option A) : L -> option (A * L) :=
  fun l => match f l with Some a => Some (a, l) | None => None end.

Definition emit (e : event) : M chain unit :=
  fun c => (Success tt, with_logs c [e]).

(** [totalAmount += amounts[i]] in checked arithmetic. *)
Definition checked_add (a b : Z) : outcome Z :=
  if MAX_UINT256 <? a + b then Reverted (Panic 0x11) else Success (a + b).

(** The first loop of [batchSend]; both arrays have the same length when
    it runs. *)
Fixpoint total_loop (recipients : list address) (amounts : list Z) (totalAmount : Z)
  : outcome Z :=
  match recipients, amounts with
  | r :: recipients', a :: amounts' =>
      if r =? 0 then Reverted ZeroAddress
      else if a =? 0 then Reverted ZeroAmount
      else match checked_add totalAmount a with
           | Success t => total_loop recipients' amounts' t
           | Reverted e => Reverted e
           end
  | _, _ => Success totalAmount
  end.

Definition encodePacked_batch (b : block) (msg_sender token : address) (count : Z) : bytes :=
  be_bytes 32 (timestamp b) ++ be_bytes 20 msg_sender ++ be_bytes 20 token
    ++ be_bytes 32 count ++ be_bytes 32 (number b).

Definition make_batchId (b : block) (msg_sender token : address) (count : Z) : bytes32 :=
  Keccak.keccak256 (encodePacked_batch b msg_sender token count).

(** The second loop of [batchSend]. *)
Fixpoint distribute (self token : address) (batchId : bytes32)
    (recipients : list address) (amounts : list Z) : M chain unit :=
  match recipients, amounts with
  | r :: recipients', a :: amounts' =>
      let! ok := external_call token (transfer self r a) in
      if negb ok then revert TransferFailed
      else let! _ := emit (TransferIndexed batchId r a) in
           distribute self token batchId recipients' amounts'
  | _, _ => ret tt
  end.

Definition batchSend_body (e : engine) (b : block) (msg_sender token : address)
    (recipients : list address) (amounts : list Z) : M chain bytes32 :=
  if negb (length recipients =? length amounts)%nat then revert ArraysLengthMismatch
  else if (length recipients =? 0)%nat then revert ZeroAmount
  else
    let! totalAmount := lift (total_loop recipients amounts 0) in
    let batchId := make_batchId b msg_sender token (Z.of_nat (length recipients)) in
    let! allowed := external_call token (view (allowance msg_sender (this e))) in
    if allowed <? totalAmount then revert InsufficientAllowance
    else
      let! ok := external_call token (transferFrom (this e) msg_sender (this e) totalAmount) in
      if negb ok then revert TransferFailed
      else
        let! _ := distribute (this e) token batchId recipients amounts in
        let! _ := emit (BatchTransferIndexed batchId token msg_sender totalAmount
                       (Z.of_nat (length recipients))) in
        ret batchId.

Definition batchSend (e : engine) (b : block) (msg_sender token : address)
    (recipients : list address) (amounts : list Z) : M chain bytes32 :=
  transact (batchSend_body e b msg_sender token recipients amounts).

(** [estimateGas]: [50000 + (recipientCount * 35000)] in checked
    arithmetic. *)
Definition checked_mul (a b : Z) : outcome Z :=
  if MAX_UINT256 <? a * b then Reverted (Panic 0x11) else Success (a * b).

Definition estimateGas (recipientCount : Z) : outcome Z :=
  match checked_mul recipientCount 35000 with
  | Success p => checked_add 50000 p
  | Reverted e => Reverted e
  end.

Definition getBatchStatus (batchId : bytes32) : M chain bool :=
  transact (ret true).

Definition MAX_RECIPIENTS : Z := 200.

Definition VERSION : string := "1.0.0".

(** [emergencyWithdraw]: the value returned by [transfer] is dropped. *)
Definition emergencyWithdraw_body (e : engine) (msg_sender token : address) (amount : Z)
  : M chain unit :=
  if negb (msg_sender =? owner e) then revert NotOwner
  else
    let! _ok := external_call token (transfer (this e) msg_sender amount) in
    ret tt.

Definition emergencyWithdraw (e : engine) (msg_sender token : address) (amount : Z)
  : M chain unit :=
  transact (emergencyWithdraw_body e msg_sender token amount).

(** *** The ways a [batchSend] can fail

    [validated] is the outcome of the checks and of the first loop;
    [disburse_failure] says that, starting from token storage [l], some
    disbursement of the second loop fails, after the ones before it
    succeeded; [batch_failure] lists every step at which an invocation on
    chain state [c] stops, with the error it stops with. *)

Definition validated (recipients : list address) (amounts : list Z) (total : Z) : Prop :=
  length recipients = length amounts /\ recipients <> [] /\
  total_loop recipients amounts 0 = Success total.

Inductive disburse_failure (self : address)
  : list address -> list Z -> L -> sol_error -> Prop :=
  | disburse_refused r a recipients amounts l l' :
      transfer self r a l = Some (false, l') ->
      disburse_failure self (r :: recipients) (a :: amounts) l TransferFailed
  | disburse_reverted r a recipients amounts l :
      transfer self r a l = None ->
      disburse_failure self (r :: recipients) (a :: amounts) l CalleeReverted
  | disburse_later r a recipients amounts l l' err :
      transfer self r a l = Some (true, l') ->
      disburse_failure self recipients amounts l' err ->
      disburse_failure self (r :: recipients) (a :: amounts) l err.

Inductive batch_failure (e : engine) (sender token : address)
    (recipients : list address) (amounts : list Z) (c : chain) : sol_error -> Prop :=
  | fail_arity :
      length recipients <> length amounts ->
      batch_failure e sender token recipients amounts c ArraysLengthMismatch
  | fail_empty :
      recipients = [] -> amounts = [] ->
      batch_failure e sender token recipients amounts c ZeroAmount
  | fail_validation err :
      length recipients = length amounts -> recipients <> [] ->
      total_loop recipients amounts 0 = Reverted err ->
      batch_failure e sender token recipients amounts c err
  | fail_no_code total :
      validated recipients amounts total ->
      tokens c !! token = None ->
      batch_failure e sender token recipients amounts c NoCode
  | fail_allowance_call total l :
      validated recipients amounts total ->
      tokens c !! token = Some l ->
      allowance sender (this e) l = None ->
      batch_failure e sender token recipients amounts c CalleeReverted
  | fail_allowance total l allowed :
      validated recipients amounts total ->
      tokens c !! token = Some l ->
      allowance sender (this e) l = Some allowed ->
      allowed < total ->
      batch_failure e sender token recipients amounts c InsufficientAllowance
  | fail_collect_refused total l allowed l1 :
      validated recipients amounts total ->
      tokens c !! token = Some l ->
      allowance sender (this e) l = Some allowed ->
      total <= allowed ->
      transferFrom (this e) sender (this e) total l = Some (false, l1) ->
      batch_failure e sender token recipients amounts c TransferFailed
  | fail_collect_reverted total l allowed :
      validated recipients amounts total ->
      tokens c !! token = Some l ->
      allowance sender (this e) l = Some allowed ->
      total <= allowed ->
      transferFrom (this e) sender (this e) total l = None ->
      batch_failure e sender token recipients amounts c CalleeReverted
  | fail_disburse total l allowed l1 err :
      validated recipients amounts total ->
      tokens c !! token = Some l ->
      allowance sender (this e) l = Some allowed ->
      total <= allowed ->
      transferFrom (this e) sender (this e) total l = Some (true, l1) ->
      disburse_failure (this e) recipients amounts l1 err ->
      batch_failure e sender token recipients amounts c err.

End BatchTransfer.

Arguments chain L : clear implicits.

(** ** A reference token ledger *)

Module Ledger.

(** Modelled from the spec: the funding token, an upstream dependency with
    the standard balance / allowance / transfer / transferFrom interface
    (section 6) of which only the interface is in the repository. The ledger
    is the plain bookkeeping behind that interface: balances, allowances and
    a blocklist. An operation it refuses either reverts ([strict = true]) or
    returns [false] and changes nothing ([strict = false]); deployed tokens
    do one or the other, and [batchSend] tests the returned flag for that
    reason. *)
Record t := {
  balances : gmap address Z;
  allowances : gmap (address * address) Z;
  blocked : gset address;
  strict : bool;
}.

Definition balance (l : t) (a : address) : Z := default 0 (balances l !! a).
Definition allowed (l : t) (holder spender : address) : Z :=
  default 0 (allowances l !! (holder, spender)).

Definition fail (l : t) : option (bool * t) :=
  if strict l then None else Some (false, l).

Definition can_move (l : t) (from to : address) (amount : Z) : bool :=
  negb (bool_decide (from ∈ blocked l)) && negb (bool_decide (to ∈ blocked l))
  && (amount <=? balance l from)
  && (balance l to + amount <=? MAX_UINT256).

(** Debit first, then credit: a transfer to oneself leaves the balance as
    it was. *)
Definition move (l : t) (from to : address) (amount : Z) : gmap address Z :=
  let b1 := <[from := balance l from - amount]> (balances l) in
  <[to := default 0 (b1 !! to) + amount]> b1.

Definition do_transfer (caller to : address) (amount : Z) (l : t) : option (bool * t) :=
  if can_move l caller to amount then
    Some (true, {| balances := move l caller to amount; allowances := allowances l;
                   blocked := blocked l; strict := strict l |})
  else fail l.

Definition do_transferFrom (caller from to : address) (amount : Z) (l : t)
  : option (bool * t) :=
  if can_move l from to amount && (amount <=? allowed l from caller) then
    Some (true, {| balances := move l from to amount;
                   allowances := <[(from, caller) := allowed l from caller - amount]> (allowances l);
                   blocked := blocked l; strict := strict l |})
  else fail l.

#[global] Instance token : IERC20 t := {|
  transfer := do_transfer;
  transferFrom := do_transferFrom;
  balanceOf := fun a l => Some (balance l a);
  allowance := fun holder spender l => Some (allowed l holder spender);
|}.

End Ledger.

(** Balance of [a] in the token at address [token]; an address without a
    token contract holds nothing. *)
Definition balance_in (c : chain Ledger.t) (token a : address) : Z :=
  match tokens c !! token with
  | Some l => Ledger.balance l a
  | None => 0
  end.

Definition sum_list (l : list Z) : Z := fold_right Z.add 0 l.

(** What the batch credits to [a]: the amounts at the positions where [a] is
    the recipient. *)
Fixpoint credited (a : address) (recipients : list address) (amounts : list Z) : Z :=
  match recipients, amounts with
  | r :: recipients', x :: amounts' =>
      (if r =? a then x else 0) + credited a recipients' amounts'
  | _, _ => 0
  end.

(** ** The client library [batch-contract.ts] *)

(** A JavaScript call either returns or throws an [Error] with a message. *)
Inductive js_result (A : Type) :=
  | Returned (a : A)
  | Thrown (message : string).
Arguments Returned {A} a.
Arguments Thrown {A} message.

Definition ZERO_ADDRESS : string := "0x0000000000000000000000000000000000000000".

(** *** [validateBatchTransfer] *)

Inductive ValidationError :=
  | EmptyBatch
  | ArityMismatch
  | TooManyRecipients
  | InvalidRecipient (i : nat)
  | InvalidAmount (i : nat).

Definition error_message (e : ValidationError) : string :=
  match e with
  | EmptyBatch => "At least one recipient is required"
  | ArityMismatch => "Recipients and amounts must have the same length"
  | TooManyRecipients => "Maximum 200 recipients per batch"
  | InvalidRecipient i => "Invalid recipient address at index " +:+ pretty i
  | InvalidAmount i => "Invalid amount at index " +:+ pretty i
  end.

(** [!recipients[i] || recipients[i] === "0x00...00"]: the empty string is
    the only falsy string. *)
Definition bad_recipient (r : string) : bool :=
  String.eqb r "" || String.eqb r ZERO_ADDRESS.

(** [amounts[i] <= BigInt(0)] *)
Definition bad_amount (a : Z) : bool := a <=? 0.

(** The loop of [validateBatchTransfer], from index [i] on. It runs only on
    arrays of equal length; a missing [amounts[i]] would be [undefined],
    which compares false with [0n]. *)
Fixpoint check_entries (i : nat) (recipients : list string) (amounts : list Z)
  : option ValidationError :=
  match recipients with
  | [] => None
  | r :: recipients' =>
      if bad_recipient r then Some (InvalidRecipient i)
      else match amounts with
           | a :: amounts' =>
               if bad_amount a then Some (InvalidAmount i)
               else check_entries (S i) recipients' amounts'
           | [] => check_entries (S i) recipients' []
           end
  end.

Definition check_batch (recipients : list string) (amounts : list Z)
  : option ValidationError :=
  if (length recipients =? 0)%nat then Some EmptyBatch
  else if negb (length recipients =? length amounts)%nat then Some ArityMismatch
  else if (200 <? length recipients)%nat then Some TooManyRecipients
  else check_entries 0 recipients amounts.

Record ValidationResult := { valid : bool; error : option string }.

(** The object returned for a verdict: [{ valid: true }], or
    [{ valid: false, error }] with the message of the failed check. *)
Definition verdict (v : option ValidationError) : ValidationResult :=
  match v with
  | Some e => {| valid := false; error := Some (error_message e) |}
  | None => {| valid := true; error := None |}
  end.

Definition validateBatchTransfer (recipients : list string) (amounts : list Z)
  : ValidationResult :=
  verdict (check_batch recipients amounts).

(** Entry [j] of a batch has no defect. *)
Definition entry_ok (recipients : list string) (amounts : list Z) (j : nat) : Prop :=
  forall r a, recipients !! j = Some r -> amounts !! j = Some a ->
              bad_recipient r = false /\ bad_amount a = false.

(** The validator as the specification words it: arity, emptiness, size,
    then every recipient, then every amount. *)
Fixpoint first_index {A} (bad : A -> bool) (i : nat) (l : list A) : option nat :=
  match l with
  | [] => None
  | x :: l' => if bad x then Some i else first_index bad (S i) l'
  end.

Definition validate_spec (recipients : list string) (amounts : list Z)
  : option ValidationError :=
  if negb (length recipients =? length amounts)%nat then Some ArityMismatch
  else if (length recipients <? 1)%nat then Some EmptyBatch
  else if (200 <? length recipients)%nat then Some TooManyRecipients
  else match first_index bad_recipient 0 recipients with
       | Some i => Some (InvalidRecipient i)
       | None =>
           match first_index bad_amount 0 amounts with
           | Some i => Some (InvalidAmount i)
           | None => None
           end
       end.

(** *** [calculateTotalAmount] and [estimateBatchGas] *)

Definition calculateTotalAmount (amounts : list Z) : Z :=
  fold_left (fun sum amount => sum + amount) amounts 0.

(** [recipientCount] is a count: an integer [number]. On integers up to
    [MAX_SAFE_INTEGER] the arithmetic of [number] is that of the integers. *)
Definition MAX_SAFE_INTEGER : Z := 2 ^ 53 - 1.

Definition estimateBatchGas (recipientCount : Z) : Z :=
  50000 + recipientCount * 35000.

(** *** [getBatchTransferCalldata] *)

(** An address is [0x] and forty hex digits. *)
Definition hex_value (c : ascii) : option Z :=
  let n := Z.of_nat (nat_of_ascii c) in
  if (48 <=? n) && (n <=? 57) then Some (n - 48)
  else if (97 <=? n) && (n <=? 102) then Some (n - 87)
  else if (65 <=? n) && (n <=? 70) then Some (n - 55)
  else None.

Fixpoint hex_number (acc : Z) (s : string) : option Z :=
  match s with
  | EmptyString => Some acc
  | String c r =>
      match hex_value c with
      | Some d => hex_number (16 * acc + d) r
      | None => None
      end
  end.

Definition parse_address (s : string) : option Z :=
  match s with
  | String "0" (String "x" digits) =>
      if (String.length digits =? 40)%nat then hex_number 0 digits else None
  | _ => None
  end.

Definition batchSend_signature : string := "batchSend(address,address[],uint256[])".

(** Modelled from the spec: the selector is the first four bytes of the
    standard hash of the canonical signature string (section 6); viem's
    [toFunctionSelector] is not in the repository. *)
Definition toFunctionSelector (signature : string) : bytes :=
  firstn 4 (Keccak.keccak256 (bytes_of_string signature)).

Definition encode_address (a : string) : js_result bytes :=
  match parse_address a with
  | Some v => Returned (be_bytes 32 v)
  | None => Thrown "InvalidAddressError"
  end.

Definition encode_uint256 (v : Z) : js_result bytes :=
  if (0 <=? v) && (v <=? MAX_UINT256) then Returned (be_bytes 32 v)
  else Thrown "IntegerOutOfRangeError".

Fixpoint encode_all {A} (enc : A -> js_result bytes) (l : list A) : js_result bytes :=
  match l with
  | [] => Returned []
  | x :: l' =>
      match enc x with
      | Thrown m => Thrown m
      | Returned w =>
          match encode_all enc l' with
          | Thrown m => Thrown m
          | Returned ws => Returned (w ++ ws)
          end
      end
  end.

(** Modelled from the spec: viem's [encodeFunctionData], applied to the
    signature given to [parseAbi]; neither is in the repository. Following
    section 4.2, the output is the selector, then the positional encoding of
    (token, recipients, amounts) in big-endian words of 32 bytes: the token,
    the offsets of the two arrays, and each array as its length followed by
    its elements. An ill-formed address and an amount outside [uint256] are
    refused. *)
Definition encodeFunctionData_batchSend (token : string) (recipients : list string)
    (amounts : list Z) : js_result bytes :=
  match encode_address token with
  | Thrown m => Thrown m
  | Returned t =>
      match encode_all encode_address recipients with
      | Thrown m => Thrown m
      | Returned rs =>
          match encode_all encode_uint256 amounts with
          | Thrown m => Thrown m
          | Returned xs =>
              let n := Z.of_nat (length recipients) in
              Returned (toFunctionSelector batchSend_signature
                          ++ t ++ be_bytes 32 96 ++ be_bytes 32 (96 + 32 * (1 + n))
                          ++ be_bytes 32 n ++ rs
                          ++ be_bytes 32 (Z.of_nat (length amounts)) ++ xs)
          end
      end
  end.

Definition calldata_bytes (token : string) (recipients : list string) (amounts : list Z)
  : js_result bytes :=
  if negb (length recipients =? length amounts)%nat
  then Thrown "Recipients and amounts arrays must have the same length"
  else encodeFunctionData_batchSend token recipients amounts.

Definition getBatchTransferCalldata (token : string) (recipients : list string)
    (amounts : list Z) : js_result string :=
  match calldata_bytes token recipients amounts with
  | Returned bs => Returned ("0x" +:+ hex_of_bytes bs)
  | Thrown m => Thrown m
  end.

(** *** [executeBatchTransfer] *)

(** What the function reads from its surroundings: the configured network
    and token ([getChainId], [getUSDCAddress]), the clock ([Date.now()]) and
    the digits drawn by [Math.random().toString(16).slice(2, 66)]. *)
Record host := {
  chainId : Z;
  usdcAddress : string;
  now : Z;
  random_digits : string;
}.

Definition BATCH_CONTRACT_ADDRESSES : gmap Z string :=
  {[ 84532 := "0xca60bFd1D0eAfDf051885221ec4DF0510ceee944" ]}.

Definition getBatchContractAddress (h : host) : string :=
  default "" (BATCH_CONTRACT_ADDRESSES !! chainId h).

Definition isBatchContractDeployed (h : host) : bool :=
  let a := getBatchContractAddress h in
  negb (String.eqb a "") && negb (String.eqb a ZERO_ADDRESS).

(** [BigInt(Math.floor(a * 1_000_000))] on a binary64 [number]: [BigInt]
    throws a [RangeError] on [NaN] and on the infinities. *)
Definition floor_float (f : float) : option Z :=
  match Prim2SF f with
  | S754_zero _ => Some 0
  | S754_finite s m e =>
      let v := if s then Z.neg m else Z.pos m in
      Some (match e with
            | Z0 => v
            | Zpos p => v * 2 ^ Zpos p
            | Zneg p => v / 2 ^ Zpos p
            end)
  | S754_infinity _ => None
  | S754_nan => None
  end.

Definition to_units (a : float) : js_result Z :=
  match floor_float (PrimFloat.mul a 1000000%float) with
  | Some v => Returned v
  | None => Thrown "The number cannot be converted to a BigInt because it is not an integer"
  end.

Fixpoint to_units_all (l : list float) : js_result (list Z) :=
  match l with
  | [] => Returned []
  | a :: l' =>
      match to_units a with
      | Thrown m => Thrown m
      | Returned v =>
          match to_units_all l' with
          | Thrown m => Thrown m
          | Returned vs => Returned (v :: vs)
          end
      end
  end.

Record SendRequest := { to : string; data : string }.

Record Recipient := { id : string; name : string; walletAddress : string }.

(** The host client, as far as [executeBatchTransfer] looks at it: the three
    submission methods it probes for, each present or not. [contract.send]
    resolves to the hash itself, the other two to an object whose [hash]
    may be missing. *)
Record XellarClient := {
  contract_send : option (SendRequest -> js_result string);
  wallet_sendTransaction : option (SendRequest -> js_result (option string));
  account_send : option (SendRequest -> js_result (option string));
}.

Module BatchTransferResult.
Record t := {
  batchId : string;
  txHash : string;
  totalAmount : string;
  recipientCount : Z;
  success : bool;
  error : option string;
}.
End BatchTransferResult.

Definition failed (message : option string) : BatchTransferResult.t :=
  {| BatchTransferResult.batchId := "";
     BatchTransferResult.txHash := "";
     BatchTransferResult.totalAmount := "0";
     BatchTransferResult.recipientCount := 0;
     BatchTransferResult.success := false;
     BatchTransferResult.error := message |}.

(** The last statements of the [try] block, once a hash came back. *)
Definition submitted (h : host) (recipients : list Recipient) (total : Z) (hash : string)
  : BatchTransferResult.t :=
  {| BatchTransferResult.batchId :=
       if String.eqb hash "" then "0x" +:+ hex_of_bytes (bytes_of_string (pretty (now h)))
       else hash;
     BatchTransferResult.txHash := hash;
     BatchTransferResult.totalAmount := pretty total;
     BatchTransferResult.recipientCount := Z.of_nat (length recipients);
     BatchTransferResult.success := true;
     BatchTransferResult.error := None |}.

(** The [else] branch taken when no submission method is found. *)
Definition mock_result (h : host) (recipients : list Recipient) (total : Z)
  : BatchTransferResult.t :=
  {| BatchTransferResult.batchId := "batch_" +:+ pretty (now h);
     BatchTransferResult.txHash := "0x" +:+ random_digits h;
     BatchTransferResult.totalAmount := pretty total;
     BatchTransferResult.recipientCount := Z.of_nat (length recipients);
     BatchTransferResult.success := true;
     BatchTransferResult.error := Some "SDK method not found - mock transaction" |}.

Definition dispatch (h : host) (xellarClient : XellarClient) (request : SendRequest)
    (recipients : list Recipient) (total : Z) : js_result BatchTransferResult.t :=
  match contract_send xellarClient with
  | Some send =>
      match send request with
      | Thrown m => Thrown m
      | Returned hash => Returned (submitted h recipients total hash)
      end
  | None =>
      match wallet_sendTransaction xellarClient with
      | Some sendTransaction =>
          match sendTransaction request with
          | Thrown m => Thrown m
          | Returned result => Returned (submitted h recipients total (default "" result))
          end
      | None =>
          match account_send xellarClient with
          | Some send =>
              match send request with
              | Thrown m => Thrown m
              | Returned result => Returned (submitted h recipients total (default "" result))
              end
          | None => Returned (mock_result h recipients total)
          end
      end
  end.

(** The body of the [try] block. *)
Definition executeBatchTransfer_try (h : host) (xellarClient : XellarClient)
    (recipients : list Recipient) (amounts : list float)
  : js_result BatchTransferResult.t :=
  let contractAddress := getBatchContractAddress h in
  if negb (isBatchContractDeployed h)
  then Returned (failed (Some "Batch contract not deployed on current network"))
  else
    match to_units_all amounts with
    | Thrown m => Thrown m
    | Returned amountsBigInt =>
        let recipientAddresses := map walletAddress recipients in
        let validation := validateBatchTransfer recipientAddresses amountsBigInt in
        if negb (valid validation) then Returned (failed (error validation))
        else
          let total := calculateTotalAmount amountsBigInt in
          match getBatchTransferCalldata (usdcAddress h) recipientAddresses amountsBigInt with
          | Thrown m => Thrown m
          | Returned callData =>
              dispatch h xellarClient {| to := contractAddress; data := callData |}
                recipients total
          end
    end.

(** The [catch] block: [error?.message || "Batch transfer failed"]. *)
Definition executeBatchTransfer (h : host) (xellarClient : XellarClient)
    (recipients : list Recipient) (amounts : list float) : BatchTransferResult.t :=
  match executeBatchTransfer_try h xellarClient recipients amounts with
  | Returned r => r
  | Thrown m => failed (Some (if String.eqb m "" then "Batch transfer failed" else m))
  end.

(** ** A concrete setting

    One engine, one token and a few identities, used where a property is
    evaluated on an explicit input. *)
Module Scenario.

Definition deployer : address := 0xD0.
Definition holding : address := 0xE0.
Definition alice : address := 0xA1.
Definition bob : address := 0xB0.
Definition carol : address := 0xC0.
Definition dave : address := 0xDA.
Definition usdc : address := 0x100.

Definition the_engine : engine := constructor deployer holding.

Definition the_block : block := {| timestamp := 1700000000; number := 123 |}.

(** Alice holds 10 USDC and lets the engine spend 5 of them; Dave is on the
    token's blocklist. *)
Definition ledger0 (strict : bool) : Ledger.t :=
  {| Ledger.balances := {[ alice := 10000000 ]};
     Ledger.allowances := {[ (alice, holding) := 5000000 ]};
     Ledger.blocked := {[ dave ]};
     Ledger.strict := strict |}.

Definition chain0 (strict : bool) : chain Ledger.t :=
  {| tokens := {[ usdc := ledger0 strict ]}; logs := [] |}.

Definition batch_id (o : outcome bytes32) : bytes32 :=
  match o with Success a => a | Reverted _ => [] end.

Definition run_a : outcome bytes32 * chain Ledger.t :=
  batchSend the_engine the_block alice usdc [bob; carol] [1000000; 2000000] (chain0 true).

Definition run_b : outcome bytes32 * chain Ledger.t :=
  batchSend the_engine the_block alice usdc [carol; alice] [5; 7] (chain0 false).

End Scenario.

(** The client side of the setting: Base Sepolia, a client object without
    any of the three submission methods, and the input of the repository's
    encoding test. *)
Module ClientScenario.

Definition base_sepolia : host :=
  {| chainId := 84532;
     usdcAddress := "0x036CbD53842c5426634e7929541eC2318f3dCF7e";
     now := 1700000000000;
     random_digits := "8c3f1a2b4d5e6" |}.

Definition empty_client : XellarClient :=
  {| contract_send := None; wallet_sendTransaction := None; account_send := None |}.

Definition one_recipient : list Recipient :=
  [ {| id := "r1"; name := "Ani";
       walletAddress := "0x8ba1f109551bD432803012645Ac136ddd64DBA72" |} ].

Definition test_token : string := "0xaaaaaaaaaaaaaaaaaaaaaaaaaaaaaaaaaaaaaaaa".
Definition test_recipients : list string :=
  [ "0xbbbbbbbbbbbbbbbbbbbbbbbbbbbbbbbbbbbbbbbb";
    "0xcccccccccccccccccccccccccccccccccccccccc" ].
Definition test_amounts : list Z := [1000000; 2000000].

End ClientScenario.

(** A batch of 201 distinct recipients, 0.001 USDC each, and two ledgers of
    a token that answers [false] when it refuses a transfer: one on which
    the engine holds 7 units and the deployer is blocklisted, one on which
    the engine holds 3 units. *)
Module LargeBatch.

Definition recipients : list address :=
  map (fun i => 0x1000 + Z.of_nat i) (seq 0 201).

Definition amounts : list Z := repeat 1000 201.

Definition run : outcome bytes32 * chain Ledger.t :=
  batchSend Scenario.the_engine Scenario.the_block Scenario.alice Scenario.usdc
    recipients amounts (Scenario.chain0 true).

End LargeBatch.

Module Recovery.

Definition owner_blocked : chain Ledger.t :=
  {| tokens := {[ Scenario.usdc :=
       {| Ledger.balances := {[ Scenario.holding := 7 ]};
          Ledger.allowances := ∅;
          Ledger.blocked := {[ Scenario.deployer ]};
          Ledger.strict := false |} ]};
     logs := [] |}.

Definition short_holding : chain Ledger.t :=
  {| tokens := {[ Scenario.usdc :=
       {| Ledger.balances := {[ Scenario.holding := 3 ]};
          Ledger.allowances := ∅;
          Ledger.blocked := ∅;
          Ledger.strict := false |} ]};
     logs := [] |}.

End Recovery.

(** ** Observations on a chain state *)

(** Allowance that [holder] gives [spender] in the token at [token]. *)
Definition allowed_in (c : chain Ledger.t) (token holder spender : address) : Z :=
  match tokens c !! token with
  | Some l => Ledger.allowed l holder spender
  | None => 0
  end.

(** The [TransferIndexed] events of a batch, in the order of the arrays. *)
Definition transfer_events (batchId : bytes32) (recipients : list address)
    (amounts : list Z) : list event :=
  zip_with (TransferIndexed batchId) recipients amounts.

(** A token that reverts when it refuses, on which 7 units were sent to the
    engine by mistake. *)
Module StrayTokens.

Definition ledger7 : Ledger.t :=
  {| Ledger.balances := {[ Scenario.holding := 7 ]};
     Ledger.allowances := ∅;
     Ledger.blocked := ∅;
     Ledger.strict := true |}.

Definition chain7 : chain Ledger.t :=
  {| tokens := {[ Scenario.usdc := ledger7 ]}; logs := [] |}.

Definition recovered : outcome unit * chain Ledger.t :=
  emergencyWithdraw Scenario.the_engine Scenario.deployer Scenario.usdc 5 chain7.

End StrayTokens.

(** *** [recipientsToBatchFormat] *)

Record BatchItem := { recipientId : string; amount : float }.

Definition missing_wallet (recipientId : string) : string :=
  "No wallet address found for recipient " +:+ recipientId.

(** The loop of [recipientsToBatchFormat]: the items are taken in order, and
    the first one without a wallet address ([Map.get] answers [undefined],
    or the address is the empty string) or with an amount [BigInt] refuses
    ends the call with an exception. *)
Fixpoint recipientsToBatchFormat (recipientsWithAmounts : list BatchItem)
    (recipientAddresses : gmap string string) : js_result (list string * list Z) :=
  match recipientsWithAmounts with
  | [] => Returned ([], [])
  | item :: rest =>
      match recipientAddresses !! recipientId item with
      | None => Thrown (missing_wallet (recipientId item))
      | Some walletAddress =>
          if String.eqb walletAddress "" then Thrown (missing_wallet (recipientId item))
          else
            match to_units (amount item) with
            | Thrown m => Thrown m
            | Returned units =>
                match recipientsToBatchFormat rest recipientAddresses with
                | Thrown m => Thrown m
                | Returned (addresses, amounts) =>
                    Returned (walletAddress :: addresses, units :: amounts)
                end
            end
      end
  end.

(** An address book and two items for it. *)
Module AddressBook.

Definition book : gmap string string :=
  {[ "recv_1" := "0x8ba1f109551bD432803012645Ac136ddd64DBA72";
     "recv_2" := "0xbbbbbbbbbbbbbbbbbbbbbbbbbbbbbbbbbbbbbbbb" ]}.

Definition known : list BatchItem :=
  [ {| recipientId := "recv_2"; amount := 2.5%float |};
    {| recipientId := "recv_1"; amount := 1%float |} ].

Definition with_unknown : list BatchItem :=
  [ {| recipientId := "recv_2"; amount := 2.5%float |};
    {| recipientId := "recv_9"; amount := 1%float |};
    {| recipientId := "recv_1"; amount := 1%float |} ].

End AddressBook.

(** Three host clients: one whose [contract.send] answers a hash, one whose
    only method, [wallet.sendTransaction], throws, and one whose
    [account.send] answers an object without a hash. *)
Module Transports.

Definition answering : XellarClient :=
  {| contract_send :=
       Some (fun _ => Returned "0x5c504ed432cb51138bcf09aa5e8a410dd4a1e204ef84bfed1be16dfba1b22060");
     wallet_sendTransaction := None;
     account_send := None |}.

Definition throwing : XellarClient :=
  {| contract_send := None;
     wallet_sendTransaction := Some (fun _ => Thrown "insufficient funds for gas");
     account_send := None |}.

Definition silent : XellarClient :=
  {| contract_send := None;
     wallet_sendTransaction := None;
     account_send := Some (fun _ => Returned None) |}.

End Transports.

(** ** The contract service [contract-service.ts] *)

(** The string methods the service uses, on ASCII strings. *)
Definition lower_char (c : ascii) : ascii :=
  let n := nat_of_ascii c in
  if (65 <=? n)%nat && (n <=? 90)%nat then ascii_of_nat (n + 32) else c.

Fixpoint toLowerCase (s : string) : string :=
  match s with
  | EmptyString => EmptyString
  | String c r => String (lower_char c) (toLowerCase r)
  end.

(** [s.slice(k)] *)
Fixpoint slice (k : nat) (s : string) : string :=
  match k, s with
  | O, _ => s
  | S k', String _ r => slice k' r
  | S _, EmptyString => EmptyString
  end.

Fixpoint zeros (n : nat) : string :=
  match n with
  | O => EmptyString
  | S k => String "0" (zeros k)
  end.

(** [s.padStart(n, "0")] *)
Definition padStart (n : nat) (s : string) : string :=
  zeros (n - String.length s) +:+ s.

(** The hex digits of a non-negative [bigint], most significant first and
    without leading zeros; [fuel] bounds the number of digits. *)
Fixpoint hex_digits (fuel : nat) (n : Z) : string :=
  match fuel with
  | O => EmptyString
  | S f =>
      if n <? 16 then String (hex_digit n) EmptyString
      else hex_digits f (n / 16) +:+ String (hex_digit (n mod 16)) EmptyString
  end.

(** [n.toString(16)] on a [bigint] *)
Definition toString16 (n : Z) : string :=
  if n <? 0 then "-" +:+ hex_digits (S (Z.to_nat (Z.log2 (- n)))) (- n)
  else hex_digits (S (Z.to_nat (Z.log2 n))) n.

Module ContractService.

Record ContractCallParams := { to : string; data : string; value : option Z }.

Record ContractCallResult := {
  success : bool;
  txHash : option string;
  error : option string;
  receipt : option string;
}.

(** The object handed to the SDK: [value] is [params.value || 0n]. *)
Record SdkRequest := { sdk_to : string; sdk_data : string; sdk_value : Z }.

(** The SDK client, as far as the service looks at it. *)
Record Client := {
  contract_send : option (SdkRequest -> js_result string);
  wallet_sendTransaction : option (SdkRequest -> js_result (option string));
  account_send : option (SdkRequest -> js_result (option string));
}.

Definition request_of (params : ContractCallParams) : SdkRequest :=
  {| sdk_to := to params;
     sdk_data := data params;
     sdk_value := default 0 (value params) |}.

Definition succeeded (hash : option string) : ContractCallResult :=
  {| success := true; txHash := hash; error := None; receipt := None |}.

Definition failure (message : string) : ContractCallResult :=
  {| success := false; txHash := None; error := Some message; receipt := None |}.

(** The [try] block of [executeContractCall]. *)
Definition executeContractCall_try (client : Client) (params : ContractCallParams)
  : js_result ContractCallResult :=
  match contract_send client with
  | Some send =>
      match send (request_of params) with
      | Thrown m => Thrown m
      | Returned hash => Returned (succeeded (Some hash))
      end
  | None =>
      match wallet_sendTransaction client with
      | Some sendTransaction =>
          match sendTransaction (request_of params) with
          | Thrown m => Thrown m
          | Returned result => Returned (succeeded result)
          end
      | None =>
          match account_send client with
          | Some send =>
              match send (request_of params) with
              | Thrown m => Thrown m
              | Returned result => Returned (succeeded result)
              end
          | None => Returned (failure "No contract interaction method found in Xellar SDK")
          end
      end
  end.

Definition executeContractCall (client : Client) (params : ContractCallParams)
  : ContractCallResult :=
  match executeContractCall_try client params with
  | Returned r => r
  | Thrown m => failure (if String.eqb m "" then "Contract call failed" else m)
  end.

Definition encodeApprove (spender : string) (amount : Z) : string :=
  let addressPadded := padStart 64 (slice 2 (toLowerCase spender)) in
  let amountPadded := padStart 64 (toString16 amount) in
  "0x095ea7b3" +:+ addressPadded +:+ amountPadded.

Definition encodeAllowance (owner spender : string) : string :=
  let ownerPadded := padStart 64 (slice 2 (toLowerCase owner)) in
  let spenderPadded := padStart 64 (slice 2 (toLowerCase spender)) in
  "0xdd62ed3e" +:+ ownerPadded +:+ spenderPadded.


(** [checkAllowance]: the call is made, and both branches on its result
    return [0n]. *)
Definition checkAllowance (h : host) (client : Client) (owner : string) : Z :=
  let usdcAddress := usdcAddress h in
  let batchContractAddress := getBatchContractAddress h in
  let allowanceCalldata := encodeAllowance owner batchContractAddress in
  let result :=
    executeContractCall client {| to := usdcAddress; data := allowanceCalldata; value := None |} in
  if success result && bool_decide (is_Some (receipt result)) then 0 else 0.

End ContractService.

(** [k] hex digits of [n], most significant first: the low [4 * k] bits. *)
Fixpoint nibbles (k : nat) (n : Z) : string :=
  match k with
  | O => EmptyString
  | S j => nibbles j (n / 16) +:+ String (hex_digit (n mod 16)) EmptyString
  end.


(** * The recipient store (recipient-store.ts) *)

Module RecipientStore.

Inductive AccountType := bank | ewallet.

Record Recipient := {
  id : string;
  name : string;
  nickname : option string;
  phone : option string;
  email : option string;
  bankName : string;
  bankCode : string;
  accountNumber : string;
  accountType : AccountType;
  country : string;
  currency : string;
  walletAddress : option string;
  isFavorite : bool;
  lastUsed : option string;
  createdAt : string;
}.

(** The data part of [RecipientState]; the actions below are its methods,
    each one the state update handed to [set]. *)
Record RecipientState := {
  recipients : list Recipient;
  selectedRecipient : option Recipient;
  selectedRecipients : list Recipient;
  isBatchMode : bool;
  isLoading : bool;
}.

Definition initial : RecipientState :=
  {| recipients := []; selectedRecipient := None; selectedRecipients := [];
     isBatchMode := false; isLoading := false |}.

(** [r.id === id] and [r.id !== id]. *)
Definition has_id (i : string) (r : Recipient) : bool := String.eqb (id r) i.
Definition other_id (i : string) (r : Recipient) : bool := negb (String.eqb (id r) i).

Definition setRecipients (rs : list Recipient) (state : RecipientState) : RecipientState :=
  {| recipients := rs;
     selectedRecipient := selectedRecipient state;
     selectedRecipients := selectedRecipients state;
     isBatchMode := isBatchMode state;
     isLoading := isLoading state |}.

Definition addRecipient (recipient : Recipient) (state : RecipientState) : RecipientState :=
  {| recipients := recipients state ++ [recipient];
     selectedRecipient := selectedRecipient state;
     selectedRecipients := selectedRecipients state;
     isBatchMode := isBatchMode state;
     isLoading := isLoading state |}.

Definition deleteRecipient (i : string) (state : RecipientState) : RecipientState :=
  {| recipients := List.filter (other_id i) (recipients state);
     selectedRecipient :=
       match selectedRecipient state with
       | Some r => if String.eqb (id r) i then None else Some r
       | None => None
       end;
     selectedRecipients := List.filter (other_id i) (selectedRecipients state);
     isBatchMode := isBatchMode state;
     isLoading := isLoading state |}.

Definition selectRecipient (recipient : option Recipient) (state : RecipientState)
  : RecipientState :=
  {| recipients := recipients state;
     selectedRecipient := recipient;
     selectedRecipients := selectedRecipients state;
     isBatchMode := isBatchMode state;
     isLoading := isLoading state |}.

Definition selectRecipients (rs : list Recipient) (state : RecipientState) : RecipientState :=
  {| recipients := recipients state;
     selectedRecipient := selectedRecipient state;
     selectedRecipients := rs;
     isBatchMode := isBatchMode state;
     isLoading := isLoading state |}.

Definition toggleRecipientSelection (recipient : Recipient) (state : RecipientState)
  : RecipientState :=
  let isSelected := existsb (has_id (id recipient)) (selectedRecipients state) in
  {| recipients := recipients state;
     selectedRecipient := selectedRecipient state;
     selectedRecipients :=
       if isSelected
       then List.filter (other_id (id recipient)) (selectedRecipients state)
       else selectedRecipients state ++ [recipient];
     isBatchMode := isBatchMode state;
     isLoading := isLoading state |}.

Definition setBatchMode (enabled : bool) (state : RecipientState) : RecipientState :=
  {| recipients := recipients state;
     selectedRecipient := if enabled then None else selectedRecipient state;
     selectedRecipients := if enabled then selectedRecipients state else [];
     isBatchMode := enabled;
     isLoading := isLoading state |}.

Definition clearBatchSelection (state : RecipientState) : RecipientState :=
  {| recipients := recipients state;
     selectedRecipient := selectedRecipient state;
     selectedRecipients := [];
     isBatchMode := false;
     isLoading := isLoading state |}.



Definition setLoading (loading : bool) (state : RecipientState) : RecipientState :=
  {| recipients := recipients state;
     selectedRecipient := selectedRecipient state;
     selectedRecipients := selectedRecipients state;
     isBatchMode := isBatchMode state;
     isLoading := loading |}.

(** The ids of the batch selection. *)
Definition selected_ids (state : RecipientState) : list string :=
  map id (selectedRecipients state).

(** A stored recipient, for the examples. *)
Definition sample (i : string) : Recipient :=
  {| id := i; name := "Ani"; nickname := None; phone := None; email := None;
     bankName := "BCA"; bankCode := "014"; accountNumber := "1234567890";
     accountType := bank; country := "ID"; currency := "IDR";
     walletAddress := None; isFavorite := false; lastUsed := None;
     createdAt := "2025-01-01T00:00:00.000Z" |}.

Definition two_selected : RecipientState :=
  {| recipients := [sample "1"; sample "2"; sample "3"];
     selectedRecipient := Some (sample "2");
     selectedRecipients := [sample "1"; sample "2"];
     isBatchMode := true; isLoading := false |}.

End RecipientStore.

(** * Properties *)

(** ** The hash *)

Example keccak_empty :
  hex_of_bytes (Keccak.keccak256 []) =
  "c5d2460186f7233c927e7db2dcc703c0e500b653ca82273b7bfad8045d85a470".
Proof. vm_compute. reflexivity. Qed.

Example keccak_long_input :
  hex_of_bytes (Keccak.keccak256 (repeat 97 200)) =
  "96ea54061def936c4be90b518992fdc6f12f535068a256229aca54267b4d084d".
Proof. vm_compute. reflexivity. Qed.

Example keccak_full_block_less_one :
  hex_of_bytes (Keccak.keccak256 (repeat 97 135)) =
  "34367dc248bbd832f4e3e69dfaac2f92638bd0bbd18f2912ba4ef454919cf446".
Proof. vm_compute. reflexivity. Qed.

(** The selectors of the ERC-20 interface and of two functions with array
    arguments, as published. *)
Example selectors_of_known_functions :
  map (fun s => hex_of_bytes (toFunctionSelector s))
      [ "transfer(address,uint256)"; "transferFrom(address,address,uint256)";
        "balanceOf(address)"; "allowance(address,address)"; "approve(address,uint256)";
        "multicall(bytes[])";
        "safeBatchTransferFrom(address,address,uint256[],uint256[],bytes)" ]
  = [ "a9059cbb"; "23b872dd"; "70a08231"; "dd62ed3e"; "095ea7b3"; "ac9650d8"; "2eb2c2d6" ].
Proof. vm_compute. reflexivity. Qed.

Example selector_of_batchSend :
  hex_of_bytes (toFunctionSelector batchSend_signature) = "19648bed".
Proof. vm_compute. reflexivity. Qed.

(** ** Transactions *)

Lemma transact_reverted {S A} (m : M S A) (s s' : S) (e : sol_error) :
  transact m s = (Reverted e, s') -> s' = s.
Proof.
  unfold transact. destruct (m s) as [[a|e'] s'']; intros H; inversion H; reflexivity.
Qed.

Lemma transact_success {S A} (m : M S A) (s s' : S) (a : A) :
  transact m s = (Success a, s') <-> m s = (Success a, s').
Proof.
  unfold transact. destruct (m s) as [[a'|e'] s'']; split; intros H; inversion H; reflexivity.
Qed.

Lemma transact_body_reverted {S A} (m : M S A) (s s' : S) (e : sol_error) :
  m s = (Reverted e, s') -> transact m s = (Reverted e, s).
Proof. unfold transact. intros ->. reflexivity. Qed.

(** ** The settlement engine, for any token behind the interface *)

Section EngineProperties.
Context {L : Type} `{Token : IERC20 L}.

Lemma with_token_same (c : chain L) token l :
  tokens c !! token = Some l -> with_token c token l = c.
Proof.
  intros H. unfold with_token. destruct c as [tk lg]; simpl in *.
  f_equal. apply insert_id. exact H.
Qed.

Lemma external_call_success {A} token (f : L -> option (A * L)) (c c' : chain L) (a : A) :
  external_call token f c = (Success a, c') ->
  exists l l', tokens c !! token = Some l /\ f l = Some (a, l') /\ c' = with_token c token l'.
Proof.
  unfold external_call. intros H.
  destruct (tokens c !! token) as [l|] eqn:Hl; [|discriminate].
  destruct (f l) as [[a' l']|] eqn:Hf; [|discriminate].
  inversion H; subst. exists l, l'. auto.
Qed.

(** What a successful [batchSend] went through. *)
Lemma batchSend_success_inv (e : engine) (b : block) (sender token : address)
    (recipients : list address) (amounts : list Z) (c c' : chain L) (batchId : bytes32) :
  batchSend e b sender token recipients amounts c = (Success batchId, c') ->
  exists total l0 allowed l1 c2,
    length recipients = length amounts /\ recipients <> [] /\
    total_loop recipients amounts 0 = Success total /\
    tokens c !! token = Some l0 /\
    allowance sender (this e) l0 = Some allowed /\ total <= allowed /\
    transferFrom (this e) sender (this e) total l0 = Some (true, l1) /\
    batchId = make_batchId b sender token (Z.of_nat (length recipients)) /\
    distribute (this e) token batchId recipients amounts (with_token c token l1)
      = (Success tt, c2) /\
    c' = with_logs c2 [BatchTransferIndexed batchId token sender total
                         (Z.of_nat (length recipients))].
Proof.
  unfold batchSend. rewrite transact_success. unfold batchSend_body.
  destruct (length recipients =? length amounts)%nat eqn:Hlen; simpl; [|discriminate].
  apply Nat.eqb_eq in Hlen.
  destruct (length recipients =? 0)%nat eqn:Hne; [discriminate|].
  apply Nat.eqb_neq in Hne.
  unfold bind at 1. unfold lift.
  destruct (total_loop recipients amounts 0) as [total|err] eqn:Htot; [|discriminate].
  unfold bind at 1.
  destruct (external_call token (view (allowance sender (this e))) c)
    as [[allowed|err] c1] eqn:Hallow; [|discriminate].
  apply external_call_success in Hallow as (l0 & l0' & Hl0 & Hview & ->).
  unfold view in Hview.
  destruct (allowance sender (this e) l0) as [a0|] eqn:Ha0; [|discriminate].
  inversion Hview; subst a0 l0'; clear Hview.
  rewrite (with_token_same _ _ _ Hl0).
  destruct (allowed <? total) eqn:Hlt; [discriminate|].
  apply Z.ltb_ge in Hlt.
  unfold bind at 1.
  destruct (external_call token (transferFrom (this e) sender (this e) total) c)
    as [[ok|err] c1] eqn:Hpull; [|discriminate].
  apply external_call_success in Hpull as (l0' & l1 & Hl0' & Hpull & ->).
  rewrite Hl0 in Hl0'. inversion Hl0'; subst l0'; clear Hl0'.
  destruct ok; simpl; [|discriminate].
  unfold bind at 1.
  destruct (distribute (this e) token _ recipients amounts (with_token c token l1))
    as [[[]|err] c2] eqn:Hdist; [|discriminate].
  unfold bind, emit, ret. intros H. inversion H; subst.
  exists total, l0, allowed, l1, c2.
  repeat split; auto.
  intros ->. simpl in Hne. congruence.
Qed.

End EngineProperties.

(** C10: [getBatchStatus] answers [completed = true] for every identifier,
    produced by a batch or not, and on every chain state; it leaves the
    state as it is, and its answer is the same whatever the state and the
    identifier are. *)
Theorem getBatchStatus_constant :
  forall (L : Type) (c c' : chain L) (batchId batchId' : bytes32),
    getBatchStatus batchId c = (Success true, c) /\
    fst (getBatchStatus batchId c) = fst (getBatchStatus batchId' c').
Proof. intros L c c' batchId batchId'. split; reflexivity. Qed.

(** C9: two executions of [batchSend] in the same block (same timestamp and
    number), by the same sender, for the same token and with as many
    recipients, return the same batch identifier, whatever the recipients,
    the amounts, the engine instance and the chain states are. *)
Theorem batchId_depends_on_context_only :
  forall (L : Type) (Token : IERC20 L) (e1 e2 : engine) (b : block)
         (sender token : address)
         (recipients1 recipients2 : list address) (amounts1 amounts2 : list Z)
         (c1 c1' c2 c2' : chain L) (id1 id2 : bytes32),
    length recipients1 = length recipients2 ->
    batchSend e1 b sender token recipients1 amounts1 c1 = (Success id1, c1') ->
    batchSend e2 b sender token recipients2 amounts2 c2 = (Success id2, c2') ->
    id1 = id2.
Proof.
  intros L Token e1 e2 b sender token rs1 rs2 as1 as2 c1 c1' c2 c2' id1 id2 Hlen H1 H2.
  apply batchSend_success_inv in H1 as (? & ? & ? & ? & ? & _ & _ & _ & _ & _ & _ & _ & -> & _).
  apply batchSend_success_inv in H2 as (? & ? & ? & ? & ? & _ & _ & _ & _ & _ & _ & _ & -> & _).
  rewrite Hlen. reflexivity.
Qed.

(** C9 on two batches that differ in recipients, amounts and chain state. *)
Lemma batchId_depends_on_context_only_witness :
  length [Scenario.bob; Scenario.carol] = length [Scenario.carol; Scenario.alice] /\
  Scenario.run_a = (Success (Scenario.batch_id (fst Scenario.run_a)), snd Scenario.run_a) /\
  Scenario.run_b = (Success (Scenario.batch_id (fst Scenario.run_b)), snd Scenario.run_b) /\
  Scenario.batch_id (fst Scenario.run_a) = Scenario.batch_id (fst Scenario.run_b).
Proof.
  assert (Ha : Scenario.run_a = (Success (Scenario.batch_id (fst Scenario.run_a)), snd Scenario.run_a)) by (vm_compute; reflexivity).
  assert (Hb : Scenario.run_b = (Success (Scenario.batch_id (fst Scenario.run_b)), snd Scenario.run_b)) by (vm_compute; reflexivity).
  split; [reflexivity|]. split; [exact Ha|]. split; [exact Hb|].
  eapply batchId_depends_on_context_only; [ | exact Ha | exact Hb ]. reflexivity.
Defined.

(** C6: for every recipient count [n] of the estimator's input range (32
    bits), the contract's [estimateGas] and the client's [estimateBatchGas]
    both give [50000 + n * 35000], exactly; at [0] they give [50000], and
    one more recipient costs [35000] more. *)
Theorem estimate_formula :
  forall n : Z,
    0 <= n <= 4294967295 ->
    estimateGas n = Success (50000 + n * 35000) /\
    estimateBatchGas n = 50000 + n * 35000 /\
    50000 + n * 35000 <= MAX_SAFE_INTEGER /\
    estimateGas 0 = Success 50000 /\
    estimateBatchGas 0 = 50000 /\
    estimateGas (n + 1) = Success (50000 + n * 35000 + 35000) /\
    estimateBatchGas (n + 1) = estimateBatchGas n + 35000.
Proof.
  intros n Hn.
  assert (Hgas : forall k, 0 <= k <= 4294967296 -> estimateGas k = Success (50000 + k * 35000)).
  { intros k Hk. unfold estimateGas, checked_mul, checked_add, MAX_UINT256.
    destruct (2 ^ 256 - 1 <? k * 35000) eqn:H1; [apply Z.ltb_lt in H1; lia|].
    destruct (2 ^ 256 - 1 <? 50000 + k * 35000) eqn:H2; [apply Z.ltb_lt in H2; lia|].
    reflexivity. }
  repeat split.
  - apply Hgas. lia.
  - unfold MAX_SAFE_INTEGER. lia.
  - rewrite (Hgas (n + 1)) by lia. f_equal. lia.
  - unfold estimateBatchGas. lia.
Qed.

(** C6 at the largest batch the client accepts. *)
Lemma estimate_formula_witness :
  0 <= 200 <= 4294967295 /\ estimateGas 200 = Success 7050000 /\ estimateBatchGas 201 = 7085000.
Proof.
  assert (H : 0 <= 200 <= 4294967295) by lia.
  destruct (estimate_formula 200 H) as (Hg & _ & _ & _ & _ & _ & Hs).
  split; [exact H|]. split; [exact Hg | exact Hs].
Defined.

(** ** The client-side validator *)

Lemma check_entries_clean (k : nat) (recipients : list string) (amounts : list Z) :
  length recipients = length amounts ->
  (forall j, entry_ok recipients amounts j) ->
  check_entries k recipients amounts = None.
Proof.
  revert k amounts. induction recipients as [|r rs IH]; intros k amounts Hlen Hok.
  - reflexivity.
  - destruct amounts as [|a amounts]; [discriminate|]. simpl in Hlen.
    destruct (Hok 0%nat r a eq_refl eq_refl) as [Hr Ha].
    simpl. rewrite Hr, Ha. apply IH; [lia|].
    intros j r' a' Hr' Ha'. exact (Hok (S j) r' a' Hr' Ha').
Qed.

Lemma check_entries_first_defect (k i : nat) (recipients : list string) (amounts : list Z)
    (r : string) (a : Z) :
  length recipients = length amounts ->
  recipients !! i = Some r -> amounts !! i = Some a ->
  (forall j, (j < i)%nat -> entry_ok recipients amounts j) ->
  (bad_recipient r = true ->
   check_entries k recipients amounts = Some (InvalidRecipient (k + i))) /\
  (bad_recipient r = false -> bad_amount a = true ->
   check_entries k recipients amounts = Some (InvalidAmount (k + i))).
Proof.
  revert k i amounts. induction recipients as [|r0 rs IH]; intros k i amounts Hlen Hr Ha Hbefore.
  - discriminate.
  - destruct amounts as [|a0 amounts]; [discriminate|]. simpl in Hlen.
    destruct i as [|i].
    + simpl in Hr, Ha. inversion Hr; inversion Ha; subst r0 a0.
      rewrite Nat.add_0_r. split.
      * intros Hbad. simpl. rewrite Hbad. reflexivity.
      * intros Hgood Hbad. simpl. rewrite Hgood, Hbad. reflexivity.
    + simpl in Hr, Ha.
      destruct (Hbefore 0%nat ltac:(lia) r0 a0 eq_refl eq_refl) as [Hr0 Ha0].
      simpl. rewrite Hr0, Ha0.
      replace (k + S i)%nat with (S k + i)%nat by lia.
      apply IH; [lia | exact Hr | exact Ha |].
      intros j Hj r' a' Hr' Ha'.
      exact (Hbefore (S j) ltac:(lia) r' a' Hr' Ha').
Qed.

(** C4 (as the code has it): [validateBatchTransfer] checks, in this order
    and stopping at the first failure, (1) that there is a recipient, else
    [EmptyBatch], whatever [amounts] is; (2) that both arrays have the same
    length, else [ArityMismatch]; (3) that there are at most 200 recipients,
    else [TooManyRecipients]; (4) the entries in one pass by increasing
    index, at each index first the recipient, else [InvalidRecipient i],
    then the amount, else [InvalidAmount i]. The defect reported is the one
    at the smallest defective index; a batch without defect is accepted. *)
Theorem validate_check_order :
  forall (recipients : list string) (amounts : list Z),
    (recipients = [] ->
     validateBatchTransfer recipients amounts = verdict (Some EmptyBatch)) /\
    (recipients <> [] -> length recipients <> length amounts ->
     validateBatchTransfer recipients amounts = verdict (Some ArityMismatch)) /\
    (length recipients = length amounts -> (200 < length recipients)%nat ->
     validateBatchTransfer recipients amounts = verdict (Some TooManyRecipients)) /\
    (length recipients = length amounts -> (1 <= length recipients <= 200)%nat ->
     forall (i : nat) (r : string) (a : Z),
       recipients !! i = Some r -> amounts !! i = Some a ->
       (forall j, (j < i)%nat -> entry_ok recipients amounts j) ->
       (bad_recipient r = true ->
        validateBatchTransfer recipients amounts = verdict (Some (InvalidRecipient i))) /\
       (bad_recipient r = false -> bad_amount a = true ->
        validateBatchTransfer recipients amounts = verdict (Some (InvalidAmount i)))) /\
    (length recipients = length amounts -> (1 <= length recipients <= 200)%nat ->
     (forall j, entry_ok recipients amounts j) ->
     validateBatchTransfer recipients amounts = verdict None).
Proof.
  intros recipients amounts. unfold validateBatchTransfer, check_batch.
  split; [|split; [|split; [|split]]].
  - intros ->. reflexivity.
  - intros Hne Hlen.
    destruct (length recipients =? 0)%nat eqn:H0.
    { apply Nat.eqb_eq in H0. destruct recipients; [congruence | discriminate]. }
    destruct (length recipients =? length amounts)%nat eqn:H1; [|reflexivity].
    apply Nat.eqb_eq in H1. contradiction.
  - intros Hlen Hbig.
    destruct (length recipients =? 0)%nat eqn:H0; [apply Nat.eqb_eq in H0; lia|].
    rewrite Hlen, Nat.eqb_refl. simpl.
    rewrite <- Hlen. destruct (200 <? length recipients)%nat eqn:H2; [reflexivity|].
    apply Nat.ltb_ge in H2. lia.
  - intros Hlen Hsize i r a Hr Ha Hbefore.
    destruct (length recipients =? 0)%nat eqn:H0; [apply Nat.eqb_eq in H0; lia|].
    rewrite Hlen, Nat.eqb_refl. simpl. rewrite <- Hlen.
    destruct (200 <? length recipients)%nat eqn:H2; [apply Nat.ltb_lt in H2; lia|].
    destruct (check_entries_first_defect 0 i recipients amounts r a Hlen Hr Ha Hbefore)
      as [Hrec Hamt].
    split.
    + intros Hbad. rewrite (Hrec Hbad). reflexivity.
    + intros Hgood Hbad. rewrite (Hamt Hgood Hbad). reflexivity.
  - intros Hlen Hsize Hok.
    destruct (length recipients =? 0)%nat eqn:H0; [apply Nat.eqb_eq in H0; lia|].
    rewrite Hlen, Nat.eqb_refl. simpl. rewrite <- Hlen.
    destruct (200 <? length recipients)%nat eqn:H2; [apply Nat.ltb_lt in H2; lia|].
    rewrite (check_entries_clean 0 recipients amounts Hlen Hok). reflexivity.
Qed.

(** C4 at two inputs: no recipient but an amount, and a zero amount placed
    before a zero recipient. *)
Lemma validate_check_order_witness :
  validateBatchTransfer [] [1] = verdict (Some EmptyBatch) /\
  validateBatchTransfer ["0x8ba1f109551bD432803012645Ac136ddd64DBA72"; ZERO_ADDRESS] [0; 1]
    = verdict (Some (InvalidAmount 0)).
Proof.
  split.
  - exact (proj1 (validate_check_order [] [1]) eq_refl).
  - destruct (validate_check_order
                ["0x8ba1f109551bD432803012645Ac136ddd64DBA72"; ZERO_ADDRESS] [0; 1])
      as (_ & _ & _ & H & _).
    refine (proj2 (H eq_refl _ 0%nat _ 0 eq_refl eq_refl _) eq_refl eq_refl).
    + simpl. lia.
    + intros j Hj. lia.
Defined.

(** C4 as the specification orders the checks fails on the code: with no
    recipient and one amount the code answers [EmptyBatch], not
    [ArityMismatch]; with a zero amount at index 0 and the zero address at
    index 1 it answers [InvalidAmount 0], not [InvalidRecipient 1]. *)
Lemma validate_spec_order_counterexample :
  (validate_spec [] [1] = Some ArityMismatch /\
   error (validateBatchTransfer [] [1]) = Some "At least one recipient is required" /\
   validateBatchTransfer [] [1] <> verdict (validate_spec [] [1])) /\
  (validate_spec ["0x8ba1f109551bD432803012645Ac136ddd64DBA72"; ZERO_ADDRESS] [0; 1]
     = Some (InvalidRecipient 1) /\
   error (validateBatchTransfer
            ["0x8ba1f109551bD432803012645Ac136ddd64DBA72"; ZERO_ADDRESS] [0; 1])
     = Some "Invalid amount at index 0" /\
   validateBatchTransfer ["0x8ba1f109551bD432803012645Ac136ddd64DBA72"; ZERO_ADDRESS] [0; 1]
     <> verdict (validate_spec
                   ["0x8ba1f109551bD432803012645Ac136ddd64DBA72"; ZERO_ADDRESS] [0; 1])).
Proof.
  split; (split; [reflexivity | split; [reflexivity | vm_compute; discriminate]]).
Qed.

Lemma first_index_none {A} (bad : A -> bool) (k : nat) (l : list A) :
  first_index bad k l = None <-> forall j x, l !! j = Some x -> bad x = false.
Proof.
  revert k. induction l as [|y l IH]; intros k; simpl.
  - split; [intros _ j x Hj; discriminate | reflexivity].
  - destruct (bad y) eqn:Hy.
    + split; [discriminate|]. intros H. specialize (H 0%nat y eq_refl). congruence.
    + rewrite IH. split.
      * intros H [|j] x Hj; [inversion Hj; subst; exact Hy | exact (H j x Hj)].
      * intros H j x Hj. exact (H (S j) x Hj).
Qed.

Lemma check_entries_none (k : nat) (recipients : list string) (amounts : list Z) :
  length recipients = length amounts ->
  check_entries k recipients amounts = None ->
  forall j, entry_ok recipients amounts j.
Proof.
  revert k amounts. induction recipients as [|r rs IH]; intros k amounts Hlen Hnone j r' a' Hr' Ha'.
  - discriminate.
  - destruct amounts as [|a amounts]; [discriminate|]. simpl in Hlen, Hnone.
    destruct (bad_recipient r) eqn:Hr; [discriminate|].
    destruct (bad_amount a) eqn:Ha; [discriminate|].
    destruct j as [|j]; simpl in Hr', Ha'.
    + inversion Hr'; inversion Ha'; subst. auto.
    + apply (IH (S k) amounts ltac:(lia) Hnone j r' a' Hr' Ha').
Qed.

(** Both orders accept the same batches: they differ only in which defect
    of a rejected batch is named. *)
Lemma validate_accepts_like_spec (recipients : list string) (amounts : list Z) :
  valid (validateBatchTransfer recipients amounts) = valid (verdict (validate_spec recipients amounts)).
Proof.
  unfold validateBatchTransfer, check_batch, validate_spec.
  destruct (length recipients =? length amounts)%nat eqn:Hlen; simpl.
  2:{ destruct (length recipients =? 0)%nat; reflexivity. }
  apply Nat.eqb_eq in Hlen.
  destruct (length recipients =? 0)%nat eqn:H0.
  { apply Nat.eqb_eq in H0. rewrite H0. reflexivity. }
  apply Nat.eqb_neq in H0.
  destruct (length recipients <? 1)%nat eqn:H1; [apply Nat.ltb_lt in H1; lia|].
  destruct (200 <? length recipients)%nat; [reflexivity|].
  destruct (check_entries 0 recipients amounts) as [err|] eqn:Hc.
  - destruct (first_index bad_recipient 0 recipients) eqn:Hr; [reflexivity|].
    destruct (first_index bad_amount 0 amounts) eqn:Ha; [reflexivity|].
    exfalso.
    rewrite first_index_none in Hr. rewrite first_index_none in Ha.
    rewrite check_entries_clean in Hc; [discriminate | exact Hlen |].
    intros j r a Hj Hj'. split; [exact (Hr j r Hj) | exact (Ha j a Hj')].
  - pose proof (check_entries_none 0 recipients amounts Hlen Hc) as Hok.
    assert (Hr : first_index bad_recipient 0 recipients = None).
    { apply first_index_none. intros j r Hj.
      destruct (amounts !! j) as [a|] eqn:Ha.
      - exact (proj1 (Hok j r a Hj Ha)).
      - apply lookup_lt_Some in Hj. apply lookup_ge_None in Ha. lia. }
    assert (Ha : first_index bad_amount 0 amounts = None).
    { apply first_index_none. intros j a Hj.
      destruct (recipients !! j) as [r|] eqn:Hr'.
      - exact (proj2 (Hok j r a Hr' Hj)).
      - apply lookup_lt_Some in Hj. apply lookup_ge_None in Hr'. lia. }
    rewrite Hr, Ha. reflexivity.
Qed.

(** ** The calldata encoder *)

Lemma batchSend_selector_value :
  toFunctionSelector batchSend_signature = [0x19; 0x64; 0x8b; 0xed].
Proof. vm_compute. reflexivity. Qed.

Lemma substring_0_0 (s : string) : String.substring 0 0 s = EmptyString.
Proof. destruct s; reflexivity. Qed.

Lemma calldata_bytes_selector (token : string) (recipients : list string)
    (amounts : list Z) (bs : bytes) :
  calldata_bytes token recipients amounts = Returned bs ->
  firstn 4 bs = toFunctionSelector batchSend_signature.
Proof.
  unfold calldata_bytes, encodeFunctionData_batchSend.
  destruct (negb _); [discriminate|].
  destruct (encode_address token); [|discriminate].
  destruct (encode_all encode_address recipients); [|discriminate].
  destruct (encode_all encode_uint256 amounts); [|discriminate].
  intros H. inversion H; subst bs; clear H.
  rewrite batchSend_selector_value. reflexivity.
Qed.

(** C7 (as the code has it): the calldata is a function of the arguments,
    so two calls with the same arguments give the same output, and every
    output starts with the selector of [batchSend(address,address[],uint256[])],
    the first four bytes of the Keccak-256 hash of that signature, which are
    [0x19648bed]. *)
Theorem calldata_deterministic_with_selector :
  forall (token : string) (recipients : list string) (amounts : list Z)
         (out1 out2 : string),
    getBatchTransferCalldata token recipients amounts = Returned out1 ->
    getBatchTransferCalldata token recipients amounts = Returned out2 ->
    out1 = out2 /\
    String.substring 0 10 out1 = "0x" +:+ hex_of_bytes (toFunctionSelector batchSend_signature) /\
    String.substring 0 10 out1 = "0x19648bed".
Proof.
  intros token recipients amounts out1 out2 H1 H2.
  split; [congruence|].
  unfold getBatchTransferCalldata in H1.
  destruct (calldata_bytes token recipients amounts) as [bs|] eqn:Hbs; [|discriminate].
  inversion H1; subst out1; clear H1 H2.
  pose proof (calldata_bytes_selector _ _ _ _ Hbs) as Hsel.
  rewrite batchSend_selector_value in *.
  destruct bs as [|b0 [|b1 [|b2 [|b3 rest]]]]; try discriminate.
  inversion Hsel; subst. split; vm_compute; repeat f_equal; apply substring_0_0.
Qed.

(** C7 on the input of the repository's encoding test. *)
Lemma calldata_deterministic_with_selector_witness :
  exists out,
    getBatchTransferCalldata ClientScenario.test_token ClientScenario.test_recipients
      ClientScenario.test_amounts = Returned out /\
    String.substring 0 10 out = "0x19648bed".
Proof.
  destruct (getBatchTransferCalldata ClientScenario.test_token ClientScenario.test_recipients
              ClientScenario.test_amounts) as [out|m] eqn:H.
  - exists out. split; [reflexivity|].
    exact (proj2 (proj2 (calldata_deterministic_with_selector _ _ _ out out H H))).
  - vm_compute in H. discriminate.
Defined.

(** C7 as stated fails: on the input of the repository's encoding test the
    output does not start with [0x3a7fec06]. *)
Lemma calldata_selector_counterexample :
  exists out,
    getBatchTransferCalldata ClientScenario.test_token ClientScenario.test_recipients
      ClientScenario.test_amounts = Returned out /\
    String.substring 0 10 out <> "0x3a7fec06".
Proof.
  eexists. split; [vm_compute; reflexivity|]. vm_compute. discriminate.
Qed.

(** ** The dispatch function *)

Lemma executeBatchTransfer_without_capability (h : host) (recipients : list Recipient)
    (amounts : list float) (units : list Z) (callData : string) :
  isBatchContractDeployed h = true ->
  to_units_all amounts = Returned units ->
  valid (validateBatchTransfer (map walletAddress recipients) units) = true ->
  getBatchTransferCalldata (usdcAddress h) (map walletAddress recipients) units
    = Returned callData ->
  executeBatchTransfer h ClientScenario.empty_client recipients amounts
    = mock_result h recipients (calculateTotalAmount units).
Proof.
  intros Hdep Hunits Hvalid Hdata.
  unfold executeBatchTransfer, executeBatchTransfer_try.
  rewrite Hdep, Hunits. simpl. rewrite Hvalid, Hdata. reflexivity.
Qed.

(** C5 on the code: a client object with none of the three submission
    methods, a deployed contract and a valid batch. The call answers
    [success = true] with a made-up hash. *)
Theorem executeBatchTransfer_fabricates_success :
  let r := executeBatchTransfer ClientScenario.base_sepolia ClientScenario.empty_client
             ClientScenario.one_recipient [1.5%float] in
  BatchTransferResult.success r = true /\
  BatchTransferResult.txHash r = "0x8c3f1a2b4d5e6" /\
  BatchTransferResult.batchId r = "batch_1700000000000" /\
  BatchTransferResult.totalAmount r = "1500000" /\
  BatchTransferResult.error r = Some "SDK method not found - mock transaction".
Proof. vm_compute. repeat split; reflexivity. Qed.

(** ** Atomicity of the settlement *)

Section Atomicity.
Context {L : Type} `{Token : IERC20 L}.

Lemma with_token_lookup (c : chain L) token l :
  tokens (with_token c token l) !! token = Some l.
Proof. unfold with_token. simpl. apply lookup_insert_eq. Qed.

Lemma with_logs_tokens (c : chain L) evs : tokens (with_logs c evs) = tokens c.
Proof. reflexivity. Qed.

(** A failing disbursement makes the second loop revert. *)
Lemma distribute_fails (self token : address) (batchId : bytes32)
    (recipients : list address) (amounts : list Z) (l : L) (err : sol_error) :
  disburse_failure self recipients amounts l err ->
  forall c : chain L, tokens c !! token = Some l ->
  exists c', distribute self token batchId recipients amounts c = (Reverted err, c').
Proof.
  induction 1 as [r a rs xs l l' Hcall | r a rs xs l Hcall | r a rs xs l l' err Hcall Hrest IH];
    intros c Hl; simpl; unfold bind at 1; unfold external_call; rewrite Hl, Hcall.
  - simpl. eexists. reflexivity.
  - eexists. reflexivity.
  - simpl. unfold bind at 1. unfold emit.
    apply IH. rewrite with_logs_tokens. apply with_token_lookup.
Qed.

(** The other way round: a second loop that reverts had a failing
    disbursement. *)
Lemma distribute_reverted_inv (self token : address) (batchId : bytes32)
    (recipients : list address) (amounts : list Z) :
  forall (c c' : chain L) (l : L) (err : sol_error),
    tokens c !! token = Some l ->
    distribute self token batchId recipients amounts c = (Reverted err, c') ->
    disburse_failure self recipients amounts l err.
Proof.
  revert amounts. induction recipients as [|r rs IH]; intros amounts c c' l err Hl Hrun.
  - discriminate.
  - destruct amounts as [|a xs]; [discriminate|].
    simpl in Hrun. unfold bind at 1 in Hrun. unfold external_call in Hrun.
    rewrite Hl in Hrun.
    destruct (transfer self r a l) as [[[] l']|] eqn:Hcall; simpl in Hrun.
    + unfold bind at 1 in Hrun. unfold emit in Hrun.
      eapply disburse_later; [exact Hcall|].
      eapply IH; [|exact Hrun]. rewrite with_logs_tokens. apply with_token_lookup.
    + inversion Hrun; subst. eapply disburse_refused. exact Hcall.
    + inversion Hrun; subst. eapply disburse_reverted. exact Hcall.
Qed.

(** Steps shared by the cases below: the two length tests, the first loop
    and the allowance test of [batchSend_body] go through. *)
Ltac pass_checks Hlen Hne :=
  rewrite Hlen, Nat.eqb_refl; simpl;
  match goal with
  | |- context [(length ?xs =? 0)%nat] =>
      let H0 := fresh "H0" in
      destruct (length xs =? 0)%nat eqn:H0;
      [ apply Nat.eqb_eq in H0;
        match type of Hne with ?rs <> [] => destruct rs; [congruence | simpl in Hlen; lia] end
      | ]
  end.

Ltac pass_total Htot :=
  unfold bind at 1; unfold lift; rewrite Htot.

Ltac pass_allowance Hl Hallow Hle :=
  unfold bind at 1; unfold external_call at 1, view; rewrite Hl, Hallow;
  apply Z.ltb_ge in Hle; rewrite Hle;
  rewrite (with_token_same _ _ _ Hl).

Lemma batchSend_failure_reverts (e : engine) (b : block) (sender token : address)
    (recipients : list address) (amounts : list Z) (c : chain L) (err : sol_error) :
  batch_failure e sender token recipients amounts c err ->
  batchSend e b sender token recipients amounts c = (Reverted err, c).
Proof.
  intros Hfail. unfold batchSend.
  assert (Hbody : exists c', batchSend_body e b sender token recipients amounts c
                             = (Reverted err, c')).
  { unfold batchSend_body.
    destruct Hfail as
      [ Hlen | -> -> | err Hlen Hne Htot
      | total (Hlen & Hne & Htot) Hl
      | total l (Hlen & Hne & Htot) Hl Hallow
      | total l allowed (Hlen & Hne & Htot) Hl Hallow Hlt
      | total l allowed l1 (Hlen & Hne & Htot) Hl Hallow Hle Hpull
      | total l allowed (Hlen & Hne & Htot) Hl Hallow Hle Hpull
      | total l allowed l1 err (Hlen & Hne & Htot) Hl Hallow Hle Hpull Hdis ].
    - apply Nat.eqb_neq in Hlen. rewrite Hlen. simpl. eexists. reflexivity.
    - simpl. eexists. reflexivity.
    - pass_checks Hlen Hne.
      unfold bind, lift. rewrite Htot. eexists. reflexivity.
    - pass_checks Hlen Hne. pass_total Htot.
      unfold bind at 1. unfold external_call. rewrite Hl. eexists. reflexivity.
    - pass_checks Hlen Hne. pass_total Htot.
      unfold bind at 1. unfold external_call, view. rewrite Hl, Hallow. eexists. reflexivity.
    - pass_checks Hlen Hne. pass_total Htot.
      unfold bind at 1. unfold external_call at 1, view. rewrite Hl, Hallow.
      apply Z.ltb_lt in Hlt. rewrite Hlt. eexists. reflexivity.
    - pass_checks Hlen Hne. pass_total Htot.
      pass_allowance Hl Hallow Hle.
      unfold bind at 1. unfold external_call. rewrite Hl, Hpull. simpl.
      eexists. reflexivity.
    - pass_checks Hlen Hne. pass_total Htot.
      pass_allowance Hl Hallow Hle.
      unfold bind at 1. unfold external_call. rewrite Hl, Hpull.
      eexists. reflexivity.
    - pass_checks Hlen Hne. pass_total Htot.
      pass_allowance Hl Hallow Hle.
      unfold bind at 1. unfold external_call at 1. rewrite Hl, Hpull. simpl.
      unfold bind at 1.
      destruct (distribute_fails (this e) token
                  (make_batchId b sender token (Z.of_nat (length amounts)))
                  recipients amounts l1 err Hdis (with_token c token l1)
                  (with_token_lookup c token l1)) as [c' Hrun].
      rewrite Hrun. eexists. reflexivity. }
  destruct Hbody as [c' Hbody].
  exact (transact_body_reverted _ _ _ _ Hbody).
Qed.

(** Every revert of [batchSend] is one of the listed failures, and leaves
    the chain state as it was. *)
Lemma batchSend_reverted_inv (e : engine) (b : block) (sender token : address)
    (recipients : list address) (amounts : list Z) (c c' : chain L) (err : sol_error) :
  batchSend e b sender token recipients amounts c = (Reverted err, c') ->
  c' = c /\ batch_failure e sender token recipients amounts c err.
Proof.
  intros Hrun. split; [exact (transact_reverted _ _ _ _ Hrun)|].
  unfold batchSend, transact in Hrun.
  destruct (batchSend_body e b sender token recipients amounts c) as [[id|err'] c1] eqn:Hbody;
    [discriminate|].
  inversion Hrun; subst err' c'; clear Hrun.
  unfold batchSend_body in Hbody.
  destruct (length recipients =? length amounts)%nat eqn:Hlen; simpl in Hbody.
  2:{ inversion Hbody; subst. apply fail_arity. apply Nat.eqb_neq. exact Hlen. }
  apply Nat.eqb_eq in Hlen.
  destruct (length recipients =? 0)%nat eqn:H0.
  { inversion Hbody; subst. apply Nat.eqb_eq in H0.
    apply fail_empty; [destruct recipients | destruct amounts]; simpl in *; congruence || lia. }
  apply Nat.eqb_neq in H0.
  assert (Hne : recipients <> []) by (intros ->; simpl in H0; congruence).
  unfold bind at 1 in Hbody. unfold lift in Hbody.
  destruct (total_loop recipients amounts 0) as [total|err0] eqn:Htot.
  2:{ inversion Hbody; subst. apply fail_validation; assumption. }
  assert (Hval : validated recipients amounts total) by (repeat split; assumption).
  unfold bind at 1 in Hbody. unfold external_call at 1, view in Hbody.
  destruct (tokens c !! token) as [l|] eqn:Hl.
  2:{ inversion Hbody; subst. eapply fail_no_code; eassumption. }
  destruct (allowance sender (this e) l) as [allowed|] eqn:Hallow.
  2:{ inversion Hbody; subst. eapply fail_allowance_call; eassumption. }
  rewrite (with_token_same _ _ _ Hl) in Hbody.
  destruct (allowed <? total) eqn:Hlt.
  { inversion Hbody; subst. apply Z.ltb_lt in Hlt. eapply fail_allowance; eassumption. }
  apply Z.ltb_ge in Hlt.
  unfold bind at 1 in Hbody. unfold external_call at 1 in Hbody. rewrite Hl in Hbody.
  destruct (transferFrom (this e) sender (this e) total l) as [[[] l1]|] eqn:Hpull;
    simpl in Hbody.
  - unfold bind at 1 in Hbody.
    destruct (distribute (this e) token _ recipients amounts (with_token c token l1))
      as [[[]|err1] c2] eqn:Hdist.
    + unfold bind, emit, ret in Hbody. discriminate.
    + inversion Hbody; subst.
      eapply fail_disburse; try eassumption.
      eapply distribute_reverted_inv; [apply with_token_lookup | exact Hdist].
  - inversion Hbody; subst. eapply fail_collect_refused; eassumption.
  - inversion Hbody; subst. eapply fail_collect_reverted; eassumption.
Qed.

End Atomicity.

(** C2: an invocation of [batchSend] in which a step fails (a check of the
    arguments, the allowance test, the collecting [transferFrom], or any
    disbursement after the collection and the earlier disbursements went
    through) reverts with the error of that step and leaves the chain state,
    hence every balance, allowance and the event log, exactly as it was; and
    every revert of [batchSend] is of that kind. *)
Theorem batchSend_atomic :
  forall (L : Type) (Token : IERC20 L) (e : engine) (b : block) (sender token : address)
         (recipients : list address) (amounts : list Z) (c : chain L) (err : sol_error),
    (batch_failure e sender token recipients amounts c err ->
     batchSend e b sender token recipients amounts c = (Reverted err, c)) /\
    (forall c', batchSend e b sender token recipients amounts c = (Reverted err, c') ->
                c' = c /\ batch_failure e sender token recipients amounts c err).
Proof.
  intros L Token e b sender token recipients amounts c err. split.
  - apply batchSend_failure_reverts.
  - intros c'. apply batchSend_reverted_inv.
Qed.

(** C2 on a batch whose second recipient is blocklisted by a token that
    answers [false]: the collection and the first disbursement went
    through when the failure occurs. *)
Lemma batchSend_atomic_witness :
  batch_failure Scenario.the_engine Scenario.alice Scenario.usdc
    [Scenario.bob; Scenario.dave; Scenario.carol] [1000000; 2000000; 500000]
    (Scenario.chain0 false) TransferFailed /\
  batchSend Scenario.the_engine Scenario.the_block Scenario.alice Scenario.usdc
    [Scenario.bob; Scenario.dave; Scenario.carol] [1000000; 2000000; 500000]
    (Scenario.chain0 false)
  = (Reverted TransferFailed, Scenario.chain0 false).
Proof.
  assert (H : batch_failure Scenario.the_engine Scenario.alice Scenario.usdc
                [Scenario.bob; Scenario.dave; Scenario.carol] [1000000; 2000000; 500000]
                (Scenario.chain0 false) TransferFailed).
  { eapply fail_disburse with (total := 3500000).
    - split; [reflexivity|]. split; [discriminate|]. vm_compute. reflexivity.
    - vm_compute. reflexivity.
    - vm_compute. reflexivity.
    - vm_compute. discriminate.
    - vm_compute. reflexivity.
    - eapply disburse_later; [vm_compute; reflexivity|].
      eapply disburse_refused. vm_compute. reflexivity. }
  split; [exact H|].
  exact (proj1 (batchSend_atomic _ _ Scenario.the_engine Scenario.the_block _ _ _ _ _ _) H).
Defined.

(** The rollback is what undoes the work: at the point where the body of
    that invocation stops, Alice has been debited and Bob credited. *)
Example rollback_undoes_partial_distribution :
  let body := batchSend_body Scenario.the_engine Scenario.the_block Scenario.alice
                Scenario.usdc [Scenario.bob; Scenario.dave; Scenario.carol]
                [1000000; 2000000; 500000] (Scenario.chain0 false) in
  let call := batchSend Scenario.the_engine Scenario.the_block Scenario.alice
                Scenario.usdc [Scenario.bob; Scenario.dave; Scenario.carol]
                [1000000; 2000000; 500000] (Scenario.chain0 false) in
  fst body = Reverted TransferFailed /\
  balance_in (snd body) Scenario.usdc Scenario.alice = 6500000 /\
  balance_in (snd body) Scenario.usdc Scenario.bob = 1000000 /\
  balance_in (snd body) Scenario.usdc Scenario.holding = 2500000 /\
  length (logs (snd body)) = 1%nat /\
  fst call = Reverted TransferFailed /\
  balance_in (snd call) Scenario.usdc Scenario.alice = 10000000 /\
  balance_in (snd call) Scenario.usdc Scenario.bob = 0 /\
  balance_in (snd call) Scenario.usdc Scenario.holding = 0 /\
  logs (snd call) = [].
Proof. vm_compute. repeat split; reflexivity. Qed.

(** ** Conservation of value on the reference ledger *)

Lemma move_balance (l : Ledger.t) (from to : address) (amount : Z) (a : address) :
  default 0 (Ledger.move l from to amount !! a)
  = Ledger.balance l a - (if a =? from then amount else 0) + (if a =? to then amount else 0).
Proof.
  unfold Ledger.move, Ledger.balance.
  destruct (Z.eqb_spec a to) as [->|Hto].
  - rewrite lookup_insert_eq. simpl.
    destruct (Z.eqb_spec to from) as [->|Hfrom].
    + rewrite lookup_insert_eq. simpl. lia.
    + rewrite lookup_insert_ne by congruence. lia.
  - rewrite lookup_insert_ne by congruence.
    destruct (Z.eqb_spec a from) as [->|Hfrom].
    + rewrite lookup_insert_eq. simpl. lia.
    + rewrite lookup_insert_ne by congruence. lia.
Qed.

Lemma transfer_balance (caller to : address) (amount : Z) (l l' : Ledger.t) (a : address) :
  transfer caller to amount l = Some (true, l') ->
  Ledger.balance l' a
  = Ledger.balance l a - (if a =? caller then amount else 0) + (if a =? to then amount else 0).
Proof.
  simpl. unfold Ledger.do_transfer, Ledger.fail.
  destruct (Ledger.can_move l caller to amount).
  - intros H. inversion H; subst l'. apply move_balance.
  - destruct (Ledger.strict l); intros H; inversion H.
Qed.

Lemma transferFrom_balance (caller from to : address) (amount : Z) (l l' : Ledger.t)
    (a : address) :
  transferFrom caller from to amount l = Some (true, l') ->
  Ledger.balance l' a
  = Ledger.balance l a - (if a =? from then amount else 0) + (if a =? to then amount else 0).
Proof.
  simpl. unfold Ledger.do_transferFrom, Ledger.fail.
  destruct (Ledger.can_move l from to amount && (amount <=? Ledger.allowed l from caller)).
  - intros H. inversion H; subst l'. apply move_balance.
  - destruct (Ledger.strict l); intros H; inversion H.
Qed.

Lemma total_loop_sum (recipients : list address) (amounts : list Z) (t0 total : Z) :
  length recipients = length amounts ->
  total_loop recipients amounts t0 = Success total ->
  total = t0 + sum_list amounts.
Proof.
  revert amounts t0. induction recipients as [|r rs IH]; intros amounts t0 Hlen Hrun.
  - destruct amounts; [|discriminate]. simpl in *. inversion Hrun. lia.
  - destruct amounts as [|x xs]; [discriminate|]. simpl in Hlen, Hrun.
    destruct (r =? 0); [discriminate|]. destruct (x =? 0); [discriminate|].
    unfold checked_add in Hrun. destruct (MAX_UINT256 <? t0 + x); [discriminate|].
    apply IH in Hrun; [|lia]. simpl. lia.
Qed.

(** The second loop debits the engine by the amounts and credits every
    identity with what the batch lists for it. *)
Lemma distribute_balances (self token : address) (batchId : bytes32)
    (recipients : list address) (amounts : list Z) :
  forall (c c' : chain Ledger.t) (l : Ledger.t),
    length recipients = length amounts ->
    tokens c !! token = Some l ->
    distribute self token batchId recipients amounts c = (Success tt, c') ->
    forall a, balance_in c' token a
              = Ledger.balance l a - (if a =? self then sum_list amounts else 0)
                + credited a recipients amounts.
Proof.
  revert amounts. induction recipients as [|r rs IH]; intros amounts c c' l Hlen Hl Hrun a.
  - destruct amounts; [|discriminate]. simpl in *. inversion Hrun; subst c'.
    unfold balance_in. rewrite Hl. destruct (a =? self); lia.
  - destruct amounts as [|x xs]; [discriminate|]. simpl in Hlen.
    cbn [distribute] in Hrun. unfold bind at 1 in Hrun.
    destruct (external_call token (transfer self r x) c) as [[ok|err] c1] eqn:Hcall;
      [|discriminate].
    apply external_call_success in Hcall as (l0 & l1 & Hl0 & Hcall & ->).
    rewrite Hl in Hl0. inversion Hl0; subst l0; clear Hl0.
    destruct ok; cbn [negb] in Hrun; [|discriminate].
    unfold bind at 1 in Hrun. unfold emit in Hrun.
    rewrite (IH xs _ c' l1 ltac:(lia)
               (with_token_lookup c token l1 : tokens (with_logs _ _) !! token = Some l1) Hrun a).
    rewrite (transfer_balance _ _ _ _ _ a Hcall). simpl.
    rewrite (Z.eqb_sym r a).
    destruct (a =? self); destruct (a =? r); lia.
Qed.

(** What a successful [batchSend] does to the balance of any identity. *)
Lemma batchSend_balance_effect (e : engine) (b : block) (sender token : address)
    (recipients : list address) (amounts : list Z) (c c' : chain Ledger.t)
    (batchId : bytes32) :
  batchSend e b sender token recipients amounts c = (Success batchId, c') ->
  forall a, balance_in c' token a
            = balance_in c token a - (if a =? sender then sum_list amounts else 0)
              + credited a recipients amounts.
Proof.
  intros Hrun a.
  apply batchSend_success_inv in Hrun
    as (total & l0 & allowed & l1 & c2 & Hlen & Hne & Htot & Hl0 & Hallow & Hle & Hpull
        & -> & Hdist & ->).
  apply total_loop_sum in Htot; [|exact Hlen]. simpl in Htot. subst total.
  pose proof (distribute_balances _ _ _ _ _ _ _ l1 Hlen (with_token_lookup c token l1) Hdist a)
    as Hbal.
  change (balance_in (with_logs c2 _) token a) with (balance_in c2 token a).
  rewrite Hbal. unfold balance_in. rewrite Hl0.
  rewrite (transferFrom_balance _ _ _ _ _ _ a Hpull).
  destruct (a =? sender); destruct (a =? this e); lia.
Qed.

Lemma sum_list_map_add {A} (f g : A -> Z) (D : list A) :
  sum_list (map (fun a => f a + g a) D) = sum_list (map f D) + sum_list (map g D).
Proof. induction D as [|d D IH]; simpl; lia. Qed.

Lemma sum_indicator (r : address) (x : Z) (D : list address) :
  NoDup D -> r ∈ D -> sum_list (map (fun a => if r =? a then x else 0) D) = x.
Proof.
  induction 1 as [|d D Hd Hnd IH]; intros Hin.
  - inversion Hin.
  - simpl. destruct (Z.eqb_spec r d) as [->|Hne].
    + assert (Hzero : sum_list (map (fun a => if d =? a then x else 0) D) = 0).
      { clear IH Hnd Hin. induction D as [|d' D IH]; [reflexivity|]. simpl.
        destruct (Z.eqb_spec d d') as [->|Hne].
        - exfalso. apply Hd. left.
        - rewrite IH; [lia|]. intros Hin. apply Hd. right. exact Hin. }
      lia.
    + apply elem_of_cons in Hin as [Heq|Hin]; [contradiction|].
      rewrite (IH Hin). lia.
Qed.

Lemma credited_nil_amounts (a : address) (recipients : list address) :
  credited a recipients [] = 0.
Proof. destruct recipients; reflexivity. Qed.

(** Summed over identities that include every recipient once, the credits
    are the amounts. *)
Lemma credited_sum (D recipients : list address) (amounts : list Z) :
  NoDup D -> (forall r, r ∈ recipients -> r ∈ D) ->
  length recipients = length amounts ->
  sum_list (map (fun a => credited a recipients amounts) D) = sum_list amounts.
Proof.
  intros Hnd. revert amounts.
  induction recipients as [|r rs IH]; intros amounts Hsub Hlen.
  - destruct amounts; [|discriminate]. simpl.
    clear Hnd Hsub Hlen.
    induction D as [|d D IHD]; simpl; [reflexivity | rewrite IHD; reflexivity].
  - destruct amounts as [|x xs]; [discriminate|]. simpl in Hlen.
    cbn [credited]. rewrite sum_list_map_add.
    rewrite sum_indicator; [|exact Hnd|apply Hsub; left].
    rewrite IH; [reflexivity | | lia].
    intros r' Hr'. apply Hsub. right. exact Hr'.
Qed.

Lemma credited_not_listed (a : address) (recipients : list address) (amounts : list Z) :
  a ∉ recipients -> credited a recipients amounts = 0.
Proof.
  revert amounts. induction recipients as [|r rs IH]; intros amounts Hnot.
  - reflexivity.
  - destruct amounts as [|x xs]; [reflexivity|]. simpl.
    apply not_elem_of_cons in Hnot as [Hne Hnot].
    destruct (Z.eqb_spec r a) as [->|_]; [contradiction|].
    rewrite (IH xs Hnot). reflexivity.
Qed.

(** C1 (as the code has it): for every invocation of [batchSend] that
    succeeds on a plain token ledger and whose sender is not among the
    recipients, the sender's balance falls by the sum of the amounts, and
    the balances of the recipients, each identity counted once, rise by that
    same sum in total; the engine's own holding is back where it was (when
    the engine is neither the sender nor a recipient). *)
Theorem batchSend_conserves_value :
  forall (e : engine) (b : block) (sender token : address)
         (recipients : list address) (amounts : list Z) (c c' : chain Ledger.t)
         (batchId : bytes32),
    batchSend e b sender token recipients amounts c = (Success batchId, c') ->
    sender ∉ recipients ->
    balance_in c token sender - balance_in c' token sender = sum_list amounts /\
    sum_list (map (fun a => balance_in c' token a - balance_in c token a)
                  (remove_dups recipients)) = sum_list amounts /\
    (this e ∉ recipients -> this e <> sender ->
     balance_in c' token (this e) = balance_in c token (this e)).
Proof.
  intros e b sender token recipients amounts c c' batchId Hrun Hsender.
  pose proof (batchSend_balance_effect _ _ _ _ _ _ _ _ _ Hrun) as Heffect.
  apply batchSend_success_inv in Hrun as (? & ? & ? & ? & ? & Hlen & _).
  split; [|split].
  - rewrite (Heffect sender), Z.eqb_refl, (credited_not_listed _ _ _ Hsender). lia.
  - rewrite <- (credited_sum (remove_dups recipients) recipients amounts);
      [ | apply NoDup_remove_dups | intros r Hr; apply elem_of_remove_dups; exact Hr
        | exact Hlen ].
    f_equal. apply map_ext_in. intros a Ha.
    apply list_elem_of_In in Ha. rewrite elem_of_remove_dups in Ha.
    rewrite (Heffect a).
    destruct (Z.eqb_spec a sender) as [Heq|_]; [subst a; contradiction | lia].
  - intros Hthis Hne. rewrite (Heffect (this e)), (credited_not_listed _ _ _ Hthis).
    destruct (Z.eqb_spec (this e) sender) as [Heq|_]; [contradiction | lia].
Qed.

(** C1 on scenario A of the specification: two recipients, 1 and 2 USDC. *)
Lemma batchSend_conserves_value_witness :
  (Scenario.run_a = (Success (Scenario.batch_id (fst Scenario.run_a)), snd Scenario.run_a)) /\
  (Scenario.alice ∉ [Scenario.bob; Scenario.carol]) /\
  (balance_in (Scenario.chain0 true) Scenario.usdc Scenario.alice
   - balance_in (snd Scenario.run_a) Scenario.usdc Scenario.alice = 3000000).
Proof.
  assert (Hrun : Scenario.run_a
                 = (Success (Scenario.batch_id (fst Scenario.run_a)), snd Scenario.run_a))
    by (vm_compute; reflexivity).
  assert (Hsender : Scenario.alice ∉ [Scenario.bob; Scenario.carol]).
  { intros Hin. repeat (apply elem_of_cons in Hin as [Heq|Hin]; [discriminate|]).
    inversion Hin. }
  split; [exact Hrun|]. split; [exact Hsender|].
  exact (proj1 (batchSend_conserves_value _ _ _ _ _ _ _ _ _ Hrun Hsender)).
Defined.

(** C1 as stated fails when the sender lists itself as a recipient: the
    invocation succeeds and the sender's balance is what it was, while the
    amounts sum to 5. *)
Lemma conservation_counterexample :
  exists batchId c',
    batchSend Scenario.the_engine Scenario.the_block Scenario.alice Scenario.usdc
      [Scenario.alice] [5] (Scenario.chain0 true) = (Success batchId, c') /\
    balance_in (Scenario.chain0 true) Scenario.usdc Scenario.alice
      - balance_in c' Scenario.usdc Scenario.alice <> sum_list [5].
Proof.
  eexists. eexists. split; [vm_compute; reflexivity|].
  vm_compute. discriminate.
Qed.

(** ** The size limit *)

(** C3 on the code: a batch of 201 recipients that is valid otherwise
    (arrays of equal length, no zero address, every amount positive) is
    settled by [batchSend]: the sender pays the 201 amounts and every
    recipient is credited, although [MAX_RECIPIENTS] is 200. *)
Theorem batchSend_settles_201_recipients :
  length LargeBatch.recipients = 201%nat /\
  length LargeBatch.amounts = 201%nat /\
  forallb (fun r => negb (r =? 0)) LargeBatch.recipients = true /\
  forallb (fun x => 0 <? x) LargeBatch.amounts = true /\
  MAX_RECIPIENTS < Z.of_nat (length LargeBatch.recipients) /\
  is_success (fst LargeBatch.run) = true /\
  balance_in (snd LargeBatch.run) Scenario.usdc Scenario.alice = 10000000 - 201000 /\
  forallb (fun r => balance_in (snd LargeBatch.run) Scenario.usdc r =? 1000)
          LargeBatch.recipients = true /\
  length (logs (snd LargeBatch.run)) = 202%nat.
Proof. vm_compute. repeat split; reflexivity. Qed.

(** ** The owner's recovery function *)

Lemma emergencyWithdraw_not_owner {L : Type} `{Token : IERC20 L} (e : engine)
    (sender token : address) (amount : Z) (c : chain L) :
  sender <> owner e ->
  emergencyWithdraw e sender token amount c = (Reverted NotOwner, c).
Proof.
  intros Hne. unfold emergencyWithdraw, transact, emergencyWithdraw_body.
  destruct (Z.eqb_spec sender (owner e)) as [Heq|_]; [contradiction|]. reflexivity.
Qed.

(** Whatever the token answers, the owner's call commits what the token's
    [transfer] left behind: the returned flag is not looked at. *)
Lemma emergencyWithdraw_owner {L : Type} `{Token : IERC20 L} (e : engine)
    (token : address) (amount : Z) (c : chain L) (l l' : L) (ok : bool) :
  tokens c !! token = Some l ->
  transfer (this e) (owner e) amount l = Some (ok, l') ->
  emergencyWithdraw e (owner e) token amount c = (Success tt, with_token c token l').
Proof.
  intros Hl Hcall. unfold emergencyWithdraw, transact, emergencyWithdraw_body.
  rewrite Z.eqb_refl. simpl. unfold bind, external_call. rewrite Hl, Hcall. reflexivity.
Qed.

(** When the ledger carries the transfer out, exactly the requested amount
    moves from the engine's holding to the owner. *)
Lemma emergencyWithdraw_moves_amount (e : engine) (token : address) (amount : Z)
    (c c' : chain Ledger.t) (l : Ledger.t) :
  tokens c !! token = Some l ->
  Ledger.can_move l (this e) (owner e) amount = true ->
  emergencyWithdraw e (owner e) token amount c = (Success tt, c') ->
  forall a, balance_in c' token a
            = balance_in c token a - (if a =? this e then amount else 0)
              + (if a =? owner e then amount else 0).
Proof.
  intros Hl Hmove Hrun a.
  assert (Hcall : exists l', transfer (this e) (owner e) amount l = Some (true, l')).
  { simpl. unfold Ledger.do_transfer. rewrite Hmove. eexists. reflexivity. }
  destruct Hcall as [l' Hcall].
  rewrite (emergencyWithdraw_owner e token amount c l l' true Hl Hcall) in Hrun.
  inversion Hrun; subst c'.
  unfold balance_in. rewrite with_token_lookup, Hl.
  apply (transfer_balance _ _ _ _ _ a Hcall).
Qed.

(** C8 on the code: the deployer calls [emergencyWithdraw] for 5 units on
    a token that answers [false] when it refuses a transfer, once while
    blocklisted (the engine holds 7), once while the engine holds 3. Both
    calls succeed and no balance has moved. *)
Theorem emergencyWithdraw_succeeds_without_moving :
  owner Scenario.the_engine = Scenario.deployer /\
  emergencyWithdraw Scenario.the_engine Scenario.deployer Scenario.usdc 5
    Recovery.owner_blocked = (Success tt, Recovery.owner_blocked) /\
  balance_in Recovery.owner_blocked Scenario.usdc Scenario.holding = 7 /\
  emergencyWithdraw Scenario.the_engine Scenario.deployer Scenario.usdc 5
    Recovery.short_holding = (Success tt, Recovery.short_holding) /\
  balance_in Recovery.short_holding Scenario.usdc Scenario.holding = 3.
Proof. vm_compute. repeat split; reflexivity. Qed.

(** ** The end-to-end scenarios of the specification *)

(** Scenario A: two recipients, 1 and 2 USDC: 3 USDC are collected, two
    transfer events and one batch event are emitted, in that order. *)
Example scenario_two_recipients :
  let id := Scenario.batch_id (fst Scenario.run_a) in
  fst Scenario.run_a = Success id /\
  logs (snd Scenario.run_a)
  = [ TransferIndexed id Scenario.bob 1000000;
      TransferIndexed id Scenario.carol 2000000;
      BatchTransferIndexed id Scenario.usdc Scenario.alice 3000000 2 ] /\
  balance_in (snd Scenario.run_a) Scenario.usdc Scenario.alice = 7000000 /\
  balance_in (snd Scenario.run_a) Scenario.usdc Scenario.bob = 1000000 /\
  balance_in (snd Scenario.run_a) Scenario.usdc Scenario.carol = 2000000 /\
  balance_in (snd Scenario.run_a) Scenario.usdc Scenario.holding = 0.
Proof. vm_compute. repeat split; reflexivity. Qed.

(** Scenario B: one recipient and two amounts. *)
Example scenario_arity_mismatch :
  batchSend Scenario.the_engine Scenario.the_block Scenario.alice Scenario.usdc
    [Scenario.bob] [1000000; 2000000] (Scenario.chain0 true)
  = (Reverted ArraysLengthMismatch, Scenario.chain0 true).
Proof. vm_compute. reflexivity. Qed.

(** Scenario D: the allowance is 5 USDC and the batch asks for 6. *)
Example scenario_insufficient_allowance :
  batchSend Scenario.the_engine Scenario.the_block Scenario.alice Scenario.usdc
    [Scenario.bob; Scenario.carol] [2000000; 4000000] (Scenario.chain0 true)
  = (Reverted InsufficientAllowance, Scenario.chain0 true).
Proof. vm_compute. reflexivity. Qed.

(** The owner is the deployer, and nothing in the contract writes it. *)
Lemma constructor_owner (msg_sender self : address) :
  owner (constructor msg_sender self) = msg_sender.
Proof. reflexivity. Qed.

(** * Further properties of the contract *)

(** ** The checks of [batchSend] *)

(** On entries that are all in order the first loop adds the amounts up, and
    stops with the arithmetic panic as soon as the total leaves [uint256]. *)
Lemma total_loop_valid (recipients : list address) (amounts : list Z) (t0 : Z) :
  length recipients = length amounts ->
  Forall (fun r => r <> 0) recipients ->
  Forall (fun a => 0 < a) amounts ->
  0 <= t0 <= MAX_UINT256 ->
  total_loop recipients amounts t0
  = if MAX_UINT256 <? t0 + sum_list amounts then Reverted (Panic 0x11)
    else Success (t0 + sum_list amounts).
Proof.
  revert amounts t0. induction recipients as [|r rs IH]; intros amounts t0 Hlen Hrs Has Ht0.
  - destruct amounts; [|discriminate]. simpl. rewrite Z.add_0_r.
    destruct (MAX_UINT256 <? t0) eqn:H; [apply Z.ltb_lt in H; lia | reflexivity].
  - destruct amounts as [|a xs]; [discriminate|]. simpl in Hlen.
    apply Forall_cons in Hrs as [Hr Hrs]. apply Forall_cons in Has as [Ha Has].
    assert (Hsum : 0 <= sum_list xs).
    { clear -Has. induction Has as [|x xs Hx _ IHxs]; simpl; lia. }
    cbn [total_loop sum_list fold_right].
    destruct (Z.eqb_spec r 0) as [|_]; [contradiction|].
    destruct (Z.eqb_spec a 0) as [|_]; [lia|].
    unfold checked_add.
    destruct (MAX_UINT256 <? t0 + a) eqn:Hover.
    + apply Z.ltb_lt in Hover.
      destruct (MAX_UINT256 <? t0 + (a + fold_right Z.add 0 xs)) eqn:H; [reflexivity|].
      apply Z.ltb_ge in H. unfold sum_list in Hsum. lia.
    + apply Z.ltb_ge in Hover. rewrite (IH xs (t0 + a)); [|lia|assumption|assumption|lia].
      unfold sum_list. rewrite Z.add_assoc. reflexivity.
Qed.

(** The first loop stops at the first entry with a defect, the recipient's
    before the amount's. *)
Lemma total_loop_first_defect (recipients : list address) (amounts : list Z)
    (t0 : Z) (i : nat) (r : address) (a : Z) :
  recipients !! i = Some r -> amounts !! i = Some a ->
  Forall (fun r' => r' <> 0) (take i recipients) ->
  Forall (fun a' => 0 < a') (take i amounts) ->
  0 <= t0 -> t0 + sum_list (take i amounts) <= MAX_UINT256 ->
  (r = 0 -> total_loop recipients amounts t0 = Reverted ZeroAddress) /\
  (r <> 0 -> a = 0 -> total_loop recipients amounts t0 = Reverted ZeroAmount).
Proof.
  revert amounts t0 i. induction recipients as [|r0 rs IH]; intros amounts t0 i Hr Ha Hrs Has Ht0 Hsum.
  - discriminate.
  - destruct amounts as [|a0 xs]; [discriminate|].
    destruct i as [|i]; simpl in Hr, Ha.
    + inversion Hr; inversion Ha; subst r0 a0. split.
      * intros ->. reflexivity.
      * intros Hne ->. simpl. destruct (Z.eqb_spec r 0); [contradiction | reflexivity].
    + simpl in Hrs, Has, Hsum.
      apply Forall_cons in Hrs as [Hr0 Hrs]. apply Forall_cons in Has as [Ha0 Has].
      assert (Hrest : 0 <= sum_list (take i xs)).
      { clear -Has. induction Has as [|x l Hx _ IHl]; simpl; lia. }
      cbn [total_loop].
      destruct (Z.eqb_spec r0 0) as [|_]; [contradiction|].
      destruct (Z.eqb_spec a0 0) as [|_]; [lia|].
      unfold checked_add.
      destruct (MAX_UINT256 <? t0 + a0) eqn:Hover; [apply Z.ltb_lt in Hover; lia|].
      apply (IH xs (t0 + a0) i Hr Ha Hrs Has); lia.
Qed.

Section EngineChecks.
Context {L : Type} `{Token : IERC20 L}.

(** X1: [batchSend] rejects, before it calls the token and whatever the
    chain state is: arrays of different lengths with
    [ArraysLengthMismatch]; an empty batch with [ZeroAmount]; and otherwise
    the first entry with a defect, with [ZeroAddress] when its recipient is
    the zero address and with [ZeroAmount] when only its amount is zero. *)
Theorem batchSend_check_order :
  forall (e : engine) (b : block) (sender token : address)
         (recipients : list address) (amounts : list Z) (c : chain L),
    (length recipients <> length amounts ->
     batchSend e b sender token recipients amounts c = (Reverted ArraysLengthMismatch, c)) /\
    (recipients = [] -> amounts = [] ->
     batchSend e b sender token recipients amounts c = (Reverted ZeroAmount, c)) /\
    (length recipients = length amounts ->
     forall (i : nat) (r : address) (a : Z),
       recipients !! i = Some r -> amounts !! i = Some a ->
       Forall (fun r' => r' <> 0) (take i recipients) ->
       Forall (fun a' => 0 < a') (take i amounts) ->
       sum_list (take i amounts) <= MAX_UINT256 ->
       (r = 0 ->
        batchSend e b sender token recipients amounts c = (Reverted ZeroAddress, c)) /\
       (r <> 0 -> a = 0 ->
        batchSend e b sender token recipients amounts c = (Reverted ZeroAmount, c))).
Proof.
  intros e b sender token recipients amounts c. split; [|split].
  - intros Hlen. apply batchSend_failure_reverts. apply fail_arity. exact Hlen.
  - intros Hr Ha. apply batchSend_failure_reverts. apply fail_empty; assumption.
  - intros Hlen i r a Hr Ha Hrs Has Hsum.
    assert (Hne : recipients <> []) by (intros ->; discriminate).
    destruct (total_loop_first_defect recipients amounts 0 i r a Hr Ha Hrs Has
                ltac:(lia) ltac:(lia)) as [Hzero Hamount].
    split.
    + intros H0. apply batchSend_failure_reverts.
      apply fail_validation; auto.
    + intros Hr0 Ha0. apply batchSend_failure_reverts.
      apply fail_validation; auto.
Qed.

(** X2: a batch of well-formed entries whose amounts add up to more than
    [uint256] holds is stopped by the arithmetic panic, and nothing has
    changed. *)
Theorem batchSend_total_overflow :
  forall (e : engine) (b : block) (sender token : address)
         (recipients : list address) (amounts : list Z) (c : chain L),
    length recipients = length amounts -> recipients <> [] ->
    Forall (fun r => r <> 0) recipients ->
    Forall (fun a => 0 < a) amounts ->
    MAX_UINT256 < sum_list amounts ->
    batchSend e b sender token recipients amounts c = (Reverted (Panic 0x11), c).
Proof.
  intros e b sender token recipients amounts c Hlen Hne Hrs Has Hover.
  apply batchSend_failure_reverts. apply fail_validation; [assumption..|].
  rewrite (total_loop_valid recipients amounts 0 Hlen Hrs Has) by (unfold MAX_UINT256; lia).
  rewrite Z.add_0_l. apply Z.ltb_lt in Hover. rewrite Hover. reflexivity.
Qed.

(** The second loop appends one event for each disbursement and touches no
    token but the batch's. *)
Lemma distribute_trace (self token : address) (batchId : bytes32)
    (recipients : list address) (amounts : list Z) :
  forall c c' : chain L,
    length recipients = length amounts ->
    distribute self token batchId recipients amounts c = (Success tt, c') ->
    logs c' = logs c ++ transfer_events batchId recipients amounts /\
    forall other, other <> token -> tokens c' !! other = tokens c !! other.
Proof.
  revert amounts. induction recipients as [|r rs IH]; intros amounts c c' Hlen Hrun.
  - destruct amounts; [|discriminate]. simpl in Hrun. inversion Hrun; subst c'.
    split; [simpl; rewrite app_nil_r; reflexivity | reflexivity].
  - destruct amounts as [|x xs]; [discriminate|]. simpl in Hlen.
    cbn [distribute] in Hrun. unfold bind at 1 in Hrun.
    destruct (external_call token (transfer self r x) c) as [[ok|err] c1] eqn:Hcall;
      [|discriminate].
    apply external_call_success in Hcall as (l0 & l1 & Hl0 & Hcall & ->).
    destruct ok; cbn [negb] in Hrun; [|discriminate].
    unfold bind at 1 in Hrun. unfold emit in Hrun.
    destruct (IH xs _ c' ltac:(lia) Hrun) as [Hlogs Hframe].
    split.
    + rewrite Hlogs. simpl. rewrite <- app_assoc. reflexivity.
    + intros other Hother. rewrite (Hframe other Hother). simpl.
      apply lookup_insert_ne. congruence.
Qed.

(** X3: a successful [batchSend] appends to the event log one
    [TransferIndexed] for each entry, in the order of the arrays, and then
    one [BatchTransferIndexed] that carries the sum of the amounts and the
    number of recipients, all under the returned batch identifier; and it
    leaves the storage of every other token as it was. *)
Theorem batchSend_events :
  forall (e : engine) (b : block) (sender token : address)
         (recipients : list address) (amounts : list Z) (c c' : chain L)
         (batchId : bytes32),
    batchSend e b sender token recipients amounts c = (Success batchId, c') ->
    logs c' = logs c ++ transfer_events batchId recipients amounts
                ++ [BatchTransferIndexed batchId token sender (sum_list amounts)
                      (Z.of_nat (length recipients))] /\
    forall other, other <> token -> tokens c' !! other = tokens c !! other.
Proof.
  intros e b sender token recipients amounts c c' batchId Hrun.
  apply batchSend_success_inv in Hrun
    as (total & l0 & allowed & l1 & c2 & Hlen & Hne & Htot & Hl0 & Hallow & Hle & Hpull
        & Hid & Hdist & ->).
  apply total_loop_sum in Htot; [|exact Hlen]. simpl in Htot. subst total.
  destruct (distribute_trace _ _ _ _ _ _ _ Hlen Hdist) as [Hlogs Hframe].
  split.
  - simpl. rewrite Hlogs. simpl. rewrite <- app_assoc. reflexivity.
  - intros other Hother. simpl. rewrite (Hframe other Hother). simpl.
    apply lookup_insert_ne. congruence.
Qed.

End EngineChecks.

(** X1 on a batch whose second entry has both defects. *)
Lemma batchSend_check_order_witness :
  batchSend Scenario.the_engine Scenario.the_block Scenario.alice Scenario.usdc
    [Scenario.bob; 0; Scenario.carol] [5; 0; 7] (Scenario.chain0 true)
  = (Reverted ZeroAddress, Scenario.chain0 true).
Proof.
  destruct (batchSend_check_order Scenario.the_engine Scenario.the_block Scenario.alice
              Scenario.usdc [Scenario.bob; 0; Scenario.carol] [5; 0; 7]
              (Scenario.chain0 true)) as (_ & _ & H).
  refine (proj1 (H eq_refl 1%nat 0 0 eq_refl eq_refl _ _ _) eq_refl).
  - repeat constructor. discriminate.
  - repeat constructor.
  - vm_compute. discriminate.
Defined.

(** X2 on two amounts, the largest [uint256] and 1. *)
Lemma batchSend_total_overflow_witness :
  batchSend Scenario.the_engine Scenario.the_block Scenario.alice Scenario.usdc
    [Scenario.bob; Scenario.carol] [MAX_UINT256; 1] (Scenario.chain0 true)
  = (Reverted (Panic 0x11), Scenario.chain0 true).
Proof.
  apply batchSend_total_overflow.
  - reflexivity.
  - discriminate.
  - repeat constructor; discriminate.
  - repeat constructor.
  - vm_compute. reflexivity.
Defined.

(** X3 on scenario A. *)
Lemma batchSend_events_witness :
  logs (snd Scenario.run_a)
  = logs (Scenario.chain0 true)
      ++ transfer_events (Scenario.batch_id (fst Scenario.run_a))
           [Scenario.bob; Scenario.carol] [1000000; 2000000]
      ++ [BatchTransferIndexed (Scenario.batch_id (fst Scenario.run_a)) Scenario.usdc
            Scenario.alice (sum_list [1000000; 2000000]) 2].
Proof.
  assert (Hrun : Scenario.run_a
                 = (Success (Scenario.batch_id (fst Scenario.run_a)), snd Scenario.run_a))
    by (vm_compute; reflexivity).
  exact (proj1 (batchSend_events _ _ _ _ _ _ _ _ _ Hrun)).
Defined.

(** ** The settlement on the reference ledger *)

Lemma can_move_true (l : Ledger.t) (from to : address) (amount : Z) :
  from ∉ Ledger.blocked l -> to ∉ Ledger.blocked l ->
  amount <= Ledger.balance l from ->
  Ledger.balance l to + amount <= MAX_UINT256 ->
  Ledger.can_move l from to amount = true.
Proof.
  intros Hfrom Hto Hbal Hroom. unfold Ledger.can_move.
  rewrite (bool_decide_eq_false_2 _ Hfrom), (bool_decide_eq_false_2 _ Hto). simpl.
  apply andb_true_intro. split; apply Z.leb_le; assumption.
Qed.

Lemma transfer_keeps_rest (caller to : address) (amount : Z) (l l' : Ledger.t) (ok : bool) :
  transfer caller to amount l = Some (ok, l') ->
  Ledger.allowances l' = Ledger.allowances l /\ Ledger.blocked l' = Ledger.blocked l /\
  Ledger.strict l' = Ledger.strict l.
Proof.
  simpl. unfold Ledger.do_transfer, Ledger.fail.
  destruct (Ledger.can_move l caller to amount).
  - intros H. inversion H; subst l'. repeat split; reflexivity.
  - destruct (Ledger.strict l) eqn:Hs; intros H; inversion H; subst l'.
    repeat split; auto.
Qed.

Lemma transferFrom_allowed (caller from to : address) (amount : Z) (l l' : Ledger.t)
    (holder spender : address) :
  transferFrom caller from to amount l = Some (true, l') ->
  Ledger.allowed l' holder spender
  = Ledger.allowed l holder spender
    - (if (holder =? from) && (spender =? caller) then amount else 0).
Proof.
  simpl. unfold Ledger.do_transferFrom, Ledger.fail.
  destruct (Ledger.can_move l from to amount && (amount <=? Ledger.allowed l from caller)).
  - intros H. inversion H; subst l'; clear H. unfold Ledger.allowed. simpl.
    destruct (Z.eqb_spec holder from) as [->|Hh]; simpl.
    + destruct (Z.eqb_spec spender caller) as [->|Hs].
      * rewrite lookup_insert_eq. simpl. lia.
      * rewrite lookup_insert_ne by congruence. lia.
    + rewrite lookup_insert_ne by congruence. lia.
  - destruct (Ledger.strict l); intros H; inversion H.
Qed.

(** The second loop leaves the allowances of the token as they are. *)
Lemma distribute_allowances (self token : address) (batchId : bytes32)
    (recipients : list address) (amounts : list Z) :
  forall (c c' : chain Ledger.t) (holder spender : address),
    distribute self token batchId recipients amounts c = (Success tt, c') ->
    allowed_in c' token holder spender = allowed_in c token holder spender.
Proof.
  revert amounts. induction recipients as [|r rs IH]; intros amounts c c' holder spender Hrun.
  - simpl in Hrun. inversion Hrun. reflexivity.
  - destruct amounts as [|x xs]; [simpl in Hrun; inversion Hrun; reflexivity|].
    cbn [distribute] in Hrun. unfold bind at 1 in Hrun.
    destruct (external_call token (transfer self r x) c) as [[ok|err] c1] eqn:Hcall;
      [|discriminate].
    apply external_call_success in Hcall as (l0 & l1 & Hl0 & Hcall & ->).
    destruct ok; cbn [negb] in Hrun; [|discriminate].
    unfold bind at 1 in Hrun. unfold emit in Hrun.
    rewrite (IH xs _ c' holder spender Hrun).
    unfold allowed_in. simpl. rewrite lookup_insert_eq, Hl0. unfold Ledger.allowed.
    destruct (transfer_keeps_rest _ _ _ _ _ _ Hcall) as (-> & _). reflexivity.
Qed.

(** X4: a successful [batchSend] uses up exactly the sum of the amounts of
    the allowance the sender gave the engine, and no other allowance of the
    token changes. *)
Theorem batchSend_consumes_allowance :
  forall (e : engine) (b : block) (sender token : address)
         (recipients : list address) (amounts : list Z) (c c' : chain Ledger.t)
         (batchId : bytes32),
    batchSend e b sender token recipients amounts c = (Success batchId, c') ->
    forall holder spender,
      allowed_in c' token holder spender
      = allowed_in c token holder spender
        - (if (holder =? sender) && (spender =? this e) then sum_list amounts else 0).
Proof.
  intros e b sender token recipients amounts c c' batchId Hrun holder spender.
  apply batchSend_success_inv in Hrun
    as (total & l0 & allowed & l1 & c2 & Hlen & Hne & Htot & Hl0 & Hallow & Hle & Hpull
        & Hid & Hdist & ->).
  apply total_loop_sum in Htot; [|exact Hlen]. simpl in Htot. subst total.
  change (allowed_in (with_logs c2 _) token holder spender)
    with (allowed_in c2 token holder spender).
  rewrite (distribute_allowances _ _ _ _ _ _ _ holder spender Hdist).
  unfold allowed_in. rewrite with_token_lookup, Hl0.
  apply (transferFrom_allowed _ _ _ _ _ _ holder spender Hpull).
Qed.

(** X4 on scenario A: of the 5 USDC allowed, 3 are used. *)
Lemma batchSend_consumes_allowance_witness :
  allowed_in (snd Scenario.run_a) Scenario.usdc Scenario.alice Scenario.holding = 2000000.
Proof.
  assert (Hrun : Scenario.run_a
                 = (Success (Scenario.batch_id (fst Scenario.run_a)), snd Scenario.run_a))
    by (vm_compute; reflexivity).
  rewrite (batchSend_consumes_allowance _ _ _ _ _ _ _ _ _ Hrun).
  vm_compute. reflexivity.
Defined.

(** The second loop goes through when the engine holds the amounts, no
    party is blocklisted and no recipient's balance would leave [uint256]. *)
Lemma distribute_succeeds (self token : address) (batchId : bytes32)
    (recipients : list address) (amounts : list Z) :
  forall (c : chain Ledger.t) (l : Ledger.t),
    tokens c !! token = Some l ->
    length recipients = length amounts ->
    Forall (fun a => 0 < a) amounts ->
    self ∉ Ledger.blocked l ->
    Forall (fun r => r ∉ Ledger.blocked l) recipients ->
    sum_list amounts <= Ledger.balance l self ->
    Forall (fun r => Ledger.balance l r + sum_list amounts <= MAX_UINT256) recipients ->
    exists c', distribute self token batchId recipients amounts c = (Success tt, c').
Proof.
  revert amounts. induction recipients as [|r rs IH];
    intros amounts c l Hl Hlen Hpos Hself Hfree Hheld Hroom.
  - eexists. reflexivity.
  - destruct amounts as [|x xs]; [discriminate|]. simpl in Hlen.
    apply Forall_cons in Hpos as [Hx Hpos].
    apply Forall_cons in Hfree as [Hr Hfree].
    apply Forall_cons in Hroom as [Hroom_r Hroom].
    assert (Hsum : 0 <= sum_list xs).
    { clear -Hpos. induction Hpos as [|y ys Hy _ IHys]; simpl; lia. }
    simpl in Hheld, Hroom_r.
    assert (Hmove : Ledger.can_move l self r x = true)
      by (apply can_move_true; [assumption | assumption | lia | lia]).
    cbn [distribute]. unfold bind at 1. unfold external_call. rewrite Hl.
    simpl. unfold Ledger.do_transfer. rewrite Hmove. simpl.
    unfold bind at 1. unfold emit.
    set (l1 := {| Ledger.balances := Ledger.move l self r x;
                  Ledger.allowances := Ledger.allowances l;
                  Ledger.blocked := Ledger.blocked l;
                  Ledger.strict := Ledger.strict l |}).
    assert (Hbal : forall a, Ledger.balance l1 a
                   = Ledger.balance l a - (if a =? self then x else 0)
                     + (if a =? r then x else 0))
      by (intros a; apply move_balance).
    apply (IH xs _ l1).
    + apply with_token_lookup.
    + lia.
    + exact Hpos.
    + exact Hself.
    + exact Hfree.
    + rewrite Hbal, Z.eqb_refl. destruct (self =? r); lia.
    + apply Forall_forall. intros r' Hr'.
      rewrite Forall_forall in Hroom. specialize (Hroom r' Hr'). simpl in Hroom.
      rewrite Hbal. destruct (r' =? self); destruct (r' =? r); lia.
Qed.

(** X5: a batch settles whenever its entries are well formed, the total
    fits [uint256], the sender holds the total and has allowed the engine to
    spend it, no party is blocklisted by the token, and the balances of the
    engine and of the recipients stay within [uint256]. The call returns
    the batch identifier of the block, sender, token and recipient count. *)
Theorem batchSend_succeeds :
  forall (e : engine) (b : block) (sender token : address)
         (recipients : list address) (amounts : list Z) (c : chain Ledger.t)
         (l : Ledger.t),
    tokens c !! token = Some l ->
    length recipients = length amounts -> recipients <> [] ->
    Forall (fun r => r <> 0) recipients ->
    Forall (fun a => 0 < a) amounts ->
    sum_list amounts <= MAX_UINT256 ->
    sum_list amounts <= Ledger.allowed l sender (this e) ->
    sum_list amounts <= Ledger.balance l sender ->
    sender ∉ Ledger.blocked l -> this e ∉ Ledger.blocked l ->
    Forall (fun r => r ∉ Ledger.blocked l) recipients ->
    0 <= Ledger.balance l (this e) ->
    Ledger.balance l (this e) + sum_list amounts <= MAX_UINT256 ->
    Forall (fun r => Ledger.balance l r + 2 * sum_list amounts <= MAX_UINT256) recipients ->
    exists c',
      batchSend e b sender token recipients amounts c
      = (Success (make_batchId b sender token (Z.of_nat (length recipients))), c').
Proof.
  intros e b sender token recipients amounts c l Hl Hlen Hne Hrs Hpos Hfit Hallow Hbal
         Hsender Hthis Hfree Hheld Hroom_this Hroom.
  assert (Hsum : 0 <= sum_list amounts).
  { clear -Hpos. induction Hpos as [|y ys Hy _ IHys]; simpl; lia. }
  assert (Htot : total_loop recipients amounts 0 = Success (sum_list amounts)).
  { rewrite (total_loop_valid recipients amounts 0 Hlen Hrs Hpos)
      by (unfold MAX_UINT256; lia).
    rewrite Z.add_0_l.
    destruct (MAX_UINT256 <? sum_list amounts) eqn:H; [apply Z.ltb_lt in H; lia | reflexivity]. }
  assert (Hmove : Ledger.can_move l sender (this e) (sum_list amounts) = true)
    by (apply can_move_true; assumption).
  set (l1 := {| Ledger.balances := Ledger.move l sender (this e) (sum_list amounts);
                Ledger.allowances :=
                  <[(sender, this e) := Ledger.allowed l sender (this e) - sum_list amounts]>
                    (Ledger.allowances l);
                Ledger.blocked := Ledger.blocked l;
                Ledger.strict := Ledger.strict l |}).
  assert (Hpull : transferFrom (this e) sender (this e) (sum_list amounts) l = Some (true, l1)).
  { simpl. unfold Ledger.do_transferFrom. rewrite Hmove.
    apply Z.leb_le in Hallow. rewrite Hallow. reflexivity. }
  assert (Hbal1 : forall a, Ledger.balance l1 a
                  = Ledger.balance l a - (if a =? sender then sum_list amounts else 0)
                    + (if a =? this e then sum_list amounts else 0))
    by (intros a; apply move_balance).
  destruct (distribute_succeeds (this e) token
              (make_batchId b sender token (Z.of_nat (length recipients)))
              recipients amounts (with_token c token l1) l1) as [c2 Hdist].
  - apply with_token_lookup.
  - exact Hlen.
  - exact Hpos.
  - exact Hthis.
  - exact Hfree.
  - rewrite Hbal1, Z.eqb_refl. destruct (Z.eqb_spec (this e) sender) as [Heq|_]; [|lia].
    rewrite Heq. lia.
  - apply Forall_forall. intros r Hr. rewrite Forall_forall in Hroom.
    specialize (Hroom r Hr). simpl in Hroom. rewrite Hbal1.
    destruct (r =? sender); destruct (r =? this e); lia.
  - eexists. unfold batchSend. apply transact_success. unfold batchSend_body.
    rewrite Hlen, Nat.eqb_refl. simpl.
    destruct (length amounts =? 0)%nat eqn:H0.
    { apply Nat.eqb_eq in H0. destruct recipients; [congruence | simpl in Hlen; lia]. }
    unfold bind at 1. unfold lift. rewrite Htot.
    unfold bind at 1. unfold external_call at 1, view. rewrite Hl. simpl.
    apply Z.ltb_ge in Hallow. rewrite Hallow.
    rewrite (with_token_same _ _ _ Hl).
    unfold bind at 1. unfold external_call at 1. rewrite Hl.
    change (Ledger.do_transferFrom (this e) sender (this e) (sum_list amounts) l)
      with (transferFrom (this e) sender (this e) (sum_list amounts) l).
    rewrite Hpull. simpl.
    unfold bind at 1. rewrite <- Hlen. rewrite Hdist.
    unfold bind, emit, ret. reflexivity.
Qed.

(** X5 on scenario A. *)
Lemma batchSend_succeeds_witness :
  exists c',
    batchSend Scenario.the_engine Scenario.the_block Scenario.alice Scenario.usdc
      [Scenario.bob; Scenario.carol] [1000000; 2000000] (Scenario.chain0 true)
    = (Success (make_batchId Scenario.the_block Scenario.alice Scenario.usdc 2), c').
Proof.
  assert (Hfree : forall a, a <> Scenario.dave -> a ∉ Ledger.blocked (Scenario.ledger0 true)).
  { intros a Ha Hin. simpl in Hin. apply elem_of_singleton in Hin. contradiction. }
  apply (batchSend_succeeds Scenario.the_engine Scenario.the_block Scenario.alice
           Scenario.usdc [Scenario.bob; Scenario.carol] [1000000; 2000000]
           (Scenario.chain0 true) (Scenario.ledger0 true)).
  - reflexivity.
  - reflexivity.
  - discriminate.
  - repeat constructor; discriminate.
  - repeat constructor.
  - vm_compute. discriminate.
  - vm_compute. discriminate.
  - vm_compute. discriminate.
  - apply Hfree. discriminate.
  - apply Hfree. discriminate.
  - repeat constructor; apply Hfree; discriminate.
  - vm_compute. discriminate.
  - vm_compute. discriminate.
  - repeat constructor; vm_compute; discriminate.
Defined.

(** X6: after a successful [batchSend] every identity holds what it held
    before, less the sum of the amounts if it is the sender, plus the
    amounts of the entries that list it: a recipient listed several times
    is paid each time, and a sender that lists itself gets its own amount
    back. *)
Theorem batchSend_balances :
  forall (e : engine) (b : block) (sender token : address)
         (recipients : list address) (amounts : list Z) (c c' : chain Ledger.t)
         (batchId : bytes32),
    batchSend e b sender token recipients amounts c = (Success batchId, c') ->
    forall a, balance_in c' token a
              = balance_in c token a - (if a =? sender then sum_list amounts else 0)
                + credited a recipients amounts.
Proof. exact batchSend_balance_effect. Qed.

(** X6 on a batch that lists Bob twice and the sender once. *)
Lemma batchSend_balances_witness :
  exists batchId c',
    batchSend Scenario.the_engine Scenario.the_block Scenario.alice Scenario.usdc
      [Scenario.bob; Scenario.alice; Scenario.bob] [10; 20; 30] (Scenario.chain0 false)
    = (Success batchId, c') /\
    balance_in c' Scenario.usdc Scenario.bob = 40 /\
    balance_in c' Scenario.usdc Scenario.alice = 10000000 - 40.
Proof.
  destruct (batchSend Scenario.the_engine Scenario.the_block Scenario.alice Scenario.usdc
              [Scenario.bob; Scenario.alice; Scenario.bob] [10; 20; 30]
              (Scenario.chain0 false)) as [[batchId|err] c'] eqn:Hrun.
  - exists batchId, c'. split; [reflexivity|].
    pose proof (batchSend_balances _ _ _ _ _ _ _ _ _ Hrun) as Hbal.
    split; rewrite Hbal; vm_compute; reflexivity.
  - vm_compute in Hrun. discriminate.
Defined.

(** ** The owner's recovery function, on the reference ledger *)

(** X7: a caller that is not the deployer cannot use [emergencyWithdraw]:
    the call reverts with [NotOwner] before the token is reached, whatever
    the token and the amount are. *)
Theorem emergencyWithdraw_only_owner :
  forall (L : Type) (Token : IERC20 L) (e : engine) (sender token : address)
         (amount : Z) (c : chain L),
    sender <> owner e ->
    emergencyWithdraw e sender token amount c = (Reverted NotOwner, c).
Proof. intros L Token. exact emergencyWithdraw_not_owner. Qed.

(** X7 with Alice calling the engine deployed by another identity. *)
Lemma emergencyWithdraw_only_owner_witness :
  emergencyWithdraw Scenario.the_engine Scenario.alice Scenario.usdc 5
    Recovery.short_holding = (Reverted NotOwner, Recovery.short_holding).
Proof.
  apply emergencyWithdraw_only_owner. discriminate.
Defined.

(** X8: on a token that reverts when it refuses a transfer, a call of
    [emergencyWithdraw] by the owner that succeeds has moved exactly the
    amount from the engine's holding to the owner, and no other balance. *)
Theorem emergencyWithdraw_strict_moves :
  forall (e : engine) (token : address) (amount : Z) (c c' : chain Ledger.t)
         (l : Ledger.t),
    tokens c !! token = Some l ->
    Ledger.strict l = true ->
    emergencyWithdraw e (owner e) token amount c = (Success tt, c') ->
    forall a, balance_in c' token a
              = balance_in c token a - (if a =? this e then amount else 0)
                + (if a =? owner e then amount else 0).
Proof.
  intros e token amount c c' l Hl Hstrict Hrun a.
  destruct (Ledger.can_move l (this e) (owner e) amount) eqn:Hmove.
  - exact (emergencyWithdraw_moves_amount e token amount c c' l Hl Hmove Hrun a).
  - exfalso. unfold emergencyWithdraw in Hrun. rewrite transact_success in Hrun.
    unfold emergencyWithdraw_body in Hrun. rewrite Z.eqb_refl in Hrun. cbn [negb] in Hrun.
    unfold bind, external_call in Hrun. rewrite Hl in Hrun.
    cbn [transfer Ledger.token] in Hrun.
    unfold Ledger.do_transfer, Ledger.fail in Hrun.
    rewrite Hmove, Hstrict in Hrun. discriminate.
Qed.

(** X8 on 7 stray units of which the deployer recovers 5. *)
Lemma emergencyWithdraw_strict_moves_witness :
  fst StrayTokens.recovered = Success tt /\
  balance_in (snd StrayTokens.recovered) Scenario.usdc Scenario.holding = 2 /\
  balance_in (snd StrayTokens.recovered) Scenario.usdc Scenario.deployer = 5.
Proof.
  assert (Hrun : emergencyWithdraw Scenario.the_engine (owner Scenario.the_engine)
                   Scenario.usdc 5 StrayTokens.chain7
                 = (Success tt, snd StrayTokens.recovered))
    by (vm_compute; reflexivity).
  assert (Hl : tokens StrayTokens.chain7 !! Scenario.usdc = Some StrayTokens.ledger7)
    by reflexivity.
  split; [vm_compute; reflexivity|].
  split.
  - rewrite (emergencyWithdraw_strict_moves _ _ _ _ _ _ Hl eq_refl Hrun Scenario.holding).
    vm_compute. reflexivity.
  - rewrite (emergencyWithdraw_strict_moves _ _ _ _ _ _ Hl eq_refl Hrun Scenario.deployer).
    vm_compute. reflexivity.
Defined.

(** ** The range of [estimateGas] *)

(** X9: [estimateGas] answers [50000 + n * 35000] up to the largest count
    for which that number fits [uint256], and is stopped by the arithmetic
    panic for every larger count. *)
Theorem estimateGas_range :
  forall n : Z,
    0 <= n ->
    (n <= (MAX_UINT256 - 50000) / 35000 ->
     estimateGas n = Success (50000 + n * 35000)) /\
    ((MAX_UINT256 - 50000) / 35000 < n ->
     estimateGas n = Reverted (Panic 0x11)).
Proof.
  intros n Hn.
  pose proof (Z.div_mod (MAX_UINT256 - 50000) 35000 ltac:(lia)) as Hdiv.
  pose proof (Z.mod_pos_bound (MAX_UINT256 - 50000) 35000 ltac:(lia)) as Hmod.
  unfold estimateGas, checked_mul, checked_add.
  split; intros Hq.
  - destruct (MAX_UINT256 <? n * 35000) eqn:H1; [apply Z.ltb_lt in H1; lia|].
    destruct (MAX_UINT256 <? 50000 + n * 35000) eqn:H2; [apply Z.ltb_lt in H2; lia|].
    reflexivity.
  - destruct (MAX_UINT256 <? n * 35000) eqn:H1; [reflexivity|].
    destruct (MAX_UINT256 <? 50000 + n * 35000) eqn:H2; [reflexivity|].
    apply Z.ltb_ge in H2. lia.
Qed.

(** X9 at the largest [uint256]. *)
Lemma estimateGas_range_witness :
  estimateGas MAX_UINT256 = Reverted (Panic 0x11).
Proof.
  refine (proj2 (estimateGas_range MAX_UINT256 _) _).
  - vm_compute. discriminate.
  - vm_compute. reflexivity.
Defined.

(** * Further properties of the client library *)

(** ** What the validator accepts *)

(** X10: [validateBatchTransfer] answers [valid: true] exactly for the
    batches of 1 to 200 entries, with as many amounts as recipients, in
    which every recipient is a non-empty string other than the zero address
    and every amount is positive. *)
Theorem validate_accepts_iff :
  forall (recipients : list string) (amounts : list Z),
    valid (validateBatchTransfer recipients amounts) = true <->
    (1 <= length recipients <= 200)%nat /\ length recipients = length amounts /\
    forall j, entry_ok recipients amounts j.
Proof.
  intros recipients amounts. split.
  - unfold validateBatchTransfer, check_batch.
    destruct (length recipients =? 0)%nat eqn:H0; [discriminate|].
    apply Nat.eqb_neq in H0.
    destruct (length recipients =? length amounts)%nat eqn:Hlen; [|discriminate].
    apply Nat.eqb_eq in Hlen. simpl.
    destruct (200 <? length recipients)%nat eqn:Hbig; [discriminate|].
    apply Nat.ltb_ge in Hbig.
    destruct (check_entries 0 recipients amounts) as [err|] eqn:Hc; [discriminate|].
    intros _. split; [lia|]. split; [exact Hlen|].
    exact (check_entries_none 0 recipients amounts Hlen Hc).
  - intros (Hsize & Hlen & Hok).
    destruct (validate_check_order recipients amounts) as (_ & _ & _ & _ & H).
    rewrite (H Hlen Hsize Hok). reflexivity.
Qed.

(** ** From the client's checks to the contract's *)

Lemma hex_value_range (c : ascii) (d : Z) : hex_value c = Some d -> 0 <= d <= 15.
Proof.
  destruct c as [[] [] [] [] [] [] [] []]; vm_compute; intros H;
    try discriminate; inversion H; subst d; split; discriminate.
Qed.

Lemma hex_value_zero (c : ascii) : hex_value c = Some 0 -> c = "0"%char.
Proof.
  destruct c as [[] [] [] [] [] [] [] []]; vm_compute; intros H;
    try discriminate; reflexivity.
Qed.

(** A digit string reads as a number between [acc * 16 ^ n] and
    [(acc + 1) * 16 ^ n], [n] its length. *)
Lemma hex_number_range (s : string) (acc v : Z) :
  0 <= acc -> hex_number acc s = Some v ->
  acc * 16 ^ Z.of_nat (String.length s) <= v < (acc + 1) * 16 ^ Z.of_nat (String.length s).
Proof.
  revert acc. induction s as [|c r IH]; intros acc Hacc Hv.
  - simpl in *. inversion Hv. lia.
  - simpl in Hv. destruct (hex_value c) as [d|] eqn:Hd; [|discriminate].
    apply hex_value_range in Hd.
    apply IH in Hv; [|lia].
    cbn [String.length]. rewrite Nat2Z.inj_succ, Z.pow_succ_r by lia.
    nia.
Qed.

Lemma hex_number_zero (s : string) (acc : Z) :
  0 <= acc -> hex_number acc s = Some 0 ->
  acc = 0 /\ s = String.string_of_list_ascii (repeat "0"%char (String.length s)).
Proof.
  revert acc. induction s as [|c r IH]; intros acc Hacc Hv.
  - simpl in *. inversion Hv. auto.
  - simpl in Hv. destruct (hex_value c) as [d|] eqn:Hd; [|discriminate].
    pose proof (hex_value_range _ _ Hd) as Hrange.
    apply IH in Hv as [H0 Hr]; [|lia].
    assert (d = 0) by lia. subst d. apply hex_value_zero in Hd. subst c.
    split; [lia|]. cbn [String.length repeat String.string_of_list_ascii]. f_equal. exact Hr.
Qed.

(** What a string that reads as an address looks like. *)
Lemma parse_address_inv (s : string) (v : Z) :
  parse_address s = Some v ->
  exists digits, s = String "0" (String "x" digits) /\
                 String.length digits = 40%nat /\ hex_number 0 digits = Some v.
Proof.
  unfold parse_address.
  destruct s as [|c0 s]; [discriminate|].
  destruct c0 as [[] [] [] [] [] [] [] []]; try discriminate.
  destruct s as [|c1 digits]; [discriminate|].
  destruct c1 as [[] [] [] [] [] [] [] []]; try discriminate.
  destruct (String.length digits =? 40)%nat eqn:Hlen; [|discriminate].
  apply Nat.eqb_eq in Hlen. intros H. exists digits. auto.
Qed.

(** The zero address is the only string that is read as address 0. *)
Lemma parse_address_zero (s : string) : parse_address s = Some 0 -> s = ZERO_ADDRESS.
Proof.
  intros H. apply parse_address_inv in H as (digits & -> & Hlen & H).
  apply hex_number_zero in H as [_ H]; [|lia].
  rewrite Hlen in H. rewrite H. reflexivity.
Qed.

Lemma parse_address_range (s : string) (v : Z) :
  parse_address s = Some v -> 0 <= v < 2 ^ 160.
Proof.
  intros H. apply parse_address_inv in H as (digits & -> & Hlen & H).
  apply hex_number_range in H; [|lia]. rewrite Hlen in H.
  change (16 ^ Z.of_nat 40) with (2 ^ 160) in H. lia.
Qed.

Lemma calculateTotalAmount_sum (amounts : list Z) :
  calculateTotalAmount amounts = sum_list amounts.
Proof.
  unfold calculateTotalAmount.
  assert (H : forall acc, fold_left (fun sum amount => sum + amount) amounts acc
                          = acc + sum_list amounts).
  { induction amounts as [|a xs IH]; intros acc; simpl; [lia|]. rewrite IH. lia. }
  rewrite H. lia.
Qed.

Lemma clean_entries_are_well_formed (recipients : list string) (amounts : list Z)
    (addresses : list address) :
  length recipients = length amounts ->
  (forall j, entry_ok recipients amounts j) ->
  Forall2 (fun s v => parse_address s = Some v) recipients addresses ->
  Forall (fun r => r <> 0) addresses /\ Forall (fun a => 0 < a) amounts.
Proof.
  intros Hlen Hok Hparse. revert amounts Hlen Hok.
  induction Hparse as [|s v rs vs Hsv Hrest IH]; intros amounts Hlen Hok.
  - destruct amounts; [|discriminate]. split; constructor.
  - destruct amounts as [|a xs]; [discriminate|]. simpl in Hlen.
    destruct (Hok 0%nat s a eq_refl eq_refl) as [Hs Ha].
    destruct (IH xs ltac:(lia)) as [Hvs Hxs].
    { intros j r' a' Hr' Ha'. exact (Hok (S j) r' a' Hr' Ha'). }
    split; constructor; try assumption.
    + intros ->. apply parse_address_zero in Hsv. subst s. discriminate.
    + unfold bad_amount in Ha. apply Z.leb_gt in Ha. exact Ha.
Qed.

(** X11: a batch that [validateBatchTransfer] accepts, whose recipients
    read as addresses and whose amounts add up within [uint256], passes
    every check [batchSend] makes on its arguments, and the total the
    contract computes is the one [calculateTotalAmount] gives. *)
Theorem validated_batch_passes_contract_checks :
  forall (recipients : list string) (amounts : list Z) (addresses : list address),
    valid (validateBatchTransfer recipients amounts) = true ->
    Forall2 (fun s v => parse_address s = Some v) recipients addresses ->
    sum_list amounts <= MAX_UINT256 ->
    validated addresses amounts (calculateTotalAmount amounts).
Proof.
  intros recipients amounts addresses Hvalid Hparse Hfit.
  apply validate_accepts_iff in Hvalid as (Hsize & Hlen & Hok).
  destruct (clean_entries_are_well_formed _ _ _ Hlen Hok Hparse) as [Hrs Hpos].
  pose proof (Forall2_length _ _ _ Hparse) as Hlen'.
  assert (Hlen'' : length addresses = length amounts)
    by (transitivity (length recipients); [symmetry; exact Hlen' | exact Hlen]).
  unfold validated. split; [exact Hlen''|]. split.
  - intros ->. simpl in Hlen'. lia.
  - rewrite total_loop_valid; [|exact Hlen''|assumption|assumption|unfold MAX_UINT256; lia].
    rewrite Z.add_0_l, calculateTotalAmount_sum.
    destruct (MAX_UINT256 <? sum_list amounts) eqn:H; [apply Z.ltb_lt in H; lia | reflexivity].
Qed.

(** X11 on the batch of the repository's encoding test. *)
Lemma validated_batch_passes_contract_checks_witness :
  validated [0xbbbbbbbbbbbbbbbbbbbbbbbbbbbbbbbbbbbbbbbb;
             0xcccccccccccccccccccccccccccccccccccccccc]
    ClientScenario.test_amounts 3000000.
Proof.
  apply (validated_batch_passes_contract_checks ClientScenario.test_recipients
           ClientScenario.test_amounts).
  - reflexivity.
  - repeat constructor.
  - vm_compute. discriminate.
Defined.

(** ** The calldata encoder *)

Lemma be_bytes_length (n : nat) (v : Z) : length (be_bytes n v) = n.
Proof.
  revert v. induction n as [|k IH]; intros v; [reflexivity|].
  cbn [be_bytes]. rewrite length_app, IH. simpl. lia.
Qed.

Lemma hex_of_bytes_length (bs : bytes) : String.length (hex_of_bytes bs) = (2 * length bs)%nat.
Proof. induction bs as [|b r IH]; simpl; [reflexivity|]. rewrite IH. lia. Qed.

(** A word of [n] bytes determines the number below [256 ^ n] it holds. *)
Lemma be_bytes_inj (n : nat) (v w : Z) :
  0 <= v < 256 ^ Z.of_nat n -> 0 <= w < 256 ^ Z.of_nat n ->
  be_bytes n v = be_bytes n w -> v = w.
Proof.
  revert v w. induction n as [|k IH]; intros v w Hv Hw Heq.
  - simpl in Hv, Hw. lia.
  - rewrite Nat2Z.inj_succ, Z.pow_succ_r in Hv, Hw by lia.
    simpl in Heq. apply app_inj_2 in Heq as [Hhigh Hlow]; [|reflexivity].
    inversion Hlow as [Hlow'].
    change 255 with (Z.ones 8) in Hlow'. rewrite !Z.land_ones in Hlow' by lia.
    rewrite !Z.shiftr_div_pow2 in Hhigh by lia.
    change (2 ^ 8) with 256 in *.
    apply IH in Hhigh.
    + rewrite (Z.div_mod v 256), (Z.div_mod w 256) by lia. congruence.
    + split; [apply Z.div_pos; lia | apply Z.div_lt_upper_bound; lia].
    + split; [apply Z.div_pos; lia | apply Z.div_lt_upper_bound; lia].
Qed.

(** The items an array encodes, when all of them are accepted. *)
Lemma encode_all_addresses (l : list string) (bs : bytes) :
  encode_all encode_address l = Returned bs <->
  exists vs, Forall2 (fun s v => parse_address s = Some v) l vs /\
             bs = flat_map (be_bytes 32) vs.
Proof.
  revert bs. induction l as [|s l IH]; intros bs; simpl.
  - split.
    + intros H. inversion H. exists []. split; [constructor | reflexivity].
    + intros (vs & Hvs & ->). inversion Hvs. reflexivity.
  - unfold encode_address at 1. destruct (parse_address s) as [v|] eqn:Hs.
    + destruct (encode_all encode_address l) as [ws|m] eqn:Hl.
      * split.
        -- intros H. inversion H; subst bs.
           destruct (proj1 (IH ws) eq_refl) as (vs & Hvs & ->).
           exists (v :: vs). split; [constructor; assumption | reflexivity].
        -- intros (vs & Hvs & ->). inversion Hvs as [|? v' ? vs' Hv' Hvs']; subst.
           rewrite Hs in Hv'. inversion Hv'; subst v'.
           assert (Hws : Returned ws = Returned (flat_map (be_bytes 32) vs'))
             by (apply IH; eauto).
           inversion Hws. reflexivity.
      * split; [discriminate|].
        intros (vs & Hvs & ->). inversion Hvs as [|? v' ? vs' Hv' Hvs']; subst.
        assert (Hws : @Thrown bytes m = Returned (flat_map (be_bytes 32) vs'))
          by (apply IH; eauto).
        discriminate.
    + split; [discriminate|].
      intros (vs & Hvs & ->). inversion Hvs as [|? v' ? vs' Hv' Hvs']; subst. congruence.
Qed.

Lemma encode_all_amounts (l : list Z) (bs : bytes) :
  encode_all encode_uint256 l = Returned bs <->
  Forall (fun a => 0 <= a <= MAX_UINT256) l /\ bs = flat_map (be_bytes 32) l.
Proof.
  revert bs. induction l as [|a l IH]; intros bs; simpl.
  - split.
    + intros H. inversion H. split; [constructor | reflexivity].
    + intros [_ ->]. reflexivity.
  - unfold encode_uint256 at 1.
    destruct ((0 <=? a) && (a <=? MAX_UINT256)) eqn:Ha.
    + apply andb_true_iff in Ha as [Ha1 Ha2]. apply Z.leb_le in Ha1, Ha2.
      destruct (encode_all encode_uint256 l) as [ws|m] eqn:Hl.
      * destruct (proj1 (IH ws) eq_refl) as [Hl' ->]. split.
        -- intros H. inversion H. split; [constructor; [lia | assumption] | reflexivity].
        -- intros [_ ->]. reflexivity.
      * split; [discriminate|]. intros [Hall ->].
        apply Forall_cons in Hall as [_ Hall].
        assert (Hws : @Thrown bytes m = Returned (flat_map (be_bytes 32) l))
          by (apply IH; auto).
        discriminate.
    + split; [discriminate|]. intros [Hall _].
      apply Forall_cons in Hall as [Hrange _].
      apply andb_false_iff in Ha as [Ha|Ha]; [apply Z.leb_gt in Ha | apply Z.leb_gt in Ha]; lia.
Qed.

Lemma flat_map_words_length (vs : list Z) :
  length (flat_map (be_bytes 32) vs) = (32 * length vs)%nat.
Proof.
  induction vs as [|v vs IH]; [reflexivity|].
  cbn [flat_map]. rewrite length_app, be_bytes_length, IH. simpl. lia.
Qed.

Lemma flat_map_words_inj (vs ws : list Z) :
  length vs = length ws ->
  Forall (fun v => 0 <= v < 256 ^ 32) vs -> Forall (fun v => 0 <= v < 256 ^ 32) ws ->
  flat_map (be_bytes 32) vs = flat_map (be_bytes 32) ws -> vs = ws.
Proof.
  revert ws. induction vs as [|v vs IH]; intros ws Hlen Hvs Hws Heq.
  - destruct ws; [reflexivity | discriminate].
  - destruct ws as [|w ws]; [discriminate|]. simpl in Hlen. cbn [flat_map] in Heq.
    apply Forall_cons in Hvs as [Hv Hvs]. apply Forall_cons in Hws as [Hw Hws].
    apply app_inj_1 in Heq as [Hhead Htail]; [|rewrite !be_bytes_length; reflexivity].
    f_equal.
    + apply (be_bytes_inj 32); assumption.
    + apply IH; [lia | assumption..].
Qed.

(** The shape of the bytes [getBatchTransferCalldata] encodes. *)
Lemma calldata_bytes_inv (token : string) (recipients : list string) (amounts : list Z)
    (bs : bytes) :
  calldata_bytes token recipients amounts = Returned bs <->
  length recipients = length amounts /\
  exists t vs,
    parse_address token = Some t /\
    Forall2 (fun s v => parse_address s = Some v) recipients vs /\
    Forall (fun a => 0 <= a <= MAX_UINT256) amounts /\
    bs = toFunctionSelector batchSend_signature
           ++ be_bytes 32 t ++ be_bytes 32 96
           ++ be_bytes 32 (96 + 32 * (1 + Z.of_nat (length recipients)))
           ++ be_bytes 32 (Z.of_nat (length recipients)) ++ flat_map (be_bytes 32) vs
           ++ be_bytes 32 (Z.of_nat (length amounts)) ++ flat_map (be_bytes 32) amounts.
Proof.
  unfold calldata_bytes, encodeFunctionData_batchSend.
  destruct (length recipients =? length amounts)%nat eqn:Hlen; simpl.
  2:{ apply Nat.eqb_neq in Hlen. split; [discriminate | intros [H _]; contradiction]. }
  apply Nat.eqb_eq in Hlen.
  unfold encode_address at 1.
  destruct (parse_address token) as [t|] eqn:Ht.
  2:{ split; [discriminate|]. intros (_ & t & vs & H & _). discriminate. }
  destruct (encode_all encode_address recipients) as [rs|m] eqn:Hrs.
  2:{ split; [discriminate|]. intros (_ & t' & vs & _ & Hvs & _).
      assert (H : @Thrown bytes m = Returned (flat_map (be_bytes 32) vs))
        by (rewrite <- Hrs; apply encode_all_addresses; eauto).
      discriminate. }
  apply encode_all_addresses in Hrs as (vs & Hvs & ->).
  destruct (encode_all encode_uint256 amounts) as [xs|m] eqn:Hxs.
  2:{ split; [discriminate|]. intros (_ & t' & vs' & _ & _ & Hall & _).
      assert (H : @Thrown bytes m = Returned (flat_map (be_bytes 32) amounts))
        by (rewrite <- Hxs; apply encode_all_amounts; auto).
      discriminate. }
  apply encode_all_amounts in Hxs as [Hall ->].
  split.
  - intros H. inversion H; subst bs. split; [exact Hlen|]. exists t, vs. auto.
  - intros (_ & t' & vs' & Ht' & Hvs' & _ & ->).
    inversion Ht'; subst t'.
    assert (vs' = vs).
    { clear -Hvs Hvs'. revert vs' Hvs'.
      induction Hvs as [|s v l vs Hs _ IH]; intros vs' Hvs'.
      - inversion Hvs'. reflexivity.
      - inversion Hvs' as [|? v' ? vs'' Hs' Hrest]; subst.
        rewrite Hs in Hs'. inversion Hs'; subst. f_equal. apply IH. exact Hrest. }
    subst vs'. reflexivity.
Qed.

Lemma selector_length : length (toFunctionSelector batchSend_signature) = 4%nat.
Proof. rewrite batchSend_selector_value. reflexivity. Qed.

Lemma calldata_bytes_length (token : string) (recipients : list string)
    (amounts : list Z) (bs : bytes) :
  calldata_bytes token recipients amounts = Returned bs ->
  length bs = (4 + 32 * (5 + 2 * length recipients))%nat.
Proof.
  intros H. apply calldata_bytes_inv in H as (Hlen & t & vs & _ & Hvs & _ & ->).
  apply Forall2_length in Hvs.
  rewrite !length_app, selector_length, !be_bytes_length, !flat_map_words_length.
  rewrite <- Hvs, <- Hlen. lia.
Qed.


(** X13: the calldata of a batch of [n] entries is [0x] followed by
    [2 * (4 + 32 * (5 + 2 * n))] hex digits: the selector and [5 + 2 * n]
    words of 32 bytes. *)
Theorem calldata_length :
  forall (token : string) (recipients : list string) (amounts : list Z) (out : string),
    getBatchTransferCalldata token recipients amounts = Returned out ->
    String.length out = (2 + 2 * (4 + 32 * (5 + 2 * length recipients)))%nat.
Proof.
  intros token recipients amounts out. unfold getBatchTransferCalldata.
  destruct (calldata_bytes token recipients amounts) as [bs|m] eqn:Hbs; [|discriminate].
  intros H. inversion H; subst out.
  apply calldata_bytes_length in Hbs.
  change ("0x" +:+ hex_of_bytes bs) with (String "0" (String "x" (hex_of_bytes bs))).
  cbn [String.length]. rewrite hex_of_bytes_length, Hbs. reflexivity.
Qed.

(** X13 on the input of the repository's encoding test: 4 + 9 * 32 bytes. *)
Lemma calldata_length_witness :
  exists out,
    getBatchTransferCalldata ClientScenario.test_token ClientScenario.test_recipients
      ClientScenario.test_amounts = Returned out /\
    String.length out = 586%nat.
Proof.
  destruct (getBatchTransferCalldata ClientScenario.test_token ClientScenario.test_recipients
              ClientScenario.test_amounts) as [out|m] eqn:H.
  - exists out. split; [reflexivity|].
    exact (calldata_length _ _ _ out H).
  - vm_compute in H. discriminate.
Defined.

Lemma hex_digit_inj (d d' : Z) :
  0 <= d <= 15 -> 0 <= d' <= 15 -> hex_digit d = hex_digit d' -> d = d'.
Proof.
  intros Hd Hd'.
  assert (Hcases : forall x, 0 <= x <= 15 ->
            x = 0 \/ x = 1 \/ x = 2 \/ x = 3 \/ x = 4 \/ x = 5 \/ x = 6 \/ x = 7 \/
            x = 8 \/ x = 9 \/ x = 10 \/ x = 11 \/ x = 12 \/ x = 13 \/ x = 14 \/ x = 15)
    by (intros x Hx; lia).
  destruct (Hcases d Hd) as [->|[->|[->|[->|[->|[->|[->|[->|[->|[->|[->|[->|[->|[->|[->| ->]]]]]]]]]]]]]]];
  destruct (Hcases d' Hd') as [->|[->|[->|[->|[->|[->|[->|[->|[->|[->|[->|[->|[->|[->|[->| ->]]]]]]]]]]]]]]];
  vm_compute; intros H; try reflexivity; discriminate.
Qed.

Lemma byte_nibbles (b : Z) :
  0 <= b < 256 ->
  0 <= Z.shiftr b 4 <= 15 /\ 0 <= Z.land b 15 <= 15 /\
  b = 16 * Z.shiftr b 4 + Z.land b 15.
Proof.
  intros Hb. rewrite Z.shiftr_div_pow2 by lia.
  change 15 with (Z.ones 4). rewrite Z.land_ones by lia.
  change (2 ^ 4) with 16. change (Z.ones 4) with 15.
  pose proof (Z.div_mod b 16 ltac:(lia)). pose proof (Z.mod_pos_bound b 16 ltac:(lia)).
  assert (0 <= b / 16) by (apply Z.div_pos; lia).
  assert (b / 16 < 16) by (apply Z.div_lt_upper_bound; lia).
  lia.
Qed.

Lemma hex_of_bytes_inj (bs bs' : bytes) :
  Forall (fun b => 0 <= b < 256) bs -> Forall (fun b => 0 <= b < 256) bs' ->
  hex_of_bytes bs = hex_of_bytes bs' -> bs = bs'.
Proof.
  intros Hbs. revert bs'. induction Hbs as [|b bs Hb _ IH]; intros bs' Hbs' Heq.
  - destruct bs'; [reflexivity | discriminate].
  - destruct Hbs' as [|b' bs' Hb' Hbs']; [discriminate|].
    simpl in Heq. inversion Heq as [[Hhigh Hlow Hrest]].
    destruct (byte_nibbles b Hb) as (H1 & H2 & H3).
    destruct (byte_nibbles b' Hb') as (H1' & H2' & H3').
    apply hex_digit_inj in Hhigh; [|assumption..].
    apply hex_digit_inj in Hlow; [|assumption..].
    f_equal; [lia | apply IH; assumption].
Qed.

Lemma be_bytes_are_bytes (n : nat) (v : Z) : Forall (fun b => 0 <= b < 256) (be_bytes n v).
Proof.
  revert v. induction n as [|k IH]; intros v; [constructor|].
  cbn [be_bytes]. apply Forall_app. split; [apply IH|].
  constructor; [|constructor].
  change 255 with (Z.ones 8). rewrite Z.land_ones by lia.
  apply Z.mod_pos_bound. lia.
Qed.

Lemma flat_map_words_are_bytes (vs : list Z) :
  Forall (fun b => 0 <= b < 256) (flat_map (be_bytes 32) vs).
Proof.
  induction vs as [|v vs IH]; [constructor|].
  cbn [flat_map]. apply Forall_app. split; [apply be_bytes_are_bytes | exact IH].
Qed.

Lemma calldata_bytes_are_bytes (token : string) (recipients : list string)
    (amounts : list Z) (bs : bytes) :
  calldata_bytes token recipients amounts = Returned bs ->
  Forall (fun b => 0 <= b < 256) bs.
Proof.
  intros H. apply calldata_bytes_inv in H as (_ & t & vs & _ & _ & _ & ->).
  apply Forall_app_2; [rewrite batchSend_selector_value; repeat constructor; lia|].
  do 4 (apply Forall_app_2; [apply be_bytes_are_bytes|]).
  apply Forall_app_2; [apply flat_map_words_are_bytes|].
  apply Forall_app_2; [apply be_bytes_are_bytes | apply flat_map_words_are_bytes].
Qed.

Lemma parsed_alike (l l' : list string) (vs : list Z) :
  Forall2 (fun s v => parse_address s = Some v) l vs ->
  Forall2 (fun s v => parse_address s = Some v) l' vs ->
  Forall2 (fun r r' => parse_address r = parse_address r') l l'.
Proof.
  intros H. revert l'. induction H as [|s v l vs Hs _ IH]; intros l' H'.
  - inversion H'. constructor.
  - inversion H' as [|s' ? l'' ? Hs' Hrest]; subst. constructor; [congruence | apply IH; assumption].
Qed.

Lemma parsed_in_range (l : list string) (vs : list Z) :
  Forall2 (fun s v => parse_address s = Some v) l vs ->
  Forall (fun v => 0 <= v < 256 ^ 32) vs.
Proof.
  induction 1 as [|s v l vs Hs _ IH]; constructor; [|exact IH].
  apply parse_address_range in Hs. assert (2 ^ 160 < 256 ^ 32) by reflexivity. lia.
Qed.

(** X14: the calldata determines the batch: two calls that return the same
    calldata were given tokens and recipients that read as the same
    addresses, position by position, and the same amounts. *)
Theorem calldata_injective :
  forall (token token' : string) (recipients recipients' : list string)
         (amounts amounts' : list Z) (out : string),
    getBatchTransferCalldata token recipients amounts = Returned out ->
    getBatchTransferCalldata token' recipients' amounts' = Returned out ->
    parse_address token = parse_address token' /\
    Forall2 (fun r r' => parse_address r = parse_address r') recipients recipients' /\
    amounts = amounts'.
Proof.
  intros token token' recipients recipients' amounts amounts' out H H'.
  unfold getBatchTransferCalldata in H, H'.
  destruct (calldata_bytes token recipients amounts) as [bs|m] eqn:Hbs; [|discriminate].
  destruct (calldata_bytes token' recipients' amounts') as [bs'|m'] eqn:Hbs'; [|discriminate].
  inversion H; subst out; clear H. inversion H' as [Hhex]; clear H'.
  change (hex_of_bytes bs' = hex_of_bytes bs) in Hhex.
  apply hex_of_bytes_inj in Hhex;
    [ | eapply calldata_bytes_are_bytes; eassumption
      | eapply calldata_bytes_are_bytes; eassumption ].
  subst bs'.
  pose proof (calldata_bytes_length _ _ _ _ Hbs) as Hn.
  pose proof (calldata_bytes_length _ _ _ _ Hbs') as Hn'.
  assert (Hcount : length recipients = length recipients') by lia.
  apply calldata_bytes_inv in Hbs as (Hlen & t & vs & Ht & Hvs & Hall & Hshape).
  apply calldata_bytes_inv in Hbs' as (Hlen' & t' & vs' & Ht' & Hvs' & Hall' & Hshape').
  rewrite Hshape in Hshape'. clear Hshape Hn Hn'.
  pose proof (Forall2_length _ _ _ Hvs) as Hlvs.
  pose proof (Forall2_length _ _ _ Hvs') as Hlvs'.
  apply app_inj_1 in Hshape' as [_ Hshape']; [|reflexivity].
  apply app_inj_1 in Hshape' as [Htoken Hshape']; [|rewrite !be_bytes_length; reflexivity].
  apply app_inj_1 in Hshape' as [_ Hshape']; [|reflexivity].
  apply app_inj_1 in Hshape' as [_ Hshape']; [|rewrite !be_bytes_length; reflexivity].
  apply app_inj_1 in Hshape' as [_ Hshape']; [|rewrite !be_bytes_length; reflexivity].
  apply app_inj_1 in Hshape' as [Hwords Hshape'];
    [|rewrite !flat_map_words_length; lia].
  apply app_inj_1 in Hshape' as [_ Hamounts]; [|rewrite !be_bytes_length; reflexivity].
  assert (Haddr : 2 ^ 160 < 256 ^ 32) by reflexivity.
  apply (be_bytes_inj 32) in Htoken;
    [ | apply parse_address_range in Ht; change (256 ^ Z.of_nat 32) with (256 ^ 32); lia
      | apply parse_address_range in Ht'; change (256 ^ Z.of_nat 32) with (256 ^ 32); lia ].
  apply flat_map_words_inj in Hwords;
    [ | lia | eapply parsed_in_range; eassumption | eapply parsed_in_range; eassumption ].
  apply flat_map_words_inj in Hamounts.
  - subst. split; [congruence|]. split; [|reflexivity].
    eapply parsed_alike; eassumption.
  - lia.
  - eapply Forall_impl; [exact Hall|]. intros a Ha. simpl in Ha.
    assert (MAX_UINT256 < 256 ^ 32) by reflexivity. lia.
  - eapply Forall_impl; [exact Hall'|]. intros a Ha. simpl in Ha.
    assert (MAX_UINT256 < 256 ^ 32) by reflexivity. lia.
Qed.

(** X14 read the other way round: the batch of the repository's encoding
    test and the same batch with its amounts swapped have different
    calldata. *)
Lemma calldata_injective_witness :
  getBatchTransferCalldata ClientScenario.test_token ClientScenario.test_recipients
    [1000000; 2000000]
  <> getBatchTransferCalldata ClientScenario.test_token ClientScenario.test_recipients
       [2000000; 1000000].
Proof.
  destruct (getBatchTransferCalldata ClientScenario.test_token
              ClientScenario.test_recipients [1000000; 2000000]) as [out|m] eqn:H.
  - intros H'. symmetry in H'.
    destruct (calldata_injective _ _ _ _ _ _ _ H H') as (_ & _ & Heq). discriminate.
  - vm_compute in H. discriminate.
Defined.

(** ** [recipientsToBatchFormat] *)

Lemma check_entries_kind (k : nat) (recipients : list string) (amounts : list Z)
    (e : ValidationError) :
  check_entries k recipients amounts = Some e ->
  (exists i, e = InvalidRecipient i) \/ (exists i, e = InvalidAmount i).
Proof.
  revert k amounts. induction recipients as [|r rs IH]; intros k amounts Hc; [discriminate|].
  simpl in Hc. destruct (bad_recipient r); [inversion Hc; eauto|].
  destruct amounts as [|x xs]; [exact (IH _ _ Hc)|].
  destruct (bad_amount x); [inversion Hc; eauto | exact (IH _ _ Hc)].
Qed.

(** The validator names the length error only for arrays of different
    lengths. *)
Lemma check_batch_arity (recipients : list string) (amounts : list Z) :
  check_batch recipients amounts = Some ArityMismatch ->
  length recipients <> length amounts.
Proof.
  unfold check_batch.
  destruct (length recipients =? 0)%nat; [discriminate|].
  destruct (length recipients =? length amounts)%nat eqn:Hlen; simpl.
  - destruct (200 <? length recipients)%nat; [discriminate|].
    intros Hc. apply check_entries_kind in Hc as [[i Hi]|[i Hi]]; discriminate.
  - intros _. apply Nat.eqb_neq. exact Hlen.
Qed.

(** X15: when [recipientsToBatchFormat] returns, both arrays have one entry
    for each item, in the order of the items: the address the book holds for
    the item's recipient, never empty, and the item's amount in units. The
    arrays have the same length, so the validator does not answer with the
    length error on them. *)
Theorem recipientsToBatchFormat_returns :
  forall (items : list BatchItem) (book : gmap string string)
         (addresses : list string) (amounts : list Z),
    recipientsToBatchFormat items book = Returned (addresses, amounts) ->
    length addresses = length items /\ length amounts = length items /\
    (forall i item, items !! i = Some item ->
       exists w v, book !! recipientId item = Some w /\ w <> "" /\
                   to_units (amount item) = Returned v /\
                   addresses !! i = Some w /\ amounts !! i = Some v) /\
    check_batch addresses amounts <> Some ArityMismatch.
Proof.
  intros items book. induction items as [|item rest IH]; intros addresses amounts Hrun.
  - simpl in Hrun. inversion Hrun; subst.
    split; [reflexivity|]. split; [reflexivity|]. split.
    + intros i item Hi. discriminate.
    + discriminate.
  - cbn [recipientsToBatchFormat] in Hrun.
    destruct (book !! recipientId item) as [w|] eqn:Hw; [|discriminate].
    destruct (String.eqb_spec w "") as [|Hne]; [discriminate|].
    destruct (to_units (amount item)) as [v|m] eqn:Hv; [|discriminate].
    destruct (recipientsToBatchFormat rest book) as [[addrs amts]|m] eqn:Hrest; [|discriminate].
    inversion Hrun; subst addresses amounts; clear Hrun.
    destruct (IH addrs amts eq_refl) as (Hla & Hlm & Hitems & _).
    assert (Hlen : length (w :: addrs) = length (v :: amts)) by (simpl; congruence).
    split; [simpl; congruence|]. split; [simpl; congruence|]. split.
    + intros [|i] it Hi; simpl in Hi.
      * inversion Hi; subst it. exists w, v. repeat split; assumption.
      * exact (Hitems i it Hi).
    + intros Hc. apply check_batch_arity in Hc. contradiction.
Qed.

(** X15 on two known recipients. *)
Lemma recipientsToBatchFormat_returns_witness :
  recipientsToBatchFormat AddressBook.known AddressBook.book
  = Returned ([ "0xbbbbbbbbbbbbbbbbbbbbbbbbbbbbbbbbbbbbbbbb";
                "0x8ba1f109551bD432803012645Ac136ddd64DBA72" ], [2500000; 1000000]) /\
  length [2500000; 1000000] = length AddressBook.known.
Proof.
  assert (H : recipientsToBatchFormat AddressBook.known AddressBook.book
              = Returned ([ "0xbbbbbbbbbbbbbbbbbbbbbbbbbbbbbbbbbbbbbbbb";
                            "0x8ba1f109551bD432803012645Ac136ddd64DBA72" ],
                          [2500000; 1000000]))
    by (vm_compute; reflexivity).
  split; [exact H|].
  exact (proj1 (proj2 (recipientsToBatchFormat_returns _ _ _ _ H))).
Defined.

(** X16: when the items before it went through, an item whose recipient is
    not in the address book makes [recipientsToBatchFormat] throw, naming
    that recipient, whatever the items after it are. *)
Theorem recipientsToBatchFormat_missing :
  forall (before after : list BatchItem) (item : BatchItem) (book : gmap string string)
         (addresses : list string) (amounts : list Z),
    recipientsToBatchFormat before book = Returned (addresses, amounts) ->
    book !! recipientId item = None ->
    recipientsToBatchFormat (before ++ item :: after) book
    = Thrown ("No wallet address found for recipient " +:+ recipientId item).
Proof.
  intros before after item book. induction before as [|it rest IH];
    intros addresses amounts Hrun Hmiss.
  - simpl. rewrite Hmiss. reflexivity.
  - cbn [recipientsToBatchFormat] in Hrun.
    change ((it :: rest) ++ item :: after) with (it :: (rest ++ item :: after)).
    cbn [recipientsToBatchFormat].
    destruct (book !! recipientId it) as [w|]; [|discriminate].
    destruct (String.eqb w ""); [discriminate|].
    destruct (to_units (amount it)) as [v|m]; [|discriminate].
    destruct (recipientsToBatchFormat rest book) as [[addrs amts]|m] eqn:Hrest; [|discriminate].
    rewrite (IH addrs amts eq_refl Hmiss). reflexivity.
Qed.

(** X16 on an unknown recipient between two known ones. *)
Lemma recipientsToBatchFormat_missing_witness :
  recipientsToBatchFormat AddressBook.with_unknown AddressBook.book
  = Thrown "No wallet address found for recipient recv_9".
Proof.
  apply (recipientsToBatchFormat_missing
           [ {| recipientId := "recv_2"; amount := 2.5%float |} ]
           [ {| recipientId := "recv_1"; amount := 1%float |} ]
           {| recipientId := "recv_9"; amount := 1%float |}
           AddressBook.book
           [ "0xbbbbbbbbbbbbbbbbbbbbbbbbbbbbbbbbbbbbbbbb" ] [2500000]).
  - vm_compute. reflexivity.
  - vm_compute. reflexivity.
Defined.

(** ** [executeBatchTransfer] *)

Lemma deployed_iff (h : host) : isBatchContractDeployed h = true <-> chainId h = 84532.
Proof.
  unfold isBatchContractDeployed, getBatchContractAddress, BATCH_CONTRACT_ADDRESSES.
  destruct (Z.eq_dec (chainId h) 84532) as [Heq|Hne].
  - rewrite Heq, lookup_singleton_eq. split; [reflexivity | intros _; reflexivity].
  - rewrite lookup_singleton_ne by congruence. simpl. split; [discriminate | contradiction].
Qed.

(** X17: on a network without a deployed batch contract (any chain but
    Base Sepolia, 84532) [executeBatchTransfer] fails with its own message,
    whatever the client, the recipients and the amounts are. *)
Theorem executeBatchTransfer_undeployed :
  forall (h : host) (client : XellarClient) (recipients : list Recipient)
         (amounts : list float),
    chainId h <> 84532 ->
    executeBatchTransfer h client recipients amounts
    = failed (Some "Batch contract not deployed on current network").
Proof.
  intros h client recipients amounts Hne.
  unfold executeBatchTransfer, executeBatchTransfer_try.
  destruct (isBatchContractDeployed h) eqn:Hdep; [|reflexivity].
  apply deployed_iff in Hdep. contradiction.
Qed.

(** X17 on Base mainnet, with the client of the failing scenario. *)
Lemma executeBatchTransfer_undeployed_witness :
  executeBatchTransfer
    {| chainId := 8453; usdcAddress := "0x833589fCD6eDb6E08f4c7C32D4f71b54bdA02913";
       now := 1700000000000; random_digits := "8c3f1a2b4d5e6" |}
    ClientScenario.empty_client ClientScenario.one_recipient [1.5%float]
  = failed (Some "Batch contract not deployed on current network").
Proof. apply executeBatchTransfer_undeployed. discriminate. Defined.

(** X18: a batch the validator rejects is answered with the validator's
    message and is not submitted: the answer is the same for every client. *)
Theorem executeBatchTransfer_invalid_batch :
  forall (h : host) (client : XellarClient) (recipients : list Recipient)
         (amounts : list float) (units : list Z),
    isBatchContractDeployed h = true ->
    to_units_all amounts = Returned units ->
    valid (validateBatchTransfer (map walletAddress recipients) units) = false ->
    executeBatchTransfer h client recipients amounts
    = failed (error (validateBatchTransfer (map walletAddress recipients) units)).
Proof.
  intros h client recipients amounts units Hdep Hunits Hvalid.
  unfold executeBatchTransfer, executeBatchTransfer_try.
  rewrite Hdep, Hunits. simpl. rewrite Hvalid. reflexivity.
Qed.

(** X18 on an amount of zero. *)
Lemma executeBatchTransfer_invalid_batch_witness :
  executeBatchTransfer ClientScenario.base_sepolia ClientScenario.empty_client
    ClientScenario.one_recipient [0%float]
  = failed (Some "Invalid amount at index 0").
Proof.
  exact (executeBatchTransfer_invalid_batch ClientScenario.base_sepolia
           ClientScenario.empty_client ClientScenario.one_recipient [0%float] [0]
           eq_refl eq_refl eq_refl).
Defined.

Lemma nonempty_append (a b : string) : a <> "" -> a +:+ b <> "".
Proof. destruct a; [contradiction | discriminate]. Qed.

(** X19: [executeBatchTransfer] answers [success: true] only when the
    contract is deployed, the amounts convert, the validator accepts the
    batch and the calldata could be encoded; the answer then carries the
    number of recipients, the total in units and a batch identifier that is
    not empty. *)
Theorem executeBatchTransfer_success_inv :
  forall (h : host) (client : XellarClient) (recipients : list Recipient)
         (amounts : list float),
    BatchTransferResult.success (executeBatchTransfer h client recipients amounts) = true ->
    isBatchContractDeployed h = true /\
    exists units callData,
      to_units_all amounts = Returned units /\
      valid (validateBatchTransfer (map walletAddress recipients) units) = true /\
      getBatchTransferCalldata (usdcAddress h) (map walletAddress recipients) units
        = Returned callData /\
      BatchTransferResult.recipientCount (executeBatchTransfer h client recipients amounts)
        = Z.of_nat (length recipients) /\
      BatchTransferResult.totalAmount (executeBatchTransfer h client recipients amounts)
        = pretty (sum_list units) /\
      BatchTransferResult.batchId (executeBatchTransfer h client recipients amounts) <> "".
Proof.
  intros h client recipients amounts.
  unfold executeBatchTransfer, executeBatchTransfer_try.
  destruct (isBatchContractDeployed h) eqn:Hdep; simpl; [|discriminate].
  destruct (to_units_all amounts) as [units|m] eqn:Hunits; [|discriminate].
  destruct (valid (validateBatchTransfer (map walletAddress recipients) units)) eqn:Hvalid;
    simpl; [|discriminate].
  destruct (getBatchTransferCalldata (usdcAddress h) (map walletAddress recipients) units)
    as [callData|m] eqn:Hdata; [|discriminate].
  intros Hsuccess. split; [reflexivity|]. exists units, callData.
  split; [reflexivity|]. split; [exact Hvalid|]. split; [exact Hdata|].
  rewrite <- calculateTotalAmount_sum.
  assert (Hsubmitted : forall hash,
            BatchTransferResult.batchId
              (submitted h recipients (calculateTotalAmount units) hash) <> "").
  { intros hash. unfold submitted. simpl.
    destruct (String.eqb_spec hash "") as [|Hne]; [discriminate | exact Hne]. }
  unfold dispatch in *.
  destruct (contract_send client) as [send|].
  { destruct (send _) as [hash|m]; [|discriminate].
    split; [reflexivity|]. split; [reflexivity|]. apply Hsubmitted. }
  destruct (wallet_sendTransaction client) as [send|].
  { destruct (send _) as [result|m]; [|discriminate].
    split; [reflexivity|]. split; [reflexivity|]. apply Hsubmitted. }
  destruct (account_send client) as [send|].
  { destruct (send _) as [result|m]; [|discriminate].
    split; [reflexivity|]. split; [reflexivity|]. apply Hsubmitted. }
  split; [reflexivity|]. split; [reflexivity|]. discriminate.
Qed.

(** X20: an answer with [success: false] is blank but for its message:
    no batch identifier, no hash, total ["0"], no recipient, and an error
    message is always there. *)
Theorem executeBatchTransfer_failure_shape :
  forall (h : host) (client : XellarClient) (recipients : list Recipient)
         (amounts : list float),
    BatchTransferResult.success (executeBatchTransfer h client recipients amounts) = false ->
    exists message,
      executeBatchTransfer h client recipients amounts = failed (Some message).
Proof.
  intros h client recipients amounts.
  unfold executeBatchTransfer, executeBatchTransfer_try.
  destruct (isBatchContractDeployed h); simpl; [|eauto].
  destruct (to_units_all amounts) as [units|m]; [|eauto].
  destruct (validateBatchTransfer (map walletAddress recipients) units) as [ok err] eqn:Hv.
  simpl. destruct ok; simpl.
  2:{ intros _. unfold validateBatchTransfer, verdict in Hv.
      destruct (check_batch _ _); inversion Hv; subst. eauto. }
  destruct (getBatchTransferCalldata _ _ _) as [callData|m]; [|eauto].
  unfold dispatch.
  destruct (contract_send client) as [send|].
  { destruct (send _) as [hash|m]; [discriminate | eauto]. }
  destruct (wallet_sendTransaction client) as [send|].
  { destruct (send _) as [result|m]; [discriminate | eauto]. }
  destruct (account_send client) as [send|].
  { destruct (send _) as [result|m]; [discriminate | eauto]. }
  discriminate.
Qed.

(** X21: when the submission method in use throws, the exception is
    answered as a failure that carries its message, or
    ["Batch transfer failed"] when the message is empty. The method in use
    is [contract.send] when present, else [wallet.sendTransaction] when
    present, else [account.send]. *)
Theorem executeBatchTransfer_transport_error :
  forall (h : host) (client : XellarClient) (recipients : list Recipient)
         (amounts : list float) (units : list Z) (callData : string) (m : string),
    isBatchContractDeployed h = true ->
    to_units_all amounts = Returned units ->
    valid (validateBatchTransfer (map walletAddress recipients) units) = true ->
    getBatchTransferCalldata (usdcAddress h) (map walletAddress recipients) units
      = Returned callData ->
    (exists send, contract_send client = Some send /\
       send {| to := getBatchContractAddress h; data := callData |} = Thrown m) \/
    (exists send, contract_send client = None /\
       wallet_sendTransaction client = Some send /\
       send {| to := getBatchContractAddress h; data := callData |} = Thrown m) \/
    (exists send, contract_send client = None /\ wallet_sendTransaction client = None /\
       account_send client = Some send /\
       send {| to := getBatchContractAddress h; data := callData |} = Thrown m) ->
    executeBatchTransfer h client recipients amounts
    = failed (Some (if String.eqb m "" then "Batch transfer failed" else m)).
Proof.
  intros h client recipients amounts units callData m Hdep Hunits Hvalid Hdata Hsend.
  unfold executeBatchTransfer, executeBatchTransfer_try.
  rewrite Hdep, Hunits. simpl. rewrite Hvalid, Hdata. simpl.
  unfold dispatch.
  destruct Hsend as [(send & Hc & Hthrow) | [(send & Hc & Hw & Hthrow)
                                            | (send & Hc & Hw & Ha & Hthrow)]].
  - rewrite Hc, Hthrow. reflexivity.
  - rewrite Hc, Hw, Hthrow. reflexivity.
  - rewrite Hc, Hw, Ha, Hthrow. reflexivity.
Qed.

(** X19 with a transport that answers a hash, X20 after an invalid batch
    and X21 with a wallet that throws. *)
Lemma executeBatchTransfer_success_inv_witness :
  BatchTransferResult.success
    (executeBatchTransfer ClientScenario.base_sepolia Transports.answering
       ClientScenario.one_recipient [1.5%float]) = true /\
  BatchTransferResult.totalAmount
    (executeBatchTransfer ClientScenario.base_sepolia Transports.answering
       ClientScenario.one_recipient [1.5%float]) = "1500000".
Proof.
  assert (H : BatchTransferResult.success
                (executeBatchTransfer ClientScenario.base_sepolia Transports.answering
                   ClientScenario.one_recipient [1.5%float]) = true)
    by (vm_compute; reflexivity).
  split; [exact H|].
  destruct (executeBatchTransfer_success_inv _ _ _ _ H)
    as (_ & units & callData & Hunits & _ & _ & _ & Htotal & _).
  rewrite Htotal. vm_compute in Hunits. inversion Hunits. vm_compute. reflexivity.
Defined.

Lemma executeBatchTransfer_failure_shape_witness :
  exists message,
    executeBatchTransfer ClientScenario.base_sepolia Transports.answering
      ClientScenario.one_recipient [0%float] = failed (Some message).
Proof.
  apply executeBatchTransfer_failure_shape. vm_compute. reflexivity.
Defined.

Lemma executeBatchTransfer_transport_error_witness :
  executeBatchTransfer ClientScenario.base_sepolia Transports.throwing
    ClientScenario.one_recipient [1.5%float]
  = failed (Some "insufficient funds for gas").
Proof.
  destruct (getBatchTransferCalldata (usdcAddress ClientScenario.base_sepolia)
              (map walletAddress ClientScenario.one_recipient) [1500000])
    as [callData|m] eqn:Hdata; [|vm_compute in Hdata; discriminate].
  apply (executeBatchTransfer_transport_error ClientScenario.base_sepolia
           Transports.throwing ClientScenario.one_recipient [1.5%float] [1500000]
           callData "insufficient funds for gas").
  - reflexivity.
  - vm_compute. reflexivity.
  - vm_compute. reflexivity.
  - exact Hdata.
  - right. left. eexists. split; [reflexivity|]. split; reflexivity.
Defined.

(** * Properties of the contract service *)

(** ** Strings of hex digits *)

Lemma append_cons (x : ascii) (a b : string) : String x a +:+ b = String x (a +:+ b).
Proof. reflexivity. Qed.

Lemma append_assoc (a b c : string) : (a +:+ b) +:+ c = a +:+ (b +:+ c).
Proof. induction a as [|x a IH]; [reflexivity|]. rewrite !append_cons, IH. reflexivity. Qed.

Lemma append_nil_r (a : string) : a +:+ "" = a.
Proof. induction a as [|x a IH]; [reflexivity|]. rewrite append_cons, IH. reflexivity. Qed.

Lemma append_length (a b : string) :
  String.length (a +:+ b) = (String.length a + String.length b)%nat.
Proof.
  induction a as [|x a IH]; [reflexivity|].
  rewrite append_cons. cbn [String.length]. rewrite IH. reflexivity.
Qed.

Lemma zeros_snoc (n : nat) : zeros (S n) = zeros n +:+ "0".
Proof.
  induction n as [|k IH]; [reflexivity|].
  change (zeros (S k) +:+ "0") with (String "0" (zeros k +:+ "0")).
  rewrite <- IH. reflexivity.
Qed.

Lemma zeros_add (m n : nat) : zeros (m + n) = zeros m +:+ zeros n.
Proof.
  induction m as [|k IH]; [reflexivity|].
  change (zeros (S k + n)) with (String "0" (zeros (k + n))). rewrite IH. reflexivity.
Qed.

Lemma nibbles_length (k : nat) (n : Z) : String.length (nibbles k n) = k.
Proof.
  revert n. induction k as [|j IH]; intros n; [reflexivity|].
  cbn [nibbles]. rewrite append_length, IH. simpl. lia.
Qed.

Lemma nibbles_zero (k : nat) : nibbles k 0 = zeros k.
Proof.
  induction k as [|j IH]; [reflexivity|].
  cbn [nibbles]. change (0 / 16) with 0. rewrite IH, zeros_snoc. reflexivity.
Qed.

(** Padding a number's digits to [k] places gives its [k] low digits, when
    it has no more than [k]. *)
Lemma padStart_snoc (k : nat) (s : string) (c : ascii) :
  padStart (S k) (s +:+ String c "") = padStart k s +:+ String c "".
Proof.
  unfold padStart. rewrite append_length. cbn [String.length].
  replace (S k - (String.length s + 1))%nat with (k - String.length s)%nat by lia.
  symmetry. apply append_assoc.
Qed.

Lemma padStart_hex_digits (fuel k : nat) (n : Z) :
  (1 <= k)%nat ->
  0 <= n < 16 ^ Z.of_nat fuel -> 0 <= n < 16 ^ Z.of_nat k ->
  padStart k (hex_digits fuel n) = nibbles k n.
Proof.
  revert k n. induction fuel as [|f IH]; intros k n Hpos Hfuel Hk.
  - simpl in Hfuel. assert (n = 0) by lia. subst n.
    unfold padStart. cbn [hex_digits String.length].
    rewrite nibbles_zero, Nat.sub_0_r, append_nil_r. reflexivity.
  - destruct k as [|j]; [lia|].
    rewrite Nat2Z.inj_succ, Z.pow_succ_r in Hfuel, Hk by lia.
    cbn [hex_digits nibbles].
    destruct (n <? 16) eqn:Hsmall.
    + apply Z.ltb_lt in Hsmall.
      rewrite Z.div_small, Z.mod_small, nibbles_zero by lia.
      unfold padStart. cbn [String.length].
      replace (S j - 1)%nat with j by lia. reflexivity.
    + apply Z.ltb_ge in Hsmall.
      assert (Hq : 1 <= n / 16) by (apply Z.div_le_lower_bound; lia).
      assert (Hqj : n / 16 < 16 ^ Z.of_nat j) by (apply Z.div_lt_upper_bound; lia).
      assert (Hqf : n / 16 < 16 ^ Z.of_nat f) by (apply Z.div_lt_upper_bound; lia).
      rewrite padStart_snoc. f_equal.
      apply IH; [|lia|lia].
      destruct j as [|j']; [simpl in Hqj; lia | lia].
Qed.

Lemma padStart_toString16 (k : nat) (n : Z) :
  (1 <= k)%nat ->
  0 <= n < 16 ^ Z.of_nat k -> padStart k (toString16 n) = nibbles k n.
Proof.
  intros Hk Hn. unfold toString16.
  destruct (n <? 0) eqn:Hneg; [apply Z.ltb_lt in Hneg; lia|].
  destruct (Z.eq_dec n 0) as [->|Hpos].
  { unfold padStart. cbn [hex_digits]. change (0 <? 16) with true. cbv iota.
    cbn [String.length]. destruct k as [|j]; [lia|].
    replace (S j - 1)%nat with j by lia.
    cbn [nibbles]. change (0 / 16) with 0. rewrite nibbles_zero. reflexivity. }
  apply padStart_hex_digits; [exact Hk| |exact Hn].
  split; [lia|].
  pose proof (Z.log2_spec n ltac:(lia)) as [_ Hlog].
  pose proof (Z.log2_nonneg n) as Hnn.
  rewrite Nat2Z.inj_succ, Z2Nat.id by lia.
  eapply Z.lt_le_trans; [exact Hlog|].
  change 16 with (2 ^ 4). rewrite <- Z.pow_mul_r by lia.
  apply Z.pow_le_mono_r; lia.
Qed.

Lemma hex_of_bytes_app (a b : bytes) :
  hex_of_bytes (a ++ b) = hex_of_bytes a +:+ hex_of_bytes b.
Proof.
  induction a as [|x a IH]; [reflexivity|].
  change (hex_of_bytes ((x :: a) ++ b))
    with (String (hex_digit (Z.shiftr x 4))
            (String (hex_digit (Z.land x 15)) (hex_of_bytes (a ++ b)))).
  rewrite IH. reflexivity.
Qed.

(** A word of [m] bytes in hex is the [2 * m] low digits of the number. *)
Lemma hex_of_be_bytes (m : nat) (n : Z) :
  hex_of_bytes (be_bytes m n) = nibbles (2 * m) n.
Proof.
  revert n. induction m as [|j IH]; intros n; [reflexivity|].
  cbn [be_bytes]. rewrite hex_of_bytes_app, IH.
  replace (2 * S j)%nat with (S (S (2 * j))) by lia.
  cbn [nibbles hex_of_bytes]. rewrite append_assoc.
  rewrite Z.shiftr_div_pow2 by lia. change (2 ^ 8) with 256.
  rewrite Z.div_div by lia. change (16 * 16) with 256.
  f_equal.
  change 255 with (Z.ones 8). rewrite Z.land_ones by lia. change (2 ^ 8) with 256.
  rewrite Z.shiftr_div_pow2 by lia. change (2 ^ 4) with 16.
  change 15 with (Z.ones 4). rewrite Z.land_ones by lia. change (2 ^ 4) with 16.
  cbn [String.append].
  assert (Hsplit : n mod 256 = n mod 16 + 16 * ((n / 16) mod 16)).
  { change 256 with (16 * 16). apply Z.rem_mul_r; lia. }
  pose proof (Z.mod_pos_bound n 16 ltac:(lia)) as Hlow.
  pose proof (Z.mod_pos_bound (n / 16) 16 ltac:(lia)) as Hhigh.
  assert (H1 : n mod 256 / 16 = n / 16 mod 16).
  { rewrite Hsplit. symmetry. apply (Z.div_unique _ 16 _ (n mod 16)); lia. }
  assert (H2 : (n mod 256) mod 16 = n mod 16).
  { rewrite Hsplit. symmetry. apply (Z.mod_unique _ 16 ((n / 16) mod 16)); lia. }
  rewrite H1, H2. reflexivity.
Qed.

Lemma nibbles_app (j k : nat) (v : Z) :
  nibbles (j + k) v = nibbles j (v / 16 ^ Z.of_nat k) +:+ nibbles k v.
Proof.
  revert v. induction k as [|k' IH]; intros v.
  - rewrite Nat.add_0_r. change (16 ^ Z.of_nat 0) with 1. rewrite Z.div_1_r.
    cbn [nibbles]. rewrite append_nil_r. reflexivity.
  - replace (j + S k')%nat with (S (j + k')) by lia. cbn [nibbles].
    rewrite IH, append_assoc.
    rewrite Nat2Z.inj_succ, Z.pow_succ_r by lia.
    rewrite Z.div_div by lia. reflexivity.
Qed.

Lemma hex_digit_of_value (c : ascii) (d : Z) :
  hex_value c = Some d -> hex_digit d = lower_char c.
Proof.
  destruct c as [[] [] [] [] [] [] [] []]; vm_compute; intros H;
    try discriminate; inversion H; reflexivity.
Qed.

Lemma toLowerCase_length (s : string) : String.length (toLowerCase s) = String.length s.
Proof. induction s as [|c r IH]; [reflexivity|]. cbn [toLowerCase String.length]. rewrite IH. reflexivity. Qed.

(** The digits a string of hex digits reads as are the string itself, in
    lower case. *)
Lemma hex_number_nibbles (ds : string) (acc v : Z) :
  0 <= acc -> hex_number acc ds = Some v ->
  nibbles (String.length ds) v = toLowerCase ds /\
  v / 16 ^ Z.of_nat (String.length ds) = acc.
Proof.
  revert acc. induction ds as [|c r IH]; intros acc Hacc Hv.
  - simpl in Hv. inversion Hv; subst v. split; [reflexivity|].
    change (16 ^ Z.of_nat (String.length "")) with 1. apply Z.div_1_r.
  - simpl in Hv. destruct (hex_value c) as [d|] eqn:Hd; [|discriminate].
    pose proof (hex_value_range _ _ Hd) as Hrange.
    destruct (IH (16 * acc + d) ltac:(lia) Hv) as [Hdigits Hhigh].
    cbn [String.length toLowerCase]. split.
    + change (S (String.length r)) with (1 + String.length r)%nat.
      rewrite nibbles_app, Hhigh, Hdigits. cbn [nibbles].
      replace ((16 * acc + d) mod 16) with d
        by (apply (Z.mod_unique _ 16 acc); lia).
      rewrite (hex_digit_of_value _ _ Hd). reflexivity.
    + rewrite Nat2Z.inj_succ, Z.pow_succ_r by lia.
      rewrite Z.mul_comm, <- Z.div_div by lia. rewrite Hhigh.
      symmetry. apply (Z.div_unique _ 16 _ d); lia.
Qed.

(** The padded, lower-case address is the 32-byte word of the address. *)
Lemma padded_address_word (s : string) (v : Z) :
  parse_address s = Some v ->
  padStart 64 (slice 2 (toLowerCase s)) = hex_of_bytes (be_bytes 32 v).
Proof.
  intros H. apply parse_address_inv in H as (ds & -> & Hlen & Hv).
  destruct (hex_number_nibbles ds 0 v ltac:(lia) Hv) as [Hdigits Hhigh].
  rewrite Hlen in Hdigits, Hhigh.
  rewrite hex_of_be_bytes. change (2 * 32)%nat with (24 + 40)%nat.
  rewrite nibbles_app, Hhigh, nibbles_zero, Hdigits.
  change (toLowerCase (String "0" (String "x" ds))) with (String "0" (String "x" (toLowerCase ds))).
  cbn [slice]. unfold padStart. rewrite toLowerCase_length, Hlen. reflexivity.
Qed.

Lemma padded_amount_word (amount : Z) :
  0 <= amount <= MAX_UINT256 ->
  padStart 64 (toString16 amount) = hex_of_bytes (be_bytes 32 amount).
Proof.
  intros Ha. rewrite hex_of_be_bytes. change (2 * 32)%nat with 64%nat.
  apply padStart_toString16; [lia|].
  assert (MAX_UINT256 < 16 ^ Z.of_nat 64) by reflexivity. lia.
Qed.

(** X22: for a spender that is [0x] and forty hex digits and an amount
    within [uint256], the calldata [encodeApprove] writes by hand is the ABI
    encoding of [approve(spender, amount)]: the selector of
    [approve(address,uint256)], which is the [0x095ea7b3] of the source, and
    the two arguments as words of 32 bytes. *)
Theorem encodeApprove_is_abi :
  forall (spender : string) (amount v : Z),
    parse_address spender = Some v ->
    0 <= amount <= MAX_UINT256 ->
    ContractService.encodeApprove spender amount
    = "0x" +:+ hex_of_bytes (toFunctionSelector "approve(address,uint256)"
                              ++ be_bytes 32 v ++ be_bytes 32 amount).
Proof.
  intros spender amount v Hv Ha. unfold ContractService.encodeApprove.
  rewrite (padded_address_word _ _ Hv), (padded_amount_word _ Ha).
  rewrite !hex_of_bytes_app.
  assert (Hsel : hex_of_bytes (toFunctionSelector "approve(address,uint256)") = "095ea7b3")
    by (vm_compute; reflexivity).
  rewrite Hsel. reflexivity.
Qed.

(** X22 on the deployed batch contract and 1 USDC. *)
Lemma encodeApprove_is_abi_witness :
  ContractService.encodeApprove "0xca60bFd1D0eAfDf051885221ec4DF0510ceee944" 1000000
  = "0x" +:+ hex_of_bytes (toFunctionSelector "approve(address,uint256)"
                            ++ be_bytes 32 0xca60bFd1D0eAfDf051885221ec4DF0510ceee944
                            ++ be_bytes 32 1000000).
Proof.
  apply encodeApprove_is_abi.
  - vm_compute. reflexivity.
  - split; vm_compute; discriminate.
Defined.

(** X23: likewise, for an owner and a spender that are [0x] and forty hex
    digits, [encodeAllowance] writes the ABI encoding of
    [allowance(owner, spender)], under the selector of
    [allowance(address,address)], the [0xdd62ed3e] of the source. *)
Theorem encodeAllowance_is_abi :
  forall (holder spender : string) (h s : Z),
    parse_address holder = Some h ->
    parse_address spender = Some s ->
    ContractService.encodeAllowance holder spender
    = "0x" +:+ hex_of_bytes (toFunctionSelector "allowance(address,address)"
                              ++ be_bytes 32 h ++ be_bytes 32 s).
Proof.
  intros holder spender h s Hh Hs. unfold ContractService.encodeAllowance.
  rewrite (padded_address_word _ _ Hh), (padded_address_word _ _ Hs).
  rewrite !hex_of_bytes_app.
  assert (Hsel : hex_of_bytes (toFunctionSelector "allowance(address,address)") = "dd62ed3e")
    by (vm_compute; reflexivity).
  rewrite Hsel. reflexivity.
Qed.

Lemma encodeAllowance_is_abi_witness :
  ContractService.encodeAllowance "0x8ba1f109551bD432803012645Ac136ddd64DBA72"
    "0xca60bFd1D0eAfDf051885221ec4DF0510ceee944"
  = "0x" +:+ hex_of_bytes (toFunctionSelector "allowance(address,address)"
                            ++ be_bytes 32 0x8ba1f109551bD432803012645Ac136ddd64DBA72
                            ++ be_bytes 32 0xca60bFd1D0eAfDf051885221ec4DF0510ceee944).
Proof.
  apply encodeAllowance_is_abi; vm_compute; reflexivity.
Defined.

(** ** [executeContractCall], [approveUSDC] and [checkAllowance] *)

(** X24: [executeContractCall] reports a success only when one of the
    three submission methods is present, and then without an error message;
    with none of them present it reports a failure that says so. *)
Theorem executeContractCall_success_needs_method :
  forall (client : ContractService.Client) (params : ContractService.ContractCallParams),
    (ContractService.success (ContractService.executeContractCall client params) = true ->
     ContractService.error (ContractService.executeContractCall client params) = None /\
     (is_Some (ContractService.contract_send client) \/
      is_Some (ContractService.wallet_sendTransaction client) \/
      is_Some (ContractService.account_send client))) /\
    (ContractService.contract_send client = None ->
     ContractService.wallet_sendTransaction client = None ->
     ContractService.account_send client = None ->
     ContractService.executeContractCall client params
     = ContractService.failure "No contract interaction method found in Xellar SDK").
Proof.
  intros client params. split.
  - unfold ContractService.executeContractCall, ContractService.executeContractCall_try.
    destruct (ContractService.contract_send client) as [send|].
    { destruct (send _); simpl; [|discriminate]. intros _. split; [reflexivity | eauto]. }
    destruct (ContractService.wallet_sendTransaction client) as [send|].
    { destruct (send _); simpl; [|discriminate]. intros _. split; [reflexivity | eauto]. }
    destruct (ContractService.account_send client) as [send|].
    { destruct (send _); simpl; [|discriminate]. intros _. split; [reflexivity | eauto]. }
    simpl. discriminate.
  - intros Hc Hw Ha.
    unfold ContractService.executeContractCall, ContractService.executeContractCall_try.
    rewrite Hc, Hw, Ha. reflexivity.
Qed.

(** X24 on a client without any method. *)
Lemma executeContractCall_success_needs_method_witness :
  ContractService.executeContractCall
    {| ContractService.contract_send := None;
       ContractService.wallet_sendTransaction := None;
       ContractService.account_send := None |}
    {| ContractService.to := "0x036CbD53842c5426634e7929541eC2318f3dCF7e";
       ContractService.data := "0x"; ContractService.value := None |}
  = ContractService.failure "No contract interaction method found in Xellar SDK".
Proof.
  apply (proj2 (executeContractCall_success_needs_method _ _)); reflexivity.
Defined.



(** [checkAllowance] answers 0 for every owner, client and network: it
    makes its call and then returns [0n] on both branches. *)
Remark checkAllowance_is_zero :
  forall (h : host) (client : ContractService.Client) (holder : string),
    ContractService.checkAllowance h client holder = 0.
Proof.
  intros h client holder. unfold ContractService.checkAllowance.
  destruct (_ && _); reflexivity.
Qed.

(** * Properties of the recipient store *)

Lemma other_id_true (i : string) (r : RecipientStore.Recipient) :
  RecipientStore.other_id i r = true <-> RecipientStore.id r <> i.
Proof.
  unfold RecipientStore.other_id.
  destruct (String.eqb_spec (RecipientStore.id r) i); simpl; split; congruence.
Qed.

Lemma elem_of_filter_other (i : string) (l : list RecipientStore.Recipient)
      (r : RecipientStore.Recipient) :
  r ∈ List.filter (RecipientStore.other_id i) l <-> r ∈ l /\ RecipientStore.id r <> i.
Proof.
  rewrite !list_elem_of_In, filter_In, other_id_true. reflexivity.
Qed.

Lemma ids_of_filter_other (i j : string) (l : list RecipientStore.Recipient) :
  j ∈ map RecipientStore.id (List.filter (RecipientStore.other_id i) l)
  <-> j ∈ map RecipientStore.id l /\ j <> i.
Proof.
  rewrite !list_elem_of_fmap. split.
  - intros (r & -> & Hr). apply elem_of_filter_other in Hr as [Hr Hne]. eauto.
  - intros [(r & -> & Hr) Hne]. exists r. split; [reflexivity|].
    apply elem_of_filter_other. auto.
Qed.

Lemma existsb_has_id (i : string) (l : list RecipientStore.Recipient) :
  existsb (RecipientStore.has_id i) l = true <-> i ∈ map RecipientStore.id l.
Proof.
  rewrite existsb_exists, list_elem_of_fmap. unfold RecipientStore.has_id. split.
  - intros (r & Hr & Heq). apply String.eqb_eq in Heq. exists r.
    rewrite list_elem_of_In. auto.
  - intros (r & -> & Hr). exists r. rewrite <- list_elem_of_In, String.eqb_refl. auto.
Qed.

Lemma filter_other_absent (i : string) (l : list RecipientStore.Recipient) :
  i ∉ map RecipientStore.id l -> List.filter (RecipientStore.other_id i) l = l.
Proof.
  induction l as [|r l IH]; intros Hnot; [reflexivity|]. simpl in *.
  rewrite not_elem_of_cons in Hnot. destruct Hnot as [Hne Hnot].
  assert (Hr : RecipientStore.other_id i r = true) by (apply other_id_true; congruence).
  rewrite Hr, IH by exact Hnot. reflexivity.
Qed.

Lemma filter_other_app (i : string) (l k : list RecipientStore.Recipient) :
  List.filter (RecipientStore.other_id i) (l ++ k)
  = List.filter (RecipientStore.other_id i) l ++ List.filter (RecipientStore.other_id i) k.
Proof. apply List.filter_app. Qed.

Lemma ids_of_filter_NoDup (i : string) (l : list RecipientStore.Recipient) :
  NoDup (map RecipientStore.id l) ->
  NoDup (map RecipientStore.id (List.filter (RecipientStore.other_id i) l)).
Proof.
  induction l as [|r l IH]; intros Hnd; simpl in *; [constructor|].
  apply NoDup_cons in Hnd as [Hnot Hnd].
  destruct (RecipientStore.other_id i r); simpl; [|auto].
  apply NoDup_cons. split; [|auto].
  intros Hin. apply ids_of_filter_other in Hin as [Hin _]. auto.
Qed.

(** X26: [toggleRecipientSelection] flips whether the recipient's id is in
    the batch selection, and changes the membership of no other id. *)
Theorem toggleRecipientSelection_flips :
  forall (recipient : RecipientStore.Recipient) (state : RecipientStore.RecipientState)
         (j : string),
    j ∈ RecipientStore.selected_ids (RecipientStore.toggleRecipientSelection recipient state)
    <-> (j = RecipientStore.id recipient /\ j ∉ RecipientStore.selected_ids state)
        \/ (j <> RecipientStore.id recipient /\ j ∈ RecipientStore.selected_ids state).
Proof.
  intros recipient state j.
  unfold RecipientStore.selected_ids, RecipientStore.toggleRecipientSelection. simpl.
  destruct (existsb _ _) eqn:Hsel.
  - apply existsb_has_id in Hsel. rewrite ids_of_filter_other. split.
    + intros [Hin Hne]. right. auto.
    + intros [[-> Hnot]|[Hne Hin]]; [contradiction | auto].
  - assert (Hnot : RecipientStore.id recipient ∉ map RecipientStore.id
                     (RecipientStore.selectedRecipients state)).
    { intros Hin. apply existsb_has_id in Hin. congruence. }
    rewrite map_app, elem_of_app. simpl. rewrite list_elem_of_singleton. split.
    + intros [Hin| ->]; [|left; auto].
      right. split; [|exact Hin]. intros ->. contradiction.
    + intros [[-> _]|[_ Hin]]; auto.
Qed.

(** X27: a batch selection without two recipients of the same id stays so
    under [toggleRecipientSelection] and under [deleteRecipient]. *)
Theorem selection_stays_duplicate_free :
  forall (recipient : RecipientStore.Recipient) (i : string)
         (state : RecipientStore.RecipientState),
    NoDup (RecipientStore.selected_ids state) ->
    NoDup (RecipientStore.selected_ids
             (RecipientStore.toggleRecipientSelection recipient state)) /\
    NoDup (RecipientStore.selected_ids (RecipientStore.deleteRecipient i state)).
Proof.
  intros recipient i state Hnd.
  unfold RecipientStore.selected_ids in *. split; simpl.
  - destruct (existsb _ _) eqn:Hsel.
    + apply ids_of_filter_NoDup, Hnd.
    + rewrite map_app. apply NoDup_app. split; [exact Hnd|]. split.
      * intros j Hj Hin. simpl in Hin. apply list_elem_of_singleton in Hin. subst j.
        apply existsb_has_id in Hj. congruence.
      * simpl. apply NoDup_singleton.
  - apply ids_of_filter_NoDup, Hnd.
Qed.

(** X27 on a selection of two recipients. *)
Lemma selection_stays_duplicate_free_witness :
  NoDup (RecipientStore.selected_ids
           (RecipientStore.toggleRecipientSelection (RecipientStore.sample "3")
              RecipientStore.two_selected)) /\
  NoDup (RecipientStore.selected_ids
           (RecipientStore.deleteRecipient "1" RecipientStore.two_selected)).
Proof.
  apply (selection_stays_duplicate_free (RecipientStore.sample "3") "1"
           RecipientStore.two_selected).
  apply (NoDup_cons_2 "1" ["2"]);
    [ rewrite list_elem_of_singleton; discriminate
    | apply (NoDup_cons_2 "2" []); [apply not_elem_of_nil | apply NoDup_nil_2] ].
Defined.

(** X28: toggling a recipient whose id is not in the batch selection twice
    gives the state back: the first call appends the recipient, the second
    removes it again and nothing else. *)
Theorem toggleRecipientSelection_twice :
  forall (recipient : RecipientStore.Recipient) (state : RecipientStore.RecipientState),
    RecipientStore.id recipient ∉ RecipientStore.selected_ids state ->
    RecipientStore.toggleRecipientSelection recipient
      (RecipientStore.toggleRecipientSelection recipient state) = state.
Proof.
  intros recipient state Hnot. unfold RecipientStore.selected_ids in Hnot.
  assert (Hsel : existsb (RecipientStore.has_id (RecipientStore.id recipient))
                   (RecipientStore.selectedRecipients state) = false).
  { destruct (existsb _ _) eqn:Hsel; [|reflexivity].
    apply existsb_has_id in Hsel. contradiction. }
  destruct state as [rs one sel batch loading]. simpl in *.
  unfold RecipientStore.toggleRecipientSelection. simpl. rewrite Hsel. simpl.
  rewrite existsb_app. simpl. unfold RecipientStore.has_id at 2.
  rewrite String.eqb_refl, orb_true_r.
  rewrite filter_other_app, (filter_other_absent _ _ Hnot). simpl.
  unfold RecipientStore.other_id. rewrite String.eqb_refl. simpl.
  rewrite app_nil_r. reflexivity.
Qed.

(** X28 on a recipient outside a selection of two. *)
Lemma toggleRecipientSelection_twice_witness :
  RecipientStore.toggleRecipientSelection (RecipientStore.sample "3")
    (RecipientStore.toggleRecipientSelection (RecipientStore.sample "3")
       RecipientStore.two_selected)
  = RecipientStore.two_selected.
Proof.
  apply toggleRecipientSelection_twice.
  unfold RecipientStore.selected_ids. simpl.
  rewrite !not_elem_of_cons. split; [discriminate|].
  split; [discriminate | apply not_elem_of_nil].
Defined.

(** X29: [deleteRecipient] removes the id from the stored recipients, from
    the single selection and from the batch selection, keeps every
    recipient of another id, and keeps the batch selection
    inside the stored recipients when it was inside before. *)
Theorem deleteRecipient_removes :
  forall (i : string) (state : RecipientStore.RecipientState),
    let after := RecipientStore.deleteRecipient i state in
    (i ∉ map RecipientStore.id (RecipientStore.recipients after)) /\
    (i ∉ RecipientStore.selected_ids after) /\
    (forall r, RecipientStore.selectedRecipient after = Some r ->
               RecipientStore.id r <> i /\ RecipientStore.selectedRecipient state = Some r) /\
    (forall r, RecipientStore.id r <> i ->
               (r ∈ RecipientStore.recipients after <-> r ∈ RecipientStore.recipients state) /\
               (r ∈ RecipientStore.selectedRecipients after
                <-> r ∈ RecipientStore.selectedRecipients state)) /\
    (RecipientStore.selected_ids state ⊆ map RecipientStore.id (RecipientStore.recipients state) ->
     RecipientStore.selected_ids after ⊆ map RecipientStore.id (RecipientStore.recipients after)).
Proof.
  intros i state after. subst after. unfold RecipientStore.selected_ids. simpl.
  split; [|split; [|split; [|split]]].
  - intros Hin. apply ids_of_filter_other in Hin as [_ Hne]. congruence.
  - intros Hin. apply ids_of_filter_other in Hin as [_ Hne]. congruence.
  - intros r Hr. destruct (RecipientStore.selectedRecipient state) as [r0|]; [|discriminate].
    destruct (String.eqb_spec (RecipientStore.id r0) i); [discriminate|].
    injection Hr as <-. auto.
  - intros r Hne. rewrite !elem_of_filter_other. tauto.
  - intros Hsub j Hj. apply ids_of_filter_other in Hj as [Hj Hne].
    apply ids_of_filter_other. split; [apply Hsub, Hj | exact Hne].
Qed.


